(** * The change-log watcher of [state/watcher/watcher.go]

    A shallow embedding of the watcher goroutine: its subscription
    registry ([handle]), its synchronisation pass over the transaction
    log ([sync]), its delivery engine ([flush]) and the main [loop].

    The goroutine owns all of its state, so the embedding is a family of
    pure functions over a [Watcher] record.  Everything the goroutine
    learns from the outside world through a [select] statement (a
    request arriving, the timer firing, a subscriber accepting a send,
    the tomb dying) is supplied by a script of [choice]s; the contents of
    the log at each pass are supplied by [iteratorFunc]. *)

From Stdlib Require Import ZArith String Sorted.
From stdpp Require Import gmap strings list.

Local Open Scope Z_scope.

(** ** Values decoded from the log *)

(** The dynamic values ([interface{}]) the watcher handles: document
    ids, revision numbers, and the nil interface.  [VInt] is a Go [int]
    (what bson produces for a 32-bit integer); only [VInt64] passes the
    type assertion [r[i].(int64)]. *)
Inductive ival : Type :=
  | VNil
  | VInt64 (n : Z)
  | VInt (n : Z)
  | VString (s : string).

#[global] Instance ival_eq_dec : EqDecision ival.
Proof. solve_decision. Defined.

#[global] Instance ival_countable : Countable ival.
Proof.
  refine (inj_countable'
    (fun v => match v with
              | VNil => inl ()
              | VInt64 n => inr (inl n)
              | VInt n => inr (inr (inl n))
              | VString s => inr (inr (inr s))
              end)
    (fun x => match x with
              | inl _ => VNil
              | inr (inl n) => VInt64 n
              | inr (inr (inl n)) => VInt n
              | inr (inr (inr s)) => VString s
              end) _).
  by intros [].
Defined.

(** The value of a field inside a per-collection sub-document: either
    an array ([[]interface{}]) or something else. *)
Inductive field_value : Type :=
  | FArr (l : list ival)
  | FVal (v : ival).

(** The value of a top-level element of a log entry: a scalar (the
    [_id]) or a sub-document ([bson.D]) of named fields. *)
Inductive elem_value : Type :=
  | EVal (v : ival)
  | EDoc (items : list (string * field_value)).

#[global] Instance field_value_eq_dec : EqDecision field_value.
Proof. solve_decision. Defined.
#[global] Instance elem_value_eq_dec : EqDecision elem_value.
Proof. solve_decision. Defined.

Record DocElem : Type := mkElem { Name : string; Value : elem_value }.

(** [bson.D]: an ordered document. *)
Definition bsonD : Type := list DocElem.

(** ** Data model *)

(** Channels are compared by identity only. *)
Definition chan : Type := nat.

Record Change : Type := mkChange { C : string; Id : ival; Revno : Z }.

#[global] Instance Change_eq_dec : EqDecision Change.
Proof. solve_decision. Defined.

(** [k_id] is [VNil] when watching a whole collection. *)
Record watchKey : Type := mkKey { k_c : string; k_id : ival }.

#[global] Instance watchKey_eq_dec : EqDecision watchKey.
Proof. solve_decision. Defined.

#[global] Instance watchKey_countable : Countable watchKey.
Proof.
  refine (inj_countable' (fun k => (k_c k, k_id k))
                         (fun p => mkKey p.1 p.2) _).
  by intros [].
Defined.

(** [watchKey.match]: the receiver may be a document or a collection
    key; [k1] is a document key. *)
Definition key_match (k k1 : watchKey) : bool :=
  if negb (bool_decide (k_c k = k_c k1)) then false
  else if bool_decide (k_id k = VNil) then true
  else bool_decide (k_id k = k_id k1).

(** [i_ch] and [e_ch] are [None] for the nil channel. *)
Record watchInfo : Type := mkInfo {
  i_ch : option chan;
  i_revno : Z;
  i_filter : option (ival -> bool)
}.

Record event : Type := mkEvent {
  e_ch : option chan;
  e_key : watchKey;
  e_revno : Z
}.

#[global] Instance event_eq_dec : EqDecision event.
Proof. solve_decision. Defined.

Record Watcher : Type := mkWatcher {
  watches : gmap watchKey (list watchInfo);
  needSync : bool;
  syncEvents : list event;
  requestEvents : list event;
  lastId : elem_value
}.

Definition set_watches (w : Watcher) (m : gmap watchKey (list watchInfo)) : Watcher :=
  mkWatcher m (needSync w) (syncEvents w) (requestEvents w) (lastId w).
Definition set_needSync (w : Watcher) (b : bool) : Watcher :=
  mkWatcher (watches w) b (syncEvents w) (requestEvents w) (lastId w).
Definition set_syncEvents (w : Watcher) (q : list event) : Watcher :=
  mkWatcher (watches w) (needSync w) q (requestEvents w) (lastId w).
Definition set_requestEvents (w : Watcher) (q : list event) : Watcher :=
  mkWatcher (watches w) (needSync w) (syncEvents w) q (lastId w).
Definition set_lastId (w : Watcher) (v : elem_value) : Watcher :=
  mkWatcher (watches w) (needSync w) (syncEvents w) (requestEvents w) v.

(** [w.watches[k]]: a missing key reads as the nil slice. *)
Definition watches_of (w : Watcher) (k : watchKey) : list watchInfo :=
  default [] (watches w !! k).

(** ** Errors *)

Inductive error : Type :=
  | ErrDying                                   (* tomb.ErrDying *)
  | ErrRestartAgentValue                       (* see [ErrRestartAgent] *)
  | cappedPositionLostError
  | QueryError (code : Z) (message : string)   (* *mgo.QueryError *)
  | OtherError (message : string)              (* any other failure *)
  | ErrReAdd (key : watchKey) (ch : option chan)
  | ErrNilId
  | Annotated (message : string) (e : error)   (* errors.Annotate *)
  | Traced (e : error).                        (* errors.Trace *)

#[global] Instance error_eq_dec : EqDecision error.
Proof. solve_decision. Defined.

(** Modelled from the spec: [jworker.ErrRestartAgent] is declared in the
    [worker] package, which is not among the sources; the spec calls it
    the distinguished restart-the-whole-agent cause.  It is a value
    distinct from every other error. *)
Definition ErrRestartAgent : error := ErrRestartAgentValue.

(** [errors.Cause]: the innermost error below annotations and traces. *)
Fixpoint Cause (e : error) : error :=
  match e with
  | Annotated _ e' => Cause e'
  | Traced e' => Cause e'
  | _ => e
  end.

Inductive panic_reason : Type :=
  | PanicReAdd (key : watchKey) (ch : option chan)
  | PanicMissing (key : watchKey) (ch : option chan)
  | PanicIdNotFirst
  | PanicIndexOutOfRange
  | PanicUncomparable.

#[global] Instance panic_reason_eq_dec : EqDecision panic_reason.
Proof. solve_decision. Defined.

Inductive outcome (A : Type) : Type :=
  | Done (a : A)
  | Panic (p : panic_reason).
Arguments Done {A} a.
Arguments Panic {A} p.

(** ** Requests and [handle] *)

(** The completion channels of [reqWatch] and [reqWatchMulti] are not
    part of the request: [handle] returns the value it sends on them. *)
Inductive request : Type :=
  | reqSync
  | reqWatch (key : watchKey) (info : watchInfo)
  | reqUnwatch (key : watchKey) (ch : option chan)
  | reqWatchMulti (collection : string) (ids : list ival) (watchCh : option chan).

Definition has_ch (ch : option chan) (info : watchInfo) : bool :=
  bool_decide (i_ch info = ch).

(** Index of the first entry of [infos] whose channel is [ch]. *)
Fixpoint find_ch (ch : option chan) (infos : list watchInfo) : option nat :=
  match infos with
  | [] => None
  | info :: rest =>
      if has_ch ch info then Some 0%nat else S <$> find_ch ch rest
  end.

(** [watches[i] = watches[len(watches)-1]] followed by
    [watches[:len(watches)-1]]. *)
Definition swap_remove (i : nat) (infos : list watchInfo) : list watchInfo :=
  match last infos with
  | Some l => take (length infos - 1)%nat (<[i := l]> infos)
  | None => infos
  end.

(** [e.ch = nil] for every queued event matching the removed pair. *)
Definition purge (key : watchKey) (ch : option chan) (q : list event) : list event :=
  (fun e => if key_match key (e_key e) && bool_decide (e_ch e = ch)
            then mkEvent None (e_key e) (e_revno e) else e) <$> q.

(** The first loop of the [reqWatchMulti] case: the first id (in
    request order) for which [watchCh] is already registered. *)
Fixpoint multi_conflict (w : Watcher) (collection : string) (ids : list ival)
    (watchCh : option chan) : option watchKey :=
  match ids with
  | [] => None
  | id :: rest =>
      let key := mkKey collection id in
      if existsb (has_ch watchCh) (watches_of w key) then Some key
      else multi_conflict w collection rest watchCh
  end.

(** The second loop of the [reqWatchMulti] case. *)
Fixpoint multi_register (m : gmap watchKey (list watchInfo)) (collection : string)
    (ids : list ival) (watchCh : option chan) : gmap watchKey (list watchInfo) :=
  match ids with
  | [] => m
  | id :: rest =>
      let key := mkKey collection id in
      multi_register (<[key := default [] (m !! key) ++ [mkInfo watchCh (-2) None]]> m)
                     collection rest watchCh
  end.

(** [handle]: the new state and the error sent on the request's
    completion channel ([None] when nil is sent or nothing is). *)
Definition handle (w : Watcher) (req : request) : outcome (Watcher * option error) :=
  match req with
  | reqSync => Done (set_needSync w true, None)
  | reqWatch key info =>
      if existsb (has_ch (i_ch info)) (watches_of w key)
      then Panic (PanicReAdd key (i_ch info))
      else Done (set_watches w (<[key := watches_of w key ++ [info]]> (watches w)), None)
  | reqUnwatch key ch =>
      let infos := watches_of w key in
      match find_ch ch infos with
      | None => Panic (PanicMissing key ch)
      | Some i =>
          let w1 := set_watches w (<[key := swap_remove i infos]> (watches w)) in
          let w2 := set_requestEvents w1 (purge key ch (requestEvents w1)) in
          Done (set_syncEvents w2 (purge key ch (syncEvents w2)), None)
      end
  | reqWatchMulti collection ids watchCh =>
      match multi_conflict w collection ids watchCh with
      | Some key => Done (w, Some (ErrReAdd key watchCh))
      | None =>
          Done (set_watches w (multi_register (watches w) collection ids watchCh), None)
      end
  end.

(** ** Public API: the request each call sends to the goroutine *)

(** [Watch]: panics in the caller ([None]) on a nil id. *)
Definition Watch (collection : string) (id : ival) (ch : option chan) : option request :=
  if bool_decide (id = VNil) then None
  else Some (reqWatch (mkKey collection id) (mkInfo ch (-2) None)).

(** [WatchMulti]: a nil id is refused before any request is sent. *)
Definition WatchMulti (collection : string) (ids : list ival) (ch : option chan)
    : error + request :=
  if existsb (fun id => bool_decide (id = VNil)) ids then inl ErrNilId
  else inr (reqWatchMulti collection ids ch).

Definition WatchCollectionWithFilter (collection : string) (ch : option chan)
    (filter : option (ival -> bool)) : request :=
  reqWatch (mkKey collection VNil) (mkInfo ch 0 filter).

Definition WatchCollection (collection : string) (ch : option chan) : request :=
  WatchCollectionWithFilter collection ch None.

Definition Unwatch (collection : string) (id : ival) (ch : option chan) : option request :=
  if bool_decide (id = VNil) then None
  else Some (reqUnwatch (mkKey collection id) ch).

Definition UnwatchCollection (collection : string) (ch : option chan) : request :=
  reqUnwatch (mkKey collection VNil) ch.

Definition StartSync : request := reqSync.

(** ** The synchronisation pass *)

(** The iterator returned by [iteratorFunc]: the entries [Next] yields,
    newest first, and the result of [Close]. *)
Record Iterator : Type := mkIter { docs : list bsonD; closeErr : option error }.

(** The warnings a pass writes to the logger (trace lines are left out). *)
Inductive logLine : Type :=
  | WarnInvalidCollection (c : DocElem)
  | WarnRevnoType (v : ival)
  | WarnLogOverflow.

(** The loop variables of [sync] that change while the log is walked. *)
Record syncState : Type := mkSync {
  s_w : Watcher;
  s_seen : gset watchKey;
  s_log : list logLine
}.

(** The loop over the per-collection watches of one change: an event
    for every entry whose filter is nil or accepts the id. *)
Fixpoint collection_events (key : watchKey) (revno : Z) (infos : list watchInfo)
    : list event :=
  match infos with
  | [] => []
  | info :: rest =>
      match i_filter info with
      | Some f =>
          if negb (f (k_id key)) then collection_events key revno rest
          else mkEvent (i_ch info) key revno :: collection_events key revno rest
      | None => mkEvent (i_ch info) key revno :: collection_events key revno rest
      end
  end.

(** The condition under which a per-document watch is notified. *)
Definition doc_notify (revno : Z) (info : watchInfo) : bool :=
  (i_revno info <? revno) || ((revno <? 0) && (0 <=? i_revno info)).

(** The loop over the per-document watches of one change: the entries
    after the in-place updates [infos[i].revno = revno], and the events
    appended. *)
Fixpoint document_events (key : watchKey) (revno : Z) (infos : list watchInfo)
    : list watchInfo * list event :=
  match infos with
  | [] => ([], [])
  | info :: rest =>
      let '(rest', evts) := document_events key revno rest in
      if doc_notify revno info
      then (mkInfo (i_ch info) revno (i_filter info) :: rest',
            mkEvent (i_ch info) key revno :: evts)
      else (info :: rest', evts)
  end.

(** What the pass does for a change of document [key] to [revno]
    (already normalised): queue the per-collection notifications, then
    the per-document ones. *)
Definition notify (key : watchKey) (revno : Z) (w : Watcher) : Watcher :=
  let w1 := set_syncEvents w
    (syncEvents w ++ collection_events key revno (watches_of w (mkKey (k_c key) VNil))) in
  let '(infos', evts) := document_events key revno (watches_of w1 key) in
  let w2 := match watches w1 !! key with
            | Some _ => set_watches w1 (<[key := infos']> (watches w1))
            | None => w1
            end in
  set_syncEvents w2 (syncEvents w2 ++ evts).

(** Negative revisions are reported as -1. *)
Definition normalize (revno : Z) : Z := if revno <? 0 then -1 else revno.

(** The body of the loop over the rows of a delta batch, at row
    [(di, ri)]. *)
Definition sync_row (cname : string) (di ri : ival) (st : syncState) : syncState :=
  let key := mkKey cname di in
  if bool_decide (key ∈ s_seen st) then st
  else
    let seen := {[key]} ∪ s_seen st in
    match ri with
    | VInt64 revno => mkSync (notify key (normalize revno) (s_w st)) seen (s_log st)
    | _ => mkSync (s_w st) seen (s_log st ++ [WarnRevnoType ri])
    end.

(** [for i := len(d) - 1; i >= 0; i--]: [n] is [i + 1]. *)
Fixpoint sync_rows (cname : string) (d r : list ival) (n : nat) (st : syncState)
    : syncState :=
  match n with
  | O => st
  | S i =>
      match d !! i, r !! i with
      | Some di, Some ri => sync_rows cname d r i (sync_row cname di ri st)
      | _, _ => st
      end
  end.

(** The [switch item.Name] loop: the last ["d"] and the last ["r"] field
    win, and a field that is not an array reads as nil. *)
Definition as_array (v : field_value) : list ival :=
  match v with FArr l => l | FVal _ => [] end.

Definition decode_batch (v : elem_value) : list ival * list ival :=
  match v with
  | EDoc dr =>
      fold_left (fun '(d, r) '(name, value) =>
                   if String.eqb name "d" then (as_array value, r)
                   else if String.eqb name "r" then (d, as_array value)
                   else (d, r))
                dr ([], [])
  | EVal _ => ([], [])
  end.

(** The body of [for _, c := range entry[1:]]. *)
Definition sync_collection (st : syncState) (c : DocElem) : syncState :=
  let '(d, r) := decode_batch (Value c) in
  if (length d =? 0)%nat || negb (length d =? length r)%nat
  then mkSync (s_w st) (s_seen st) (s_log st ++ [WarnInvalidCollection c])
  else sync_rows (Name c) d r (length d) st.

(** [id.Value == lastId] on interface values: two sub-documents are
    not comparable. *)
Definition iface_eq (a b : elem_value) : outcome bool :=
  match a, b with
  | EVal x, EVal y => Done (bool_decide (x = y))
  | EDoc _, EDoc _ => Panic PanicUncomparable
  | _, _ => Done false
  end.

(** [for iter.Next(&entry)]: [first] and [lastId] are the local
    variables of [sync]. *)
Fixpoint sync_entries (entries : list bsonD) (first : bool) (lastId : elem_value)
    (st : syncState) : outcome syncState :=
  match entries with
  | [] => Done st
  | entry :: rest =>
      match entry with
      | [] => Panic PanicIndexOutOfRange
      | id :: cs =>
          if negb (String.eqb (Name id) "_id") then Panic PanicIdNotFirst
          else
            let st1 := if first
                       then mkSync (set_lastId (s_w st) (Value id)) (s_seen st) (s_log st)
                       else st in
            match iface_eq (Value id) lastId with
            | Panic p => Panic p
            | Done true => Done st1
            | Done false => sync_entries rest false lastId (fold_left sync_collection cs st1)
            end
      end
  end.

(** [strings.Contains]. *)
Definition contains (s substr : string) : bool :=
  match String.index 0 substr s with Some _ => true | None => false end.

(** The tail of [sync]: the error returned after [iter.Close]. *)
Definition close_error (it : Iterator) : option error * list logLine :=
  match closeErr it with
  | None => (None, [])
  | Some (QueryError code message) =>
      if (code =? 136) || contains message "CappedPositionLost"
      then (Some (Annotated "watcher iteration error" cappedPositionLostError),
            [WarnLogOverflow])
      else (Some (Annotated "watcher iteration error" (QueryError code message)), [])
  | Some err => (Some (Annotated "watcher iteration error" err), [])
  end.

Record syncResult : Type := mkResult {
  r_w : Watcher;
  r_err : option error;
  r_log : list logLine
}.

Definition sync (w : Watcher) (it : Iterator) : outcome syncResult :=
  let w0 := set_needSync w false in
  match sync_entries (docs it) true (lastId w) (mkSync w0 ∅ []) with
  | Panic p => Panic p
  | Done st =>
      let '(err, warn) := close_error it in
      Done (mkResult (s_w st) err (s_log st ++ warn))
  end.

(** ** Delivery *)

(** What a [select] statement of the goroutine picks.  [Receive] is the
    subscriber accepting the pending send; [Tick] is the timer.  A
    choice that is not a case of the [select] at hand is consumed
    without effect. *)
Inductive choice : Type :=
  | Dying
  | Tick
  | Request (r : request)
  | Receive.

(** What the outside world observes of the goroutine: a change sent on
    a subscriber channel, and a request taken off the request channel
    and handled, with the error sent back on its completion channel. *)
Inductive obs : Type :=
  | Sent (ch : chan) (c : Change)
  | Handled (r : request) (reply : option error).

Inductive flush_status : Type :=
  | FlushDone
  | FlushDying                       (* returned on [<-w.tomb.Dying()] *)
  | FlushBlocked                     (* the script ran out at a [select] *)
  | FlushPanic (p : panic_reason).

#[global] Instance flush_status_eq_dec : EqDecision flush_status.
Proof. solve_decision. Defined.

Record flushed : Type := mkFlushed {
  f_status : flush_status;
  f_w : Watcher;
  f_rest : list choice;
  f_trace : list obs
}.

Definition and_then (r : flushed) (k : Watcher -> list choice -> flushed) : flushed :=
  match f_status r with
  | FlushDone =>
      let r' := k (f_w r) (f_rest r) in
      mkFlushed (f_status r') (f_w r') (f_rest r') (f_trace r ++ f_trace r')
  | _ => r
  end.

Definition observe (o : obs) (r : flushed) : flushed :=
  mkFlushed (f_status r) (f_w r) (f_rest r) (o :: f_trace r).

Definition change_of (e : event) : Change :=
  mkChange (k_c (e_key e)) (k_id (e_key e)) (e_revno e).

(** [for e.ch != nil { select ... }] for [e := &q[i]], where [q] is one
    of the two queues.  The event is read again after every request
    handled, since [handle] may clear its channel. *)
Fixpoint deliver (q : Watcher -> list event) (i : nat) (w : Watcher)
    (script : list choice) : flushed :=
  match q w !! i with
  | None => mkFlushed FlushDone w script []
  | Some e =>
      match e_ch e with
      | None => mkFlushed FlushDone w script []
      | Some ch =>
          match script with
          | [] => mkFlushed FlushBlocked w [] []
          | Dying :: rest => mkFlushed FlushDying w rest []
          | Request r :: rest =>
              match handle w r with
              | Panic p => mkFlushed (FlushPanic p) w rest []
              | Done (w', reply) => observe (Handled r reply) (deliver q i w' rest)
              end
          | Receive :: rest => mkFlushed FlushDone w rest [Sent ch (change_of e)]
          | Tick :: rest => deliver q i w rest
          end
      end
  end.

(** [for i := len(w.syncEvents) - 1; i >= 0; i--]: [n] is [i + 1]. *)
Fixpoint flush_sync (n : nat) (w : Watcher) (script : list choice) : flushed :=
  match n with
  | O => mkFlushed FlushDone w script []
  | S i => and_then (deliver syncEvents i w script) (flush_sync i)
  end.

(** [for i := 0; i < len(w.requestEvents); i++]: [fuel] bounds the
    number of iterations left. *)
Fixpoint flush_requests (fuel i : nat) (w : Watcher) (script : list choice) : flushed :=
  match fuel with
  | O => mkFlushed FlushDone w script []
  | S fuel =>
      if (i <? length (requestEvents w))%nat
      then and_then (deliver requestEvents i w script) (flush_requests fuel (S i))
      else mkFlushed FlushDone w script []
  end.

Definition flush (w : Watcher) (script : list choice) : flushed :=
  and_then (flush_sync (length (syncEvents w)) w script) (fun w1 rest1 =>
  and_then (flush_requests (length (requestEvents w1)) 0 w1 rest1) (fun w2 rest2 =>
  mkFlushed FlushDone (set_requestEvents (set_syncEvents w2 []) []) rest2 [])).

(** ** The main loop *)

Inductive ending : Type :=
  | Returned (err : error)           (* [loop] returned this error *)
  | Blocked                          (* the script ran out at a [select] *)
  | Panicked (p : panic_reason)
  | OutOfFuel.

(** The [select] statement of [loop], entered with the state and the
    script [fl] holds (a flush that returned on the dying tomb leaves
    its queues as they are); [next] is the rest of the loop. *)
Definition select_step (next : Watcher -> list choice -> list obs * ending)
    (fl : flushed) : list obs * ending :=
  match f_status fl with
  | FlushBlocked => (f_trace fl, Blocked)
  | FlushPanic p => (f_trace fl, Panicked p)
  | FlushDone | FlushDying =>
      match f_rest fl with
      | [] => (f_trace fl, Blocked)
      | Dying :: _ => (f_trace fl, Returned (Traced ErrDying))
      | Tick :: rest =>
          let '(tr, e) := next (set_needSync (f_w fl) true) rest in
          (f_trace fl ++ tr, e)
      | Request r :: rest =>
          match handle (f_w fl) r with
          | Panic p => (f_trace fl, Panicked p)
          | Done (w', reply) =>
              let fl' := flush w' rest in
              match f_status fl' with
              | FlushBlocked => (f_trace fl ++ Handled r reply :: f_trace fl', Blocked)
              | FlushPanic p => (f_trace fl ++ Handled r reply :: f_trace fl', Panicked p)
              | FlushDone | FlushDying =>
                  let '(tr, e) := next (f_w fl') (f_rest fl') in
                  (f_trace fl ++ Handled r reply :: f_trace fl' ++ tr, e)
              end
          end
      | Receive :: rest =>
          let '(tr, e) := next (f_w fl) rest in
          (f_trace fl ++ tr, e)
      end
  end.

(** The [for] loop of [loop].  [iteratorFunc k] is the iterator the
    [k]-th call of [w.iteratorFunc] returns, [calls] the number of calls
    made so far. *)
Fixpoint loop_for (fuel : nat) (iteratorFunc : nat -> Iterator) (calls : nat)
    (w : Watcher) (script : list choice) : list obs * ending :=
  match fuel with
  | O => ([], OutOfFuel)
  | S fuel =>
      if needSync w then
        match sync w (iteratorFunc calls) with
        | Panic p => ([], Panicked p)
        | Done res =>
            match r_err res with
            | Some err =>
                if bool_decide (Cause err = cappedPositionLostError)
                then ([], Returned ErrRestartAgent)
                else ([], Returned (Traced err))
            | None =>
                select_step (loop_for fuel iteratorFunc (S calls))
                            (flush (r_w res) script)
            end
        end
      else select_step (loop_for fuel iteratorFunc calls) (mkFlushed FlushDone w script [])
  end.

(** [initLastId]: [latest] is what reading the most recent log entry
    gives: an error, nothing ([mgo.ErrNotFound]), or the entry's id. *)
Definition initLastId (w : Watcher) (latest : error + option elem_value)
    : error + Watcher :=
  match latest with
  | inl err => inl (Traced err)
  | inr None => inr (set_lastId w (EVal VNil))
  | inr (Some id) => inr (set_lastId w id)
  end.

(** [loop], on a script of [select] choices.  Every iteration of the
    [for] loop consumes a choice, so the fuel given is never used up
    (lemma [loop_fuel] below). *)
Definition loop (iteratorFunc : nat -> Iterator) (latest : error + option elem_value)
    (w : Watcher) (script : list choice) : list obs * ending :=
  match initLastId (set_needSync w true) latest with
  | inl err => ([], Returned err)
  | inr w' => loop_for (S (length script)) iteratorFunc 0 w' script
  end.

(** The watcher [newWatcher] builds, and the function its tomb runs:
    the loop's error is unwrapped to its cause. *)
Definition emptyWatcher : Watcher := mkWatcher ∅ false [] [] (EVal VNil).

Definition newWatcher (iteratorFunc : nat -> Iterator) (latest : error + option elem_value)
    (script : list choice) : list obs * ending :=
  match loop iteratorFunc latest emptyWatcher script with
  | (tr, Returned err) => (tr, Returned (Cause err))
  | other => other
  end.

(** [Wait], once the tomb's function has returned [err]: the tomb's
    reason.  A return of [tomb.ErrDying] leaves the reason [Kill] gave,
    which is nil for [Watcher.Kill]; any other error becomes the
    reason, whether or not [Kill(nil)] came first. *)
Definition Wait (err : error) : option error :=
  if bool_decide (err = ErrDying) then None else Some err.

(** * Vocabulary of the properties *)

(** ** The registry *)

(** [ch] is registered under [key]. *)
Definition is_registered (w : Watcher) (key : watchKey) (ch : option chan) : bool :=
  existsb (has_ch ch) (watches_of w key).

(** Number of entries [(key, ch)] in the registry. *)
Definition registrations (w : Watcher) (key : watchKey) (ch : option chan) : nat :=
  length (List.filter (has_ch ch) (watches_of w key)).

(** The registry invariant of the data model: at most one entry per
    (key, channel) pair. *)
Definition registry_inv (w : Watcher) : Prop :=
  forall key ch, (registrations w key ch <= 1)%nat.

(** Number of occurrences of [id] in [ids]. *)
Definition occurrences (id : ival) (ids : list ival) : nat :=
  length (List.filter (fun x => bool_decide (x = id)) ids).

(** ** The changes of a pass *)

(** The candidate changes a pass visits, read off the log alone: the
    functions below walk the log exactly as [sync_row], [sync_rows],
    [sync_collection] and [sync_entries] do, and collect the pairs
    (key, normalised revno) for which [sync_row] calls [notify]. *)
Definition changes_row (cname : string) (di ri : ival) (seen : gset watchKey)
    : gset watchKey * list (watchKey * Z) :=
  let key := mkKey cname di in
  if bool_decide (key ∈ seen) then (seen, [])
  else ({[key]} ∪ seen,
        match ri with VInt64 revno => [(key, normalize revno)] | _ => [] end).

Fixpoint changes_rows (cname : string) (d r : list ival) (n : nat) (seen : gset watchKey)
    : gset watchKey * list (watchKey * Z) :=
  match n with
  | O => (seen, [])
  | S i =>
      match d !! i, r !! i with
      | Some di, Some ri =>
          let '(seen1, cs1) := changes_row cname di ri seen in
          let '(seen2, cs2) := changes_rows cname d r i seen1 in
          (seen2, cs1 ++ cs2)
      | _, _ => (seen, [])
      end
  end.

Definition changes_collection (seen : gset watchKey) (c : DocElem)
    : gset watchKey * list (watchKey * Z) :=
  let '(d, r) := decode_batch (Value c) in
  if (length d =? 0)%nat || negb (length d =? length r)%nat then (seen, [])
  else changes_rows (Name c) d r (length d) seen.

Fixpoint changes_collections (seen : gset watchKey) (cs : list DocElem)
    : gset watchKey * list (watchKey * Z) :=
  match cs with
  | [] => (seen, [])
  | c :: rest =>
      let '(seen1, cs1) := changes_collection seen c in
      let '(seen2, cs2) := changes_collections seen1 rest in
      (seen2, cs1 ++ cs2)
  end.

Fixpoint changes_entries (entries : list bsonD) (lastId : elem_value)
    (seen : gset watchKey) : list (watchKey * Z) :=
  match entries with
  | [] => []
  | entry :: rest =>
      match entry with
      | [] => []
      | id :: cs =>
          if negb (String.eqb (Name id) "_id") then []
          else match iface_eq (Value id) lastId with
               | Done false =>
                   let '(seen1, cs1) := changes_collections seen cs in
                   cs1 ++ changes_entries rest lastId seen1
               | _ => []
               end
      end
  end.

Definition pass_changes (w : Watcher) (it : Iterator) : list (watchKey * Z) :=
  changes_entries (docs it) (lastId w) ∅.

(** Notifying a list of changes in order. *)
Definition notify_all (cs : list (watchKey * Z)) (w : Watcher) : Watcher :=
  fold_left (fun w c => notify c.1 c.2 w) cs w.

(** What the walk over one batch, one entry or the whole log
    guarantees of the changes [cs] it collects, going from the set
    [seen] to the set [seen']. *)
Definition fresh_changes (seen : gset watchKey) (r : gset watchKey * list (watchKey * Z))
    : Prop :=
  NoDup (r.2).*1 /\ (forall k, k ∈ (r.2).*1 -> (k ∉ seen) /\ (k ∈ r.1)) /\ (seen ⊆ r.1).

(** ** Notification of one change *)

(** The filter of a collection-wide entry lets the document through. *)
Definition accepts (id : ival) (info : watchInfo) : bool :=
  match i_filter info with Some f => f id | None => true end.

(** The event queued for entry [info] on a change of [key] to [revno]. *)
Definition event_for (key : watchKey) (revno : Z) (info : watchInfo) : event :=
  mkEvent (i_ch info) key revno.

(** A per-document entry after a change to [revno] has been looked at. *)
Definition observe_revno (revno : Z) (info : watchInfo) : watchInfo :=
  if doc_notify revno info then mkInfo (i_ch info) revno (i_filter info) else info.

(** ** Sample logs *)

(** A log entry with one delta batch: ids [d] and revnos [r] of
    collection [c]. *)
Definition log_entry (oid : Z) (c : string) (d r : list ival) : bsonD :=
  [mkElem "_id" (EVal (VInt64 oid)); mkElem c (EDoc [("d", FArr d); ("r", FArr r)])].

(** Document [m0] of [machines] reaches revno 3, is then removed
    (revno -5), and the log later shows further negative revnos. *)
Definition deletion_log (call : nat) : Iterator :=
  let m0 := [VString "m0"] in
  let e1 := log_entry 1 "machines" m0 [VInt64 3] in
  let e2 := log_entry 2 "machines" m0 [VInt64 (-5)] in
  let e3 := log_entry 3 "machines" m0 [VInt64 (-7)] in
  let e4 := log_entry 4 "machines" m0 [VInt64 (-9)] in
  match call with
  | 0%nat => mkIter [] None
  | 1%nat => mkIter [e1] None
  | 2%nat => mkIter [e2; e1] None
  | 3%nat => mkIter [e3; e2; e1] None
  | _ => mkIter [e4; e3; e2; e1] None
  end.

Definition watch_m0 (ch : chan) : request :=
  reqWatch (mkKey "machines" (VString "m0")) (mkInfo (Some ch) (-2) None).

(** Register the watch, then four timer ticks, the subscriber being
    ready to receive after each. *)
Definition deletion_script : list choice :=
  [Request (watch_m0 7%nat); Tick; Receive; Tick; Receive; Tick; Receive; Tick; Receive].

(** The events one change adds to the sync queue, given the registry
    [w] the pass started from: first those of the collection-wide
    entries whose filter lets the document through, then those of the
    entries on the document itself that [doc_notify] selects. *)
Definition change_events (w : Watcher) (c : watchKey * Z) : list event :=
  (event_for c.1 c.2 <$>
     List.filter (accepts (k_id c.1)) (watches_of w (mkKey (k_c c.1) VNil))) ++
  (event_for c.1 c.2 <$> List.filter (doc_notify c.2) (watches_of w c.1)).

(** Channel and filter of every entry, in order: what a pass never
    changes. *)
Definition subscribers (infos : list watchInfo)
    : list (option chan * option (ival -> bool)) :=
  (fun info => (i_ch info, i_filter info)) <$> infos.

(** An event on channel [ch] about a document of collection [c]. *)
Definition event_on (ch : option chan) (c : string) (e : event) : bool :=
  bool_decide (e_ch e = ch) && bool_decide (k_c (e_key e) = c).

Definition in_collection (c : string) (x : watchKey * Z) : bool :=
  bool_decide (k_c x.1 = c).

(** The sample log of the spec: one entry, collection [machines],
    ids [m0; m1], revnos [1; 2]. *)
Definition machines_log : Iterator :=
  mkIter [log_entry 1 "machines" [VString "m0"; VString "m1"] [VInt64 1; VInt64 2]] None.

(** A watcher whose only subscription is a collection-wide watch of
    [machines] on channel 7, without filter. *)
Definition machines_watcher : Watcher :=
  mkWatcher {[mkKey "machines" VNil := [mkInfo (Some 7%nat) 0 None]]} true [] [] (EVal VNil).

(** ** Failures *)

(** Two states of a pass that differ at most in the warnings logged. *)
Definition same_but_log (st st' : syncState) : Prop :=
  s_w st = s_w st' /\ s_seen st = s_seen st'.

(** Two walks over the log that end alike. *)
Definition same_states (o o' : outcome syncState) : Prop :=
  match o, o' with
  | Done st, Done st' => same_but_log st st'
  | Panic p, Panic p' => p = p'
  | _, _ => False
  end.

(** Two passes that end alike: the same panic, or the same watcher and
    the same error. *)
Definition same_result (o o' : outcome syncResult) : Prop :=
  match o, o' with
  | Done res, Done res' => r_w res = r_w res' /\ r_err res = r_err res'
  | Panic p, Panic p' => p = p'
  | _, _ => False
  end.

(** The position-lost condition [sync] tests on the error of
    [iter.Close]: a query error with code 136 or with
    ["CappedPositionLost"] in its message. *)
Definition position_lost (err : error) : bool :=
  match err with
  | QueryError code message => (code =? 136) || contains message "CappedPositionLost"
  | _ => false
  end.

(** The errors an iterator reports: those of the database driver, none
    of the watcher's own sentinels or wrappers. *)
Definition iterator_error (err : error) : bool :=
  match err with
  | QueryError _ _ | OtherError _ => true
  | _ => false
  end.

(** A delta batch with two ids and one revno. *)
Definition malformed_batch : DocElem :=
  mkElem "machines" (EDoc [("d", FArr [VString "m0"; VString "m1"]); ("r", FArr [VInt64 1])]).

(** An iterator that fails with the server's position-lost error. *)
Definition overflown_log (call : nat) : Iterator :=
  mkIter [] (Some (QueryError 136 "CappedPositionLost: CollectionScan died")).

(** ** Delivery *)

(** What sending the events of a queue, in order, puts on the
    channels: events whose channel is nil are passed over. *)
Definition sends (q : list event) : list obs :=
  omap (fun e => (fun ch => Sent ch (change_of e)) <$> e_ch e) q.

Definition is_sent (o : obs) : bool :=
  match o with Sent _ _ => true | Handled _ _ => false end.

(** The changes sent, out of everything observed. *)
Definition sent (tr : list obs) : list obs := List.filter is_sent tr.

(** [e'] is [e], or [e] with its channel cleared. *)
Definition dim (e' e : event) : Prop :=
  e' = e \/ e' = mkEvent None (e_key e) (e_revno e).

(** A queue after some of its events had their channel cleared. *)
Definition dimmed (q' q : list event) : Prop := Forall2 dim q' q.

(** The events of one position of a queue. *)
Definition at_index (q : list event) (i : nat) : list event :=
  match q !! i with Some e => [e] | None => [] end.

(** Number of events of a queue that still have a channel. *)
Definition live (q : list event) : nat :=
  length (List.filter (fun e => bool_decide (e_ch e ≠ None)) q).

(** Three events queued by a pass (newest change first) and one in the
    request queue. *)
Definition sample_queues : Watcher :=
  mkWatcher ∅ false
    [mkEvent (Some 1%nat) (mkKey "machines" (VString "m2")) 9;
     mkEvent None (mkKey "machines" (VString "m1")) 4;
     mkEvent (Some 2%nat) (mkKey "machines" (VString "m0")) 3]
    [mkEvent (Some 1%nat) (mkKey "units" (VString "u0")) 1]
    (EVal VNil).

(** The watcher with both queues emptied, as [flush] leaves it. *)
Definition cleared (w : Watcher) : Watcher :=
  set_requestEvents (set_syncEvents w []) [].

(** A pass over two log entries: the older changed [m0], the newer
    [m1]; a collection-wide watch on channel 7 was registered before. *)
Definition two_entries_log (call : nat) : Iterator :=
  match call with
  | 0%nat => mkIter [] None
  | _ => mkIter [log_entry 2 "machines" [VString "m1"] [VInt64 5];
                 log_entry 1 "machines" [VString "m0"] [VInt64 4]] None
  end.

(** A watcher with a watch of document [m0] on channel 7 and an event
    for it still in the sync queue. *)
Definition pending_m0 : Watcher :=
  mkWatcher {[mkKey "machines" (VString "m0") := [mkInfo (Some 7%nat) 3 None]]} false
    [mkEvent (Some 7%nat) (mkKey "machines" (VString "m0")) 3] [] (EVal VNil).

(** ** Delivery to a document watch *)

(** A change of document [K] sent on channel [ch]. *)
Definition concerns (K : watchKey) (ch : chan) (ch' : chan) (c : Change) : bool :=
  bool_decide (ch' = ch) && bool_decide (mkKey (C c) (Id c) = K).

(** The revnos of the changes of [K] sent on [ch], in order. *)
Definition revnos_sent (K : watchKey) (ch : chan) (tr : list obs) : list Z :=
  omap (fun o => match o with
                 | Sent ch' c => if concerns K ch ch' c then Some (Revno c) else None
                 | Handled _ _ => None
                 end) tr.

(** The sequence of revnos the specification allows one document watch
    to receive, in its words: non-decreasing, except that a single -1
    may come after any non-negative value, and nothing follows a -1. *)
Definition claimed_sequence (l : list Z) : Prop :=
  exists l1, (l = l1 \/ l = l1 ++ [-1]) /\ Sorted Z.le l1 /\ Forall (fun r => 0 <= r) l1.

(** What the code guarantees of two revnos sent one after the other:
    the later is greater, or it is -1 and the earlier is not negative. *)
Definition step_ok (p r : Z) : bool :=
  (p <? r) || ((r =? -1) && (0 <=? p)).

(** How far a watch of [K] on [ch] registered by [reqWatch] has got:
    [None] when no such registration is in force, [Some None] when it
    is and nothing was sent yet, [Some (Some p)] when the last revno
    sent is [p]. *)
Definition watch_state : Type := option (option Z).

Definition next_state (K : watchKey) (ch : chan) (m : watch_state) (o : obs)
    : watch_state :=
  match o with
  | Sent ch' c =>
      if concerns K ch ch' c
      then match m with Some _ => Some (Some (Revno c)) | None => None end
      else m
  | Handled (reqWatch key info) _ =>
      if bool_decide (key = K) && bool_decide (i_ch info = Some ch) then Some None else m
  | Handled (reqUnwatch key ch') _ =>
      if bool_decide (key = K) && bool_decide (ch' = Some ch) then None else m
  | Handled _ _ => m
  end.

Definition allowed (K : watchKey) (ch : chan) (m : watch_state) (o : obs) : bool :=
  match o, m with
  | Sent ch' c, Some (Some p) => if concerns K ch ch' c then step_ok p (Revno c) else true
  | _, _ => true
  end.

(** Every change of [K] sent on [ch] while a registration by [reqWatch]
    is in force stands in [step_ok] to the one sent before it under the
    same registration. *)
Fixpoint in_order (K : watchKey) (ch : chan) (m : watch_state) (tr : list obs) : bool :=
  match tr with
  | [] => true
  | o :: tr' => allowed K ch m o && in_order K ch (next_state K ch m o) tr'
  end.

(** The state of the watch after a trace. *)
Definition state_after (K : watchKey) (ch : chan) (m : watch_state) (tr : list obs)
    : watch_state :=
  fold_left (next_state K ch) tr m.

(** The request does not register [ch] on the whole collection [c]. *)
Definition collection_free (c : string) (ch : chan) (r : request) : bool :=
  match r with
  | reqWatch key info =>
      negb (bool_decide (key = mkKey c VNil) && bool_decide (i_ch info = Some ch))
  | reqWatchMulti c' ids ch' =>
      negb (bool_decide (c' = c) && bool_decide (ch' = Some ch) &&
            bool_decide (VNil ∈ ids))
  | _ => true
  end.

(** The tomb is not dying during the script, and no request of the
    script registers [ch] on the whole collection [c]. *)
Definition script_ok (c : string) (ch : chan) (script : list choice) : bool :=
  forallb (fun x => match x with
                    | Dying => false
                    | Request r => collection_free c ch r
                    | _ => true
                    end) script.

(** Document [m0] reaches revno 3, is removed (revno -4), and is
    created again (revno 5). *)
Definition recreation_log (call : nat) : Iterator :=
  let m0 := [VString "m0"] in
  let e1 := log_entry 1 "machines" m0 [VInt64 3] in
  let e2 := log_entry 2 "machines" m0 [VInt64 (-4)] in
  let e3 := log_entry 3 "machines" m0 [VInt64 5] in
  match call with
  | 0%nat => mkIter [] None
  | 1%nat => mkIter [e1] None
  | 2%nat => mkIter [e2; e1] None
  | _ => mkIter [e3; e2; e1] None
  end.

Definition recreation_script : list choice :=
  [Request (watch_m0 7%nat); Tick; Receive; Tick; Receive; Tick; Receive].

(** A queued event of document [K] for channel [ch]. *)
Definition for_pair (K : watchKey) (ch : chan) (e : event) : bool :=
  bool_decide (e_ch e = Some ch) && bool_decide (e_key e = K).

(** The events for the pair among the first [n] of the sync queue:
    [flush] delivers from the end, so these are the ones still to be
    sent when it stands at index [n]. *)
Definition pending (K : watchKey) (ch : chan) (n : nat) (w : Watcher) : list event :=
  List.filter (for_pair K ch) (take n (syncEvents w)).

(** The registry entries of the pair. *)
Definition entries_of (K : watchKey) (ch : chan) (w : Watcher) : list watchInfo :=
  List.filter (has_ch (Some ch)) (watches_of w K).

(** The invariant that ties the watcher to the state [m] of a watch of
    document [K] on channel [ch], while [flush] stands at index [n] of
    the sync queue: the request queue is empty; [ch] is not registered
    on the collection of [K]; an event for the pair is pending only if
    the pair is registered; and while a registration by [reqWatch] is in
    force the pair has one entry, and either nothing is pending and the
    entry's revno is the last one sent, or one event is pending, carries
    the entry's revno, and may follow the last one sent. *)
Definition tracked (K : watchKey) (ch : chan) (m : watch_state) (w : Watcher) (n : nat)
    : Prop :=
  requestEvents w = [] /\
  entries_of (mkKey (k_c K) VNil) ch w = [] /\
  (entries_of K ch w = [] -> pending K ch n w = []) /\
  match m with
  | None => True
  | Some last =>
      exists info, entries_of K ch w = [info] /\
        ((pending K ch n w = [] /\ (last = None \/ last = Some (i_revno info))) \/
         (exists e, pending K ch n w = [e] /\ e_revno e = i_revno info /\
            match last with
            | None => True
            | Some p => step_ok p (e_revno e) = true
            end))
  end.

(** What the loop guarantees, for the watch of [K] on [ch], from a
    state between two flushes. *)
Definition loop_ok (c : string) (K : watchKey) (ch : chan)
    (next : Watcher -> list choice -> list obs * ending) : Prop :=
  forall m w script,
    tracked K ch m w 0 -> syncEvents w = [] -> script_ok c ch script = true ->
    in_order K ch m (next w script).1 = true.

(** Document [m0] at revno 3, then at revno 5. *)
Definition two_revnos_log (call : nat) : Iterator :=
  let m0 := [VString "m0"] in
  let e1 := log_entry 1 "machines" m0 [VInt64 3] in
  let e2 := log_entry 2 "machines" m0 [VInt64 5] in
  match call with
  | 0%nat => mkIter [] None
  | 1%nat => mkIter [e1] None
  | _ => mkIter [e2; e1] None
  end.

(** * Vocabulary of the further properties *)

(** A watcher where channel 7 watches both document [m0] and the whole
    collection [machines], with one event of each watch queued for a
    change of [m0] to revno 3. *)
Definition shared_channel_watcher : Watcher :=
  mkWatcher
    {[mkKey "machines" (VString "m0") := [mkInfo (Some 7%nat) 3 None];
      mkKey "machines" VNil := [mkInfo (Some 7%nat) 0 None]]}
    false
    [mkEvent (Some 7%nat) (mkKey "machines" (VString "m0")) 3;
     mkEvent (Some 7%nat) (mkKey "machines" (VString "m0")) 3]
    [] (EVal VNil).

(** The cursor after a pass over the entries [entries] that returned:
    the id of the newest entry, or the old cursor when the log gave
    nothing. *)
Definition newest_id (entries : list bsonD) (old : elem_value) : elem_value :=
  match entries with
  | (id :: _) :: _ => Value id
  | _ => old
  end.




(** The first choice of the script stops the delivery of any event
    that still has a channel, with status [st] and the script [s']
    left. *)
Definition stops_delivery (s : list choice) (st : flush_status) (s' : list choice) : Prop :=
  st ≠ FlushDone /\
  forall q i w e ch, q w !! i = Some e -> e_ch e = Some ch ->
    deliver q i w s = mkFlushed st w s' [].


(** A monitor of what a watcher is observed to do: [ok m o] says that
    observation [o] is allowed in monitor state [m], and [step m o] is
    the state after it.  [accepted] runs the monitor over a trace. *)
Fixpoint accepted {M : Type} (step : M -> obs -> M) (ok : M -> obs -> Prop)
    (m : M) (tr : list obs) : Prop :=
  match tr with
  | [] => True
  | o :: tr' => ok m o /\ accepted step ok (step m o) tr'
  end.

(** A flush whose observations the monitor accepts and which leaves
    the watcher in a state that [P] relates to the monitor's. *)
Definition flushed_acc {M : Type} (P : M -> Watcher -> Prop) (step : M -> obs -> M)
    (ok : M -> obs -> Prop) (m : M) (r : flushed) : Prop :=
  accepted step ok m (f_trace r) /\ P (fold_left step (f_trace r) m) (f_w r).

(** A change that is sent carries a document revision or -1, never the
    -2 a new per-document registration starts with. *)
Definition real_revno (o : obs) : Prop :=
  match o with
  | Sent _ c => -1 <= Revno c
  | Handled _ _ => True
  end.

Definition queued_revnos (w : Watcher) : Prop :=
  Forall (fun e => -1 <= e_revno e) (syncEvents w) /\
  Forall (fun e => -1 <= e_revno e) (requestEvents w).

(** The registrations in force, as the requests handled so far imply
    them: how many times each channel is registered under each key.  A
    [reqWatch] adds one registration, a [reqUnwatch] takes one away, and
    a [reqWatchMulti] that is not refused adds one for every occurrence
    of an id. *)
Definition counts : Type := watchKey -> option chan -> nat.

Definition count_step (m : counts) (o : obs) : counts :=
  match o with
  | Handled (reqWatch key info) _ =>
      fun k c => (m k c + if bool_decide (k = key /\ c = i_ch info) then 1 else 0)%nat
  | Handled (reqUnwatch key ch) _ =>
      fun k c => (m k c - if bool_decide (k = key /\ c = ch) then 1 else 0)%nat
  | Handled (reqWatchMulti collection ids ch) None =>
      fun k c => (m k c + if bool_decide (k_c k = collection /\ c = ch)
                          then occurrences (k_id k) ids else 0)%nat
  | _ => m
  end.

(** A change is sent on a channel registered for the changed document
    or for its whole collection. *)
Definition watched (m : counts) (o : obs) : Prop :=
  match o with
  | Sent ch c =>
      (0 < m (mkKey (C c) (Id c)) (Some ch) + m (mkKey (C c) VNil) (Some ch))%nat
  | Handled _ _ => True
  end.

(** The monitor's counts are those of the registry, and every queued
    event that still has a channel is for a registered channel. *)
Definition counted (m : counts) (w : Watcher) : Prop :=
  (forall k c, m k c = registrations w k c) /\
  (forall e ch, e ∈ syncEvents w ++ requestEvents w -> e_ch e = Some ch ->
     (0 < registrations w (e_key e) (Some ch) +
          registrations w (mkKey (k_c (e_key e)) VNil) (Some ch))%nat).

(** The requests the public API builds for documents, and those it
    builds for whole collections. *)
Definition document_request (r : request) : Prop :=
  (exists c id ch, Watch c id ch = Some r) \/
  (exists c ids ch, WatchMulti c ids ch = inr r) \/
  (exists c id ch, Unwatch c id ch = Some r).

Definition collection_request (r : request) : Prop :=
  (exists c ch filter, WatchCollectionWithFilter c ch filter = r) \/
  (exists c ch, UnwatchCollection c ch = r).
(** * Properties *)

(** ** The registry: [reqWatch] and [reqWatchMulti] *)

Lemma is_registered_registrations w key ch :
  is_registered w key ch = false <-> registrations w key ch = 0%nat.
Proof.
  unfold is_registered, registrations.
  induction (watches_of w key) as [|info l IH]; simpl; [done|].
  destruct (has_ch ch info); simpl; [|done].
  split; intros; discriminate.
Qed.

Lemma multi_conflict_none w c ids ch :
  multi_conflict w c ids ch = None <->
  forall id, id ∈ ids -> is_registered w (mkKey c id) ch = false.
Proof.
  induction ids as [|id ids IH]; simpl.
  - split; [|done]. intros _ id Hid. by apply elem_of_nil in Hid.
  - fold (is_registered w (mkKey c id) ch).
    destruct (is_registered w (mkKey c id) ch) eqn:E.
    + split; [done|]. intros H. specialize (H id). rewrite E in H.
      by discriminate H; left.
    + rewrite IH. split.
      * intros H x Hx. apply elem_of_cons in Hx as [->|Hx]; auto.
      * intros H x Hx. apply H. by right.
Qed.

Lemma multi_conflict_some w c ids ch key :
  multi_conflict w c ids ch = Some key ->
  k_c key = c /\ k_id key ∈ ids /\ is_registered w key ch = true.
Proof.
  induction ids as [|id ids IH]; simpl; [done|].
  fold (is_registered w (mkKey c id) ch).
  destruct (is_registered w (mkKey c id) ch) eqn:E.
  - intros [= <-]. simpl. split; [done|]. split; [by left|done].
  - intros H. destruct (IH H) as (? & ? & ?). split; [done|]. split; [by right|done].
Qed.

Lemma multi_register_lookup m c ids ch k :
  default [] (multi_register m c ids ch !! k) =
  default [] (m !! k) ++
  replicate (if bool_decide (k_c k = c) then occurrences (k_id k) ids else 0%nat)
            (mkInfo ch (-2) None).
Proof.
  revert m. induction ids as [|id ids IH]; intros m; simpl.
  - unfold occurrences. simpl. case_bool_decide; by rewrite app_nil_r.
  - rewrite IH. unfold occurrences. simpl.
    destruct (decide (mkKey c id = k)) as [<-|Hne].
    + simpl. rewrite lookup_insert_eq. simpl.
      rewrite !bool_decide_eq_true_2 by done. simpl.
      by rewrite <- app_assoc.
    + rewrite lookup_insert_ne by done.
      case_bool_decide as Hc; [|done].
      case_bool_decide as Hid; [|done].
      destruct k as [kc kid]; simpl in *; subst. done.
Qed.

Lemma multi_register_other m c ids ch k :
  (k_c k ≠ c \/ k_id k ∉ ids) -> multi_register m c ids ch !! k = m !! k.
Proof.
  revert m. induction ids as [|id ids IH]; intros m H; simpl; [done|].
  rewrite IH.
  - apply lookup_insert_ne. intros <-. simpl in H.
    destruct H as [H|H]; [done|]. apply H. by left.
  - destruct H as [H|H]; [by left|]. right. intros Hin. apply H. by right.
Qed.

Lemma filter_has_ch_app ch l1 l2 :
  List.filter (has_ch ch) (l1 ++ l2) = List.filter (has_ch ch) l1 ++ List.filter (has_ch ch) l2.
Proof. apply List.filter_app. Qed.

Lemma filter_has_ch_replicate ch n z f :
  List.filter (has_ch ch) (replicate n (mkInfo ch z f)) = replicate n (mkInfo ch z f).
Proof.
  induction n as [|n IH]; simpl; [done|].
  unfold has_ch at 1. simpl. rewrite bool_decide_eq_true_2 by done. by rewrite IH.
Qed.

(** After a successful [reqWatchMulti], every key gains as many entries
    for the channel as its id occurs in the request. *)
Lemma multi_register_registrations w c ids ch k :
  registrations (set_watches w (multi_register (watches w) c ids ch)) k ch =
  (registrations w k ch +
   (if bool_decide (k_c k = c) then occurrences (k_id k) ids else 0))%nat.
Proof.
  unfold registrations, watches_of. simpl.
  rewrite multi_register_lookup, filter_has_ch_app, filter_has_ch_replicate.
  by rewrite length_app, length_replicate.
Qed.

Lemma occurrences_pos id ids : id ∈ ids <-> (0 < occurrences id ids)%nat.
Proof.
  unfold occurrences. induction ids as [|x ids IH]; simpl.
  - split; [intros H; by apply elem_of_nil in H | lia].
  - rewrite elem_of_cons. case_bool_decide; simpl; subst.
    + split; [lia | by left].
    + rewrite <- IH. split; [intros [?|?]; [congruence|done] | by right].
Qed.

(** C5.  [WatchMulti] is all or nothing.  Handling the request never
    panics.  If the channel is already registered for one of the ids, an
    error is sent back and the watcher is left exactly as it was;
    otherwise the channel is registered for every id of the request and
    no other key of the registry changes.  In particular a second request
    for the same channel that overlaps a first successful one fails and
    changes nothing. *)
Theorem WatchMulti_atomic (w : Watcher) (c : string) (ids : list ival) (ch : option chan) :
  (* already registered for some id: an error, and nothing changes *)
  ((exists id, id ∈ ids /\ is_registered w (mkKey c id) ch = true) ->
   exists key, handle w (reqWatchMulti c ids ch) = Done (w, Some (ErrReAdd key ch))) /\
  (* otherwise: registered for every id, nothing else touched *)
  ((forall id, id ∈ ids -> is_registered w (mkKey c id) ch = false) ->
   exists w', handle w (reqWatchMulti c ids ch) = Done (w', None) /\
     (forall id, id ∈ ids -> is_registered w' (mkKey c id) ch = true) /\
     (forall k, k_c k ≠ c \/ k_id k ∉ ids -> watches w' !! k = watches w !! k) /\
     syncEvents w' = syncEvents w /\ requestEvents w' = requestEvents w /\
     (* a second, overlapping request then fails and changes nothing *)
     (forall ids2 id, id ∈ ids -> id ∈ ids2 ->
        exists key, handle w' (reqWatchMulti c ids2 ch) = Done (w', Some (ErrReAdd key ch)))).
Proof.
  assert (Hfail : forall w0 ids0,
    (exists id, id ∈ ids0 /\ is_registered w0 (mkKey c id) ch = true) ->
    exists key, handle w0 (reqWatchMulti c ids0 ch) = Done (w0, Some (ErrReAdd key ch))).
  { intros w0 ids0 (id & Hin & Hreg). simpl.
    destruct (multi_conflict w0 c ids0 ch) as [key|] eqn:E; [by exists key|].
    rewrite multi_conflict_none in E. rewrite (E id Hin) in Hreg. discriminate. }
  split; [apply Hfail|].
  intros Hfree. simpl.
  apply multi_conflict_none in Hfree as Hnone. rewrite Hnone.
  eexists. split; [reflexivity|].
  assert (Hreg : forall id, id ∈ ids ->
    is_registered (set_watches w (multi_register (watches w) c ids ch)) (mkKey c id) ch = true).
  { intros id Hin.
    destruct (is_registered _ (mkKey c id) ch) eqn:E; [done|].
    apply is_registered_registrations in E.
    rewrite multi_register_registrations in E. simpl in E.
    rewrite bool_decide_eq_true_2 in E by done.
    apply occurrences_pos in Hin. lia. }
  split; [exact Hreg|].
  split; [intros k Hk; simpl; by apply multi_register_other|].
  split; [done|]. split; [done|].
  intros ids2 id Hin Hin2. apply Hfail. exists id. split; [done|]. by apply Hreg.
Qed.

Lemma WatchMulti_atomic_witness :
  let ch := Some 1%nat in
  let w := emptyWatcher in
  (forall id, id ∈ [VString "m0"; VString "m1"] ->
     is_registered w (mkKey "machines" id) ch = false) /\
  exists w', handle w (reqWatchMulti "machines" [VString "m0"; VString "m1"] ch)
             = Done (w', None) /\
    exists key, handle w' (reqWatchMulti "machines" [VString "m1"; VString "m2"] ch)
                = Done (w', Some (ErrReAdd key ch)).
Proof.
  intros ch w.
  assert (Hfree : forall id, id ∈ [VString "m0"; VString "m1"] ->
            is_registered w (mkKey "machines" id) ch = false).
  { intros id Hid. reflexivity. }
  split; [exact Hfree|].
  destruct (WatchMulti_atomic w "machines" [VString "m0"; VString "m1"] ch) as [_ H].
  destruct (H Hfree) as (w' & Hw' & _ & _ & _ & _ & Hsecond).
  exists w'. split; [exact Hw'|].
  apply (Hsecond [VString "m1"; VString "m2"] (VString "m1")).
  - right. left.
  - left.
Defined.

(** [reqWatch] keeps the registry invariant: it panics rather than add
    a second entry for a (key, channel) pair. *)
Lemma reqWatch_registry_inv (w w' : Watcher) (key : watchKey) (info : watchInfo)
    (reply : option error) :
  handle w (reqWatch key info) = Done (w', reply) ->
  registry_inv w -> registry_inv w'.
Proof.
  simpl. fold (is_registered w key (i_ch info)).
  destruct (is_registered w key (i_ch info)) eqn:E; [done|].
  intros [= <- <-] Hinv k ch. unfold registrations, watches_of. simpl.
  destruct (decide (key = k)) as [<-|Hne].
  - rewrite lookup_insert_eq. simpl. rewrite filter_has_ch_app, length_app. simpl.
    specialize (Hinv key ch). unfold registrations, watches_of in Hinv.
    unfold has_ch at 2. case_bool_decide as Hch; simpl; [|lia].
    subst ch. apply is_registered_registrations in E.
    unfold registrations, watches_of in E. lia.
  - rewrite lookup_insert_ne by done. apply Hinv.
Qed.

(** C10.  A [reqWatchMulti] whose ids name the same document twice
    succeeds when the channel is not yet registered for any of them, and
    leaves as many entries for the (key, channel) pair as the id occurs
    in the request: the check looks only at the registry as it was.  The
    invariant "at most one entry per (key, channel)" therefore does not
    survive, although [reqWatch] keeps it (lemma
    [reqWatch_registry_inv]). *)
Theorem WatchMulti_duplicate_ids (w : Watcher) (c : string) (ids : list ival)
    (id : ival) (ch : option chan) :
  (forall x, x ∈ ids -> is_registered w (mkKey c x) ch = false) ->
  (2 <= occurrences id ids)%nat ->
  exists w', handle w (reqWatchMulti c ids ch) = Done (w', None) /\
    registrations w' (mkKey c id) ch = occurrences id ids /\
    ~ registry_inv w'.
Proof.
  intros Hfree Hdup. simpl.
  apply multi_conflict_none in Hfree as Hnone. rewrite Hnone.
  eexists. split; [reflexivity|].
  assert (Hn : registrations (set_watches w (multi_register (watches w) c ids ch))
                 (mkKey c id) ch = occurrences id ids).
  { rewrite multi_register_registrations. simpl.
    rewrite bool_decide_eq_true_2 by done.
    assert (Hin : id ∈ ids) by (apply occurrences_pos; lia).
    apply Hfree, is_registered_registrations in Hin. lia. }
  split; [exact Hn|].
  intros Hinv. specialize (Hinv (mkKey c id) ch). lia.
Qed.

Lemma WatchMulti_duplicate_ids_witness :
  registry_inv emptyWatcher /\
  exists w', handle emptyWatcher
               (reqWatchMulti "machines" [VString "m0"; VString "m0"] (Some 1%nat))
             = Done (w', None) /\
    registrations w' (mkKey "machines" (VString "m0")) (Some 1%nat) = 2%nat /\
    ~ registry_inv w'.
Proof.
  split.
  - intros key ch. vm_compute. lia.
  - apply (WatchMulti_duplicate_ids emptyWatcher "machines"
             [VString "m0"; VString "m0"] (VString "m0") (Some 1%nat)).
    + intros x Hx. reflexivity.
    + vm_compute. lia.
Defined.

(** ** A pass notifies the changes of [pass_changes] *)

Lemma notify_all_app cs1 cs2 w :
  notify_all (cs1 ++ cs2) w = notify_all cs2 (notify_all cs1 w).
Proof. apply fold_left_app. Qed.

Lemma sync_row_changes cname di ri st :
  s_w (sync_row cname di ri st) =
    notify_all (changes_row cname di ri (s_seen st)).2 (s_w st) /\
  s_seen (sync_row cname di ri st) = (changes_row cname di ri (s_seen st)).1.
Proof.
  unfold sync_row, changes_row.
  case_bool_decide; [done|]. by destruct ri.
Qed.

Lemma sync_rows_changes cname d r n st :
  s_w (sync_rows cname d r n st) =
    notify_all (changes_rows cname d r n (s_seen st)).2 (s_w st) /\
  s_seen (sync_rows cname d r n st) = (changes_rows cname d r n (s_seen st)).1.
Proof.
  revert st. induction n as [|i IH]; intros st; simpl; [done|].
  destruct (d !! i) as [di|]; [|done].
  destruct (r !! i) as [ri|]; [|done].
  destruct (sync_row_changes cname di ri st) as [Hw Hs].
  destruct (IH (sync_row cname di ri st)) as [Hw' Hs'].
  rewrite Hs in Hw', Hs'. rewrite Hw in Hw'.
  destruct (changes_row cname di ri (s_seen st)) as [seen1 cs1]. simpl in *.
  destruct (changes_rows cname d r i seen1) as [seen2 cs2]. simpl in *.
  by rewrite notify_all_app.
Qed.

Lemma sync_collection_changes st c :
  s_w (sync_collection st c) =
    notify_all (changes_collection (s_seen st) c).2 (s_w st) /\
  s_seen (sync_collection st c) = (changes_collection (s_seen st) c).1.
Proof.
  unfold sync_collection, changes_collection.
  destruct (decode_batch (Value c)) as [d r].
  destruct ((length d =? 0)%nat || negb (length d =? length r)%nat); [done|].
  apply sync_rows_changes.
Qed.

Lemma sync_collections_changes cs st :
  s_w (fold_left sync_collection cs st) =
    notify_all (changes_collections (s_seen st) cs).2 (s_w st) /\
  s_seen (fold_left sync_collection cs st) = (changes_collections (s_seen st) cs).1.
Proof.
  revert st. induction cs as [|c cs IH]; intros st; simpl; [done|].
  destruct (sync_collection_changes st c) as [Hw Hs].
  destruct (IH (sync_collection st c)) as [Hw' Hs'].
  rewrite Hs in Hw', Hs'. rewrite Hw in Hw'.
  destruct (changes_collection (s_seen st) c) as [seen1 cs1]. simpl in *.
  destruct (changes_collections seen1 cs) as [seen2 cs2]. simpl in *.
  by rewrite notify_all_app.
Qed.

(** [notify] touches neither [lastId] nor [needSync]. *)
Lemma notify_set_lastId key revno w v :
  notify key revno (set_lastId w v) = set_lastId (notify key revno w) v.
Proof.
  unfold notify, watches_of. simpl.
  destruct (document_events key revno (default [] (watches w !! key))) as [infos' evts].
  simpl. by destruct (watches w !! key).
Qed.

Lemma notify_all_set_lastId cs w v :
  notify_all cs (set_lastId w v) = set_lastId (notify_all cs w) v.
Proof.
  revert w. induction cs as [|c cs IH]; intros w; simpl; [done|].
  unfold notify_all in *. simpl. by rewrite notify_set_lastId, IH.
Qed.

Lemma set_lastId_twice w v v' : set_lastId (set_lastId w v) v' = set_lastId w v'.
Proof. done. Qed.

Lemma sync_entries_changes entries first lastId0 st st' :
  sync_entries entries first lastId0 st = Done st' ->
  exists v, s_w st' =
    set_lastId (notify_all (changes_entries entries lastId0 (s_seen st)) (s_w st)) v.
Proof.
  revert first st. induction entries as [|entry rest IH]; intros first st; simpl.
  - intros [= <-]. exists (lastId (s_w st)). by destruct (s_w st).
  - destruct entry as [|id cs]; [done|].
    destruct (negb (String.eqb (Name id) "_id")); [done|].
    destruct (iface_eq (Value id) lastId0) as [[|]|]; [| |done].
    + intros [= <-]. destruct first; simpl.
      * by exists (Value id).
      * exists (lastId (s_w st)). by destruct (s_w st).
    + intros H. apply IH in H as [v Hv].
      set (st1 := if first then _ else st) in *.
      destruct (sync_collections_changes cs st1) as [Hw Hs].
      rewrite Hs, Hw in Hv.
      assert (Hseen : s_seen st1 = s_seen st) by (subst st1; by destruct first).
      rewrite Hseen in Hv.
      destruct (changes_collections (s_seen st) cs) as [seen1 cs1]. simpl in *.
      rewrite notify_all_app.
      destruct first; subst st1; simpl in *.
      * exists v. by rewrite Hv, !notify_all_set_lastId, set_lastId_twice.
      * by exists v.
Qed.

Lemma notify_all_set_needSync cs w b :
  notify_all cs (set_needSync w b) = set_needSync (notify_all cs w) b.
Proof.
  revert w. induction cs as [|c cs IH]; intros w; simpl; [done|].
  unfold notify_all in *. simpl. rewrite <- IH. f_equal.
  unfold notify, watches_of. simpl.
  destruct (document_events c.1 c.2 (default [] (watches w !! c.1))) as [infos' evts].
  simpl. by destruct (watches w !! c.1).
Qed.

(** A pass that returns has notified exactly the changes of
    [pass_changes], in order, cleared [needSync], and moved [lastId]. *)
Lemma sync_pass_changes (w : Watcher) (it : Iterator) (res : syncResult) :
  sync w it = Done res ->
  exists v, r_w res =
    set_lastId (set_needSync (notify_all (pass_changes w it) w) false) v.
Proof.
  unfold sync, pass_changes.
  destruct (sync_entries _ _ _ _) as [st|] eqn:E; [|done].
  destruct (close_error it) as [err warn]. intros [= <-]. simpl.
  apply sync_entries_changes in E as [v Hv]. simpl in Hv.
  exists v. by rewrite Hv, notify_all_set_needSync.
Qed.

(** ** At most one change per document and pass *)

Lemma fresh_changes_seq seen seen1 cs1 seen2 cs2 :
  fresh_changes seen (seen1, cs1) -> fresh_changes seen1 (seen2, cs2) ->
  fresh_changes seen (seen2, cs1 ++ cs2).
Proof.
  intros (Hnd1 & Hk1 & Hs1) (Hnd2 & Hk2 & Hs2). simpl in *.
  split; [|split]; simpl.
  - rewrite fmap_app. apply NoDup_app. split; [done|]. split; [|done].
    intros k Hin1 Hin2. apply Hk1 in Hin1 as [_ Hin1]. apply Hk2 in Hin2 as [Hin2 _]. done.
  - intros k. rewrite fmap_app, elem_of_app. intros [Hin|Hin].
    + apply Hk1 in Hin as [? ?]. split; [done|]. by apply Hs2.
    + apply Hk2 in Hin as [? ?]. split; [|done]. intros ?. apply H. by apply Hs1.
  - set_solver.
Qed.

Lemma fresh_changes_nil seen : fresh_changes seen (seen, []).
Proof. split; [constructor|]. split; [|done]. intros k H. by apply elem_of_nil in H. Qed.

Lemma changes_row_seen cname di ri seen :
  (changes_row cname di ri seen).1 = {[mkKey cname di]} ∪ seen.
Proof. unfold changes_row. case_bool_decide; simpl; [set_solver|done]. Qed.

Lemma changes_row_fresh cname di ri seen :
  fresh_changes seen (changes_row cname di ri seen).
Proof.
  unfold changes_row. case_bool_decide; [apply fresh_changes_nil|].
  destruct ri; try (split; [constructor|]; split; [|set_solver];
                    intros k Hk; by apply elem_of_nil in Hk).
  split; simpl; [apply NoDup_singleton|]. split; [|set_solver].
  intros k Hk. apply list_elem_of_singleton in Hk as ->. set_solver.
Qed.

Lemma changes_rows_fresh cname d r n seen :
  fresh_changes seen (changes_rows cname d r n seen).
Proof.
  revert seen. induction n as [|i IH]; intros seen; simpl; [apply fresh_changes_nil|].
  destruct (d !! i) as [di|]; [|apply fresh_changes_nil].
  destruct (r !! i) as [ri|]; [|apply fresh_changes_nil].
  pose proof (changes_row_fresh cname di ri seen) as H1.
  destruct (changes_row cname di ri seen) as [seen1 cs1].
  pose proof (IH seen1) as H2.
  destruct (changes_rows cname d r i seen1) as [seen2 cs2].
  by eapply fresh_changes_seq.
Qed.

Lemma changes_collection_fresh seen c :
  fresh_changes seen (changes_collection seen c).
Proof.
  unfold changes_collection. destruct (decode_batch (Value c)) as [d r].
  destruct (_ || _); [apply fresh_changes_nil | apply changes_rows_fresh].
Qed.

Lemma changes_collections_fresh seen cs :
  fresh_changes seen (changes_collections seen cs).
Proof.
  revert seen. induction cs as [|c cs IH]; intros seen; simpl; [apply fresh_changes_nil|].
  pose proof (changes_collection_fresh seen c) as H1.
  destruct (changes_collection seen c) as [seen1 cs1].
  pose proof (IH seen1) as H2.
  destruct (changes_collections seen1 cs) as [seen2 cs2].
  by eapply fresh_changes_seq.
Qed.

Lemma changes_entries_fresh entries lastId0 seen :
  NoDup (changes_entries entries lastId0 seen).*1 /\
  forall k, k ∈ (changes_entries entries lastId0 seen).*1 -> k ∉ seen.
Proof.
  revert seen. induction entries as [|entry rest IH]; intros seen; simpl.
  - split; [constructor|]. intros k H. by apply elem_of_nil in H.
  - assert (Hnil : NoDup (@nil (watchKey * Z)).*1 /\
                   forall k, k ∈ (@nil (watchKey * Z)).*1 -> k ∉ seen).
    { split; [constructor|]. intros k H. by apply elem_of_nil in H. }
    destruct entry as [|id cs]; [done|].
    destruct (negb _); [done|].
    destruct (iface_eq (Value id) lastId0) as [[|]|]; [done| |done].
    destruct (changes_collections_fresh seen cs) as (Hnd1 & Hk1 & Hs1).
    destruct (changes_collections seen cs) as [seen1 cs1]. simpl in *.
    destruct (IH seen1) as [Hnd2 Hk2].
    rewrite fmap_app. split.
    + apply NoDup_app. split; [done|]. split; [|done].
      intros k Hin1 Hin2. apply Hk1 in Hin1 as [_ Hin1]. by apply Hk2 in Hin2.
    + intros k Hin. apply elem_of_app in Hin as [Hin|Hin].
      * by apply Hk1 in Hin as [? _].
      * apply Hk2 in Hin. intros Hs. apply Hin. by apply Hs1.
Qed.

(** Which changes the walk over the rows [n-1 .. 0] of a batch
    collects: one for each key not seen before, taken from the row of
    highest index that names the document, provided that row's revno is
    an int64. *)
Lemma changes_rows_spec cname d r n seen key z :
  (n <= length d)%nat -> (n <= length r)%nat ->
  (key, z) ∈ (changes_rows cname d r n seen).2 <->
  (key ∉ seen) /\ k_c key = cname /\
  exists i rv, (i < n)%nat /\ d !! i = Some (k_id key) /\
    (forall j, (i < j < n)%nat -> d !! j ≠ Some (k_id key)) /\
    r !! i = Some (VInt64 rv) /\ z = normalize rv.
Proof.
  revert seen. induction n as [|i IH]; intros seen Hd Hr; simpl.
  - split; [intros H; by apply elem_of_nil in H|]. intros (_ & _ & i & rv & Hi & _). lia.
  - destruct (lookup_lt_is_Some_2 d i) as [di Hdi]; [lia|].
    destruct (lookup_lt_is_Some_2 r i) as [ri Hri]; [lia|].
    rewrite Hdi, Hri.
    pose proof (changes_row_seen cname di ri seen) as Hseen1.
    assert (Hrow : forall k v, (k, v) ∈ (changes_row cname di ri seen).2 <->
              k = mkKey cname di /\ (k ∉ seen) /\ exists rv, ri = VInt64 rv /\ v = normalize rv).
    { intros k v. unfold changes_row. case_bool_decide as Hin; simpl.
      - split; [intros H; by apply elem_of_nil in H|]. by intros (-> & ? & _).
      - destruct ri; simpl;
          try (split; [intros H; by apply elem_of_nil in H | by intros (_ & _ & ? & ? & _)]).
        rewrite list_elem_of_singleton. split.
        + intros [= -> ->]. eauto.
        + intros (-> & _ & rv & [= <-] & ->). done. }
    destruct (changes_row cname di ri seen) as [seen1 cs1]. simpl in *.
    specialize (IH seen1 ltac:(lia) ltac:(lia)).
    destruct (changes_rows cname d r i seen1) as [seen2 cs2]. simpl in *.
    rewrite elem_of_app, Hrow, IH. subst seen1. split.
    + intros [(-> & Hns & rv & -> & ->) | (Hns & Hc & i0 & rv & Hi0 & Hd0 & Hlast & Hr0 & ->)].
      * split; [done|]. split; [done|]. exists i, rv. simpl.
        split; [lia|]. split; [done|]. split; [intros j ?; lia|]. done.
      * split; [set_solver|]. split; [done|]. exists i0, rv.
        split; [lia|]. split; [done|]. split; [|done].
        intros j Hj. destruct (decide (j = i)) as [->|]; [|apply Hlast; lia].
        rewrite Hdi. intros [= ->]. apply Hns. destruct key; simpl in *; subst. set_solver.
    + intros (Hns & Hc & i0 & rv & Hi0 & Hd0 & Hlast & Hr0 & ->).
      destruct (decide (i0 = i)) as [->|Hne].
      * left. rewrite Hdi in Hd0. rewrite Hri in Hr0.
        injection Hd0 as ->. injection Hr0 as ->.
        split; [by destruct key; simpl in *; subst|]. split; [done|]. eauto.
      * right. split.
        { assert (key ≠ mkKey cname di); [|set_solver].
          intros ->. simpl in *. apply (Hlast i); [lia|done]. }
        split; [done|]. exists i0, rv. split; [lia|]. split; [done|].
        split; [intros j ?; apply Hlast; lia|done].
Qed.

(** C4.  Within one pass every (collection, id) pair contributes at
    most one candidate change, whatever the number of log entries or
    rows that name it: the keys of the changes the pass notifies are
    pairwise distinct, the pass does nothing else to the registry and
    the queue than notify these changes in order, and within a batch
    (walked from its last row to its first) the change of a document is
    taken from the last row that names it. *)
Theorem one_change_per_document (w : Watcher) (it : Iterator) :
  NoDup (pass_changes w it).*1 /\
  (forall res, sync w it = Done res ->
     exists v, r_w res =
       set_lastId (set_needSync (notify_all (pass_changes w it) w) false) v) /\
  (forall cname d r seen key z, length d = length r ->
     (key, z) ∈ (changes_rows cname d r (length d) seen).2 <->
     (key ∉ seen) /\ k_c key = cname /\
     exists i rv, d !! i = Some (k_id key) /\
       (forall j, (i < j)%nat -> d !! j ≠ Some (k_id key)) /\
       r !! i = Some (VInt64 rv) /\ z = normalize rv).
Proof.
  split; [apply changes_entries_fresh|].
  split; [intros res; apply sync_pass_changes|].
  intros cname d r seen key z Hlen.
  rewrite changes_rows_spec by lia.
  split; intros (Hns & Hc & i & rv & H); (split; [done|]; split; [done|]; exists i, rv).
  - destruct H as (Hi & Hd & Hlast & Hr & ->).
    split; [done|]. split; [|done].
    intros j Hj Hdj. apply lookup_lt_Some in Hdj as Hlt. by apply (Hlast j).
  - destruct H as (Hd & Hlast & Hr & ->).
    apply lookup_lt_Some in Hd as Hlt.
    split; [done|]. split; [done|]. split; [|done].
    intros j Hj. apply Hlast. lia.
Qed.

(** ** What one change does to the registry and the queue *)

Lemma collection_events_spec key revno infos :
  collection_events key revno infos =
  event_for key revno <$> List.filter (accepts (k_id key)) infos.
Proof.
  induction infos as [|info infos IH]; simpl; [done|].
  unfold accepts at 1. destruct (i_filter info) as [f|]; simpl.
  - destruct (f (k_id key)); simpl; by rewrite IH.
  - by rewrite IH.
Qed.

Lemma document_events_spec key revno infos :
  document_events key revno infos =
  (observe_revno revno <$> infos,
   event_for key revno <$> List.filter (doc_notify revno) infos).
Proof.
  induction infos as [|info infos IH]; simpl; [done|].
  rewrite IH. unfold observe_revno. simpl. destruct (doc_notify revno info); reflexivity.
Qed.

Lemma doc_notify_spec revno info :
  doc_notify revno info = true <->
  i_revno info < revno \/ (revno < 0 /\ 0 <= i_revno info).
Proof. unfold doc_notify. rewrite orb_true_iff, andb_true_iff. lia. Qed.

Lemma notify_watches key revno w k :
  watches (notify key revno w) !! k =
  if decide (k = key) then fmap (M := list) (observe_revno revno) <$> watches w !! k
  else watches w !! k.
Proof.
  unfold notify, watches_of. simpl. rewrite document_events_spec.
  destruct (decide (k = key)) as [->|Hne].
  - destruct (watches w !! key) eqn:E; simpl; [by rewrite lookup_insert_eq|done].
  - destruct (watches w !! key) eqn:E; simpl; [by rewrite lookup_insert_ne|done].
Qed.

Lemma notify_watches_of key revno w k :
  watches_of (notify key revno w) k =
  if decide (k = key) then observe_revno revno <$> watches_of w k else watches_of w k.
Proof.
  unfold watches_of. rewrite notify_watches.
  destruct (decide (k = key)); [|done]. by destruct (watches w !! k).
Qed.

Lemma notify_syncEvents key revno w :
  syncEvents (notify key revno w) =
  syncEvents w ++ collection_events key revno (watches_of w (mkKey (k_c key) VNil)) ++
  (event_for key revno <$> List.filter (doc_notify revno) (watches_of w key)).
Proof.
  unfold notify, watches_of. simpl. rewrite document_events_spec.
  destruct (watches w !! key); simpl; by rewrite app_assoc.
Qed.

Lemma notify_requestEvents key revno w :
  requestEvents (notify key revno w) = requestEvents w.
Proof.
  unfold notify, watches_of. simpl. rewrite document_events_spec.
  by destruct (watches w !! key).
Qed.

(** C2.  For a change of document [key] to the normalised [revno],
    the pass looks at every entry registered on exactly that key: the
    entry gets an event and its revno becomes [revno] if and only if
    [revno] exceeds the entry's revno, or [revno] is negative and the
    entry's revno is not.  So a fresh watch that sees revno 3 and then
    revno -5 is sent 3 and then -1, and nothing for later negative
    revnos. *)
Theorem document_watch_notification (key : watchKey) (revno : Z) (w : Watcher) :
  (forall info, doc_notify revno info = true <->
     i_revno info < revno \/ (revno < 0 /\ 0 <= i_revno info)) /\
  (forall cname di rv st, mkKey cname di ∉ s_seen st ->
     s_w (sync_row cname di (VInt64 rv) st) =
     notify (mkKey cname di) (normalize rv) (s_w st)) /\
  watches_of (notify key revno w) key = observe_revno revno <$> watches_of w key /\
  syncEvents (notify key revno w) =
    syncEvents w ++ collection_events key revno (watches_of w (mkKey (k_c key) VNil)) ++
    (event_for key revno <$> List.filter (doc_notify revno) (watches_of w key)) /\
  newWatcher deletion_log (inr None) deletion_script =
    ([Handled (watch_m0 7%nat) None;
      Sent 7%nat (mkChange "machines" (VString "m0") 3);
      Sent 7%nat (mkChange "machines" (VString "m0") (-1))], Blocked).
Proof.
  split; [intros info; apply doc_notify_spec|].
  split.
  { intros cname di rv st Hns. unfold sync_row.
    by rewrite bool_decide_eq_false_2. }
  split.
  { rewrite notify_watches_of. by rewrite decide_True. }
  split; [apply notify_syncEvents|].
  vm_compute. reflexivity.
Qed.

(** ** The events of a whole pass *)

Lemma collection_events_subscribers key revno l1 l2 :
  subscribers l1 = subscribers l2 ->
  collection_events key revno l1 = collection_events key revno l2.
Proof.
  revert l2. induction l1 as [|a l1 IH]; intros [|b l2]; simpl; try done.
  intros [= Hch Hf Hl]. rewrite Hch, Hf, (IH l2 Hl). done.
Qed.

Lemma subscribers_observe revno infos :
  subscribers (observe_revno revno <$> infos) = subscribers infos.
Proof.
  unfold subscribers. rewrite <- list_fmap_compose. apply list_fmap_ext.
  intros i info _. simpl. unfold observe_revno. by destruct (doc_notify revno info).
Qed.

Lemma notify_subscribers key revno w k :
  subscribers (watches_of (notify key revno w) k) = subscribers (watches_of w k).
Proof.
  rewrite notify_watches_of. destruct (decide (k = key)); [|done].
  apply subscribers_observe.
Qed.

Lemma notify_change_events key revno w :
  syncEvents (notify key revno w) = syncEvents w ++ change_events w (key, revno).
Proof. rewrite notify_syncEvents. unfold change_events. simpl. by rewrite collection_events_spec. Qed.

(** A later change of another document finds the entries of its own
    key untouched, and the same subscribers on its collection. *)
Lemma change_events_notify key revno w c :
  c.1 ≠ key -> change_events (notify key revno w) c = change_events w c.
Proof.
  intros Hne. unfold change_events.
  rewrite <- !collection_events_spec.
  rewrite (collection_events_subscribers _ _ _ _ (notify_subscribers key revno w _)).
  rewrite (notify_watches_of key revno w c.1), decide_False by done. done.
Qed.

Lemma flat_map_ext_elem {A B} (f g : A -> list B) (l : list A) :
  (forall x, x ∈ l -> f x = g x) -> flat_map f l = flat_map g l.
Proof.
  induction l as [|a l IH]; intros H; simpl; [done|].
  rewrite (H a) by left. rewrite IH; [done|]. intros x Hx. apply H. by right.
Qed.

(** The state after notifying changes of pairwise distinct documents. *)
Lemma notify_all_spec (cs : list (watchKey * Z)) (w : Watcher) :
  NoDup cs.*1 ->
  syncEvents (notify_all cs w) = syncEvents w ++ flat_map (change_events w) cs /\
  requestEvents (notify_all cs w) = requestEvents w /\
  (forall k, k ∉ cs.*1 -> watches (notify_all cs w) !! k = watches w !! k) /\
  (forall k rv, (k, rv) ∈ cs ->
     watches_of (notify_all cs w) k = observe_revno rv <$> watches_of w k) /\
  (forall k, subscribers (watches_of (notify_all cs w) k) = subscribers (watches_of w k)).
Proof.
  revert w. induction cs as [|[key rv] cs IH]; intros w Hnd; simpl.
  - rewrite app_nil_r. repeat split; try done.
    intros k rv' H. by apply elem_of_nil in H.
  - apply NoDup_cons in Hnd as [Hnotin Hnd].
    destruct (IH (notify key rv w) Hnd) as (He & Hr & Hother & Hsame & Hsub).
    unfold notify_all in *. simpl. split; [|split; [|split; [|split]]].
    + rewrite He, notify_change_events, <- app_assoc. do 2 f_equal.
      apply flat_map_ext_elem. intros c Hc. apply change_events_notify.
      intros Heq. apply Hnotin. rewrite <- Heq. apply list_elem_of_fmap.
      by exists c.
    + by rewrite Hr, notify_requestEvents.
    + intros k Hk. rewrite not_elem_of_cons in Hk. destruct Hk as [Hk1 Hk2].
      rewrite (Hother k Hk2), notify_watches. by rewrite decide_False.
    + intros k rv' Hin. apply elem_of_cons in Hin as [[= -> ->]|Hin].
      * unfold watches_of at 1. rewrite (Hother key Hnotin).
        fold (watches_of (notify key rv w) key).
        rewrite notify_watches_of. by rewrite decide_True.
      * rewrite (Hsame k rv' Hin), notify_watches_of.
        rewrite decide_False; [done|]. intros ->. apply Hnotin.
        apply list_elem_of_fmap. by exists (key, rv').
    + intros k. by rewrite Hsub, notify_subscribers.
Qed.

(** The queue and the registry after a pass that returns. *)
Lemma sync_spec (w : Watcher) (it : Iterator) (res : syncResult) :
  sync w it = Done res ->
  syncEvents (r_w res) = syncEvents w ++ flat_map (change_events w) (pass_changes w it) /\
  requestEvents (r_w res) = requestEvents w /\
  needSync (r_w res) = false /\
  (forall k, k ∉ (pass_changes w it).*1 -> watches (r_w res) !! k = watches w !! k) /\
  (forall k rv, (k, rv) ∈ pass_changes w it ->
     watches_of (r_w res) k = observe_revno rv <$> watches_of w k) /\
  (forall k, subscribers (watches_of (r_w res) k) = subscribers (watches_of w k)).
Proof.
  intros H. apply sync_pass_changes in H as [v ->].
  destruct (notify_all_spec (pass_changes w it) w) as (He & Hr & Ho & Hs & Hsub).
  { apply changes_entries_fresh. }
  simpl. repeat split; done.
Qed.

(** ** Collection-wide watches *)

Lemma filter_event_on_event_for ch c key rv (l : list watchInfo) :
  List.filter (event_on ch c) (event_for key rv <$> l) =
  if bool_decide (k_c key = c) then event_for key rv <$> List.filter (has_ch ch) l else [].
Proof.
  induction l as [|info l IH]; [simpl; by case_bool_decide|].
  rewrite fmap_cons. cbn [List.filter]. rewrite IH.
  unfold event_on at 1. unfold has_ch. simpl.
  destruct (bool_decide (k_c key = c)); [|by rewrite andb_false_r].
  rewrite andb_true_r. by destruct (bool_decide (i_ch info = ch)).
Qed.

Lemma filter_filter_comm {A} (P Q : A -> bool) (l : list A) :
  List.filter P (List.filter Q l) = List.filter Q (List.filter P l).
Proof.
  induction l as [|a l IH]; simpl; [done|].
  destruct (P a) eqn:HP, (Q a) eqn:HQ; simpl; rewrite ?HP, ?HQ, IH; done.
Qed.

Lemma is_registered_filter w key ch :
  is_registered w key ch = false -> List.filter (has_ch ch) (watches_of w key) = [].
Proof.
  unfold is_registered. induction (watches_of w key) as [|info l IH]; simpl; [done|].
  destruct (has_ch ch info); simpl; [done|]. exact IH.
Qed.

(** The events a change queues on channel [ch] for collection [c], when
    [ch] has one collection-wide entry [info] there and none on the
    changed document. *)
Lemma change_events_on w ch c info x :
  List.filter (has_ch ch) (watches_of w (mkKey c VNil)) = [info] ->
  (k_c x.1 = c -> is_registered w x.1 ch = false) ->
  length (List.filter (event_on ch c) (change_events w x)) =
  if in_collection c x && accepts (k_id x.1) info then 1%nat else 0%nat.
Proof.
  intros Hone Hdoc. unfold change_events, in_collection.
  rewrite List.filter_app, length_app, !filter_event_on_event_for.
  case_bool_decide as Hc; simpl; [|done].
  rewrite !filter_filter_comm with (P := has_ch ch).
  rewrite (is_registered_filter _ _ _ (Hdoc Hc)). simpl.
  rewrite Hc, Hone. simpl. by destruct (accepts (k_id x.1) info).
Qed.

Lemma length_filter_flat_map {A B} (P : B -> bool) (f : A -> list B) (g : A -> bool)
    (l : list A) :
  (forall x, x ∈ l -> length (List.filter P (f x)) = if g x then 1%nat else 0%nat) ->
  length (List.filter P (flat_map f l)) = length (List.filter g l).
Proof.
  induction l as [|a l IH]; intros H; simpl; [done|].
  rewrite List.filter_app, length_app, (H a) by left.
  rewrite IH by (intros x Hx; apply H; by right).
  by destruct (g a).
Qed.

(** C3.  For a change of a document of collection [c], the pass
    queues an event for every entry registered on the collection-wide
    key whose filter is nil or accepts the document id, and for no
    other collection-wide entry; the entry's own revno plays no part.
    So an entry on channel [ch] gets, in one pass, exactly one event per
    changed document of [c] that its filter accepts: with no filter, as
    many events as documents of [c] changed.  (The channel is taken not
    to be registered on the changed documents themselves, whose
    per-document entries are notified on top.) *)
Theorem collection_watch_notification (w : Watcher) (it : Iterator) (res : syncResult)
    (c : string) (ch : option chan) (info : watchInfo) :
  sync w it = Done res ->
  List.filter (has_ch ch) (watches_of w (mkKey c VNil)) = [info] ->
  (forall key rv, (key, rv) ∈ pass_changes w it -> k_c key = c ->
     is_registered w key ch = false) ->
  (* one change: the entries notified are those whose filter accepts *)
  (forall key revno infos,
     collection_events key revno infos =
     event_for key revno <$> List.filter (accepts (k_id key)) infos) /\
  (* the revno of the entries is not consulted *)
  (forall key revno infos z,
     collection_events key revno ((fun i => mkInfo (i_ch i) z (i_filter i)) <$> infos) =
     collection_events key revno infos) /\
  (* the whole pass *)
  exists new, syncEvents (r_w res) = syncEvents w ++ new /\
    length (List.filter (event_on ch c) new) =
    length (List.filter (fun x => in_collection c x && accepts (k_id x.1) info)
                        (pass_changes w it)) /\
    (i_filter info = None ->
     length (List.filter (event_on ch c) new) =
     length (List.filter (in_collection c) (pass_changes w it))).
Proof.
  intros Hsync Hone Hdoc.
  split; [intros; apply collection_events_spec|].
  split.
  { intros key revno infos z. apply collection_events_subscribers.
    unfold subscribers. rewrite <- list_fmap_compose. done. }
  destruct (sync_spec w it res Hsync) as (He & _).
  exists (flat_map (change_events w) (pass_changes w it)).
  split; [done|].
  assert (Hcount : length (List.filter (event_on ch c)
                     (flat_map (change_events w) (pass_changes w it))) =
    length (List.filter (fun x => in_collection c x && accepts (k_id x.1) info)
                        (pass_changes w it))).
  { apply length_filter_flat_map. intros [key rv] Hx.
    apply change_events_on; [done|]. simpl. by apply (Hdoc key rv). }
  split; [done|].
  intros Hnil. rewrite Hcount. f_equal. apply List.filter_ext.
  intros x. unfold accepts. rewrite Hnil. apply andb_true_r.
Qed.

Lemma collection_watch_notification_witness :
  exists res new, sync machines_watcher machines_log = Done res /\
    syncEvents (r_w res) = syncEvents machines_watcher ++ new /\
    new = [mkEvent (Some 7%nat) (mkKey "machines" (VString "m1")) 2;
           mkEvent (Some 7%nat) (mkKey "machines" (VString "m0")) 1] /\
    length (List.filter (event_on (Some 7%nat) "machines") new) = 2%nat.
Proof.
  assert (Hcs : pass_changes machines_watcher machines_log =
                [(mkKey "machines" (VString "m1"), 2); (mkKey "machines" (VString "m0"), 1)]).
  { vm_compute. reflexivity. }
  destruct (sync machines_watcher machines_log) as [res|p] eqn:Hs;
    [|vm_compute in Hs; discriminate Hs].
  destruct (collection_watch_notification machines_watcher machines_log res
              "machines" (Some 7%nat) (mkInfo (Some 7%nat) 0 None) Hs)
    as (_ & _ & new & Hnew & _ & Hn).
  - vm_compute. reflexivity.
  - intros key rv Hin _. rewrite Hcs in Hin.
    apply elem_of_cons in Hin as [[= -> ->]|Hin]; [vm_compute; reflexivity|].
    apply elem_of_cons in Hin as [[= -> ->]|Hin]; [vm_compute; reflexivity|].
    by apply elem_of_nil in Hin.
  - exists res, new. split; [reflexivity|]. split; [exact Hnew|].
    split.
    + vm_compute in Hs. injection Hs as <-. simpl in Hnew. by rewrite <- Hnew.
    + rewrite (Hn eq_refl), Hcs. vm_compute. reflexivity.
Defined.

(** ** Malformed batches *)

Lemma same_but_log_refl st : same_but_log st st.
Proof. done. Qed.

Lemma sync_row_same cname di ri st st' :
  same_but_log st st' ->
  same_but_log (sync_row cname di ri st) (sync_row cname di ri st').
Proof.
  intros [Hw Hs]. unfold sync_row. rewrite Hs.
  case_bool_decide; [done|]. destruct ri; simpl; by rewrite ?Hw.
Qed.

Lemma sync_rows_same cname d r n st st' :
  same_but_log st st' ->
  same_but_log (sync_rows cname d r n st) (sync_rows cname d r n st').
Proof.
  revert st st'. induction n as [|i IH]; intros st st' H; simpl; [done|].
  destruct (d !! i); [|done]. destruct (r !! i); [|done].
  by apply IH, sync_row_same.
Qed.

Lemma sync_collection_same c st st' :
  same_but_log st st' ->
  same_but_log (sync_collection st c) (sync_collection st' c).
Proof.
  intros H. unfold sync_collection. destruct (decode_batch (Value c)) as [d r].
  destruct (_ || _); [exact H | by apply sync_rows_same].
Qed.

Lemma sync_collections_same cs st st' :
  same_but_log st st' ->
  same_but_log (fold_left sync_collection cs st) (fold_left sync_collection cs st').
Proof.
  revert st st'. induction cs as [|c cs IH]; intros st st' H; simpl; [done|].
  by apply IH, sync_collection_same.
Qed.

(** A batch whose two sequences differ in length only adds a warning. *)
Lemma sync_collection_malformed st c d r :
  decode_batch (Value c) = (d, r) -> length d ≠ length r ->
  sync_collection st c =
  mkSync (s_w st) (s_seen st) (s_log st ++ [WarnInvalidCollection c]).
Proof.
  intros Hdec Hlen. unfold sync_collection. rewrite Hdec.
  destruct (length d =? 0)%nat; [done|]. simpl.
  destruct (Nat.eqb_spec (length d) (length r)); [done|]. done.
Qed.

Lemma sync_entries_same entries first lastId0 st st' :
  same_but_log st st' ->
  same_states (sync_entries entries first lastId0 st)
              (sync_entries entries first lastId0 st').
Proof.
  revert first st st'. induction entries as [|entry rest IH]; intros first st st' H; simpl.
  - done.
  - destruct entry as [|id cs]; [done|].
    destruct (negb _); [done|].
    assert (H1 : same_but_log
              (if first then mkSync (set_lastId (s_w st) (Value id)) (s_seen st) (s_log st)
               else st)
              (if first then mkSync (set_lastId (s_w st') (Value id)) (s_seen st') (s_log st')
               else st')).
    { destruct first; [|done]. destruct H as [Hw Hs]. split; simpl; by rewrite ?Hw, ?Hs. }
    destruct (iface_eq (Value id) lastId0) as [[|]|]; [done| |done].
    by apply IH, sync_collections_same.
Qed.

(** Dropping a malformed batch from an entry of the log does not
    change how the walk ends. *)
Lemma sync_entries_malformed pre id cs1 c cs2 post d r first lastId0 st st' :
  decode_batch (Value c) = (d, r) -> length d ≠ length r ->
  same_but_log st st' ->
  same_states
    (sync_entries (pre ++ (id :: cs1 ++ c :: cs2) :: post) first lastId0 st)
    (sync_entries (pre ++ (id :: cs1 ++ cs2) :: post) first lastId0 st').
Proof.
  intros Hdec Hlen. revert first st st'.
  induction pre as [|entry pre IH]; intros first st st' H; simpl.
  - destruct (negb _); [done|].
    assert (H1 : same_but_log
              (if first then mkSync (set_lastId (s_w st) (Value id)) (s_seen st) (s_log st)
               else st)
              (if first then mkSync (set_lastId (s_w st') (Value id)) (s_seen st') (s_log st')
               else st')).
    { destruct first; [|done]. destruct H as [Hw Hs]. split; simpl; by rewrite ?Hw, ?Hs. }
    destruct (iface_eq (Value id) lastId0) as [[|]|]; [done| |done].
    apply sync_entries_same. rewrite !fold_left_app. simpl.
    apply sync_collections_same.
    rewrite (sync_collection_malformed _ c d r Hdec Hlen).
    destruct (sync_collections_same cs1 _ _ H1) as [Hw Hs]. by split.
  - destruct entry as [|id0 cs0]; [done|].
    destruct (negb _); [done|].
    assert (H1 : same_but_log
              (if first then mkSync (set_lastId (s_w st) (Value id0)) (s_seen st) (s_log st)
               else st)
              (if first then mkSync (set_lastId (s_w st') (Value id0)) (s_seen st') (s_log st')
               else st')).
    { destruct first; [|done]. destruct H as [Hw Hs]. split; simpl; by rewrite ?Hw, ?Hs. }
    destruct (iface_eq (Value id0) lastId0) as [[|]|]; [done| |done].
    by apply IH, sync_collections_same.
Qed.

(** C8.  A per-collection batch whose id and revno sequences differ
    in length is logged as a warning and skipped: processing it leaves
    the watcher and the seen set as they were, so no event is queued for
    it, and the pass ends exactly as it would had the batch not been in
    the log, with the same watcher and the same error, if any. *)
Theorem malformed_batch_skipped (c : DocElem) (d r : list ival) :
  decode_batch (Value c) = (d, r) -> length d ≠ length r ->
  (forall st, sync_collection st c =
     mkSync (s_w st) (s_seen st) (s_log st ++ [WarnInvalidCollection c])) /\
  (forall w pre id cs1 cs2 post err,
     same_result
       (sync w (mkIter (pre ++ (id :: cs1 ++ c :: cs2) :: post) err))
       (sync w (mkIter (pre ++ (id :: cs1 ++ cs2) :: post) err))).
Proof.
  intros Hdec Hlen.
  split; [intros st; by apply sync_collection_malformed with d r|].
  intros w pre id cs1 cs2 post err. unfold sync. simpl.
  pose proof (sync_entries_malformed pre id cs1 c cs2 post d r true (lastId w)
                (mkSync (set_needSync w false) ∅ []) (mkSync (set_needSync w false) ∅ [])
                Hdec Hlen (same_but_log_refl _)) as H.
  unfold same_states in H.
  destruct (sync_entries (pre ++ _ :: post) true (lastId w) _) as [st1|p1];
  destruct (sync_entries (pre ++ _ :: post) true (lastId w) _) as [st2|p2];
    try done.
  unfold close_error. simpl.
  destruct H as [Hw _].
  destruct err as [[]|]; simpl; try done.
  by destruct (_ || _).
Qed.

Lemma malformed_batch_skipped_witness :
  sync_collection (mkSync machines_watcher ∅ []) malformed_batch =
    mkSync machines_watcher ∅ [WarnInvalidCollection malformed_batch] /\
  same_result
    (sync machines_watcher
       (mkIter [[mkElem "_id" (EVal (VInt64 2)); malformed_batch];
                log_entry 1 "machines" [VString "m0"] [VInt64 1]] None))
    (sync machines_watcher
       (mkIter [[mkElem "_id" (EVal (VInt64 2))];
                log_entry 1 "machines" [VString "m0"] [VInt64 1]] None)).
Proof.
  destruct (malformed_batch_skipped malformed_batch
              [VString "m0"; VString "m1"] [VInt64 1]) as [Hlocal Hpass].
  - reflexivity.
  - simpl. lia.
  - split.
    + exact (Hlocal (mkSync machines_watcher ∅ [])).
    + exact (Hpass machines_watcher [] (mkElem "_id" (EVal (VInt64 2))) [] []
               [log_entry 1 "machines" [VString "m0"] [VInt64 1]] None).
Defined.

(** ** Iteration failures *)

Lemma sync_r_err w it res : sync w it = Done res -> r_err res = (close_error it).1.
Proof.
  unfold sync. destruct (sync_entries _ _ _ _); [|done].
  destruct (close_error it) as [err warn]. by intros [= <-].
Qed.

Lemma close_error_iterator it err :
  closeErr it = Some err -> iterator_error err = true ->
  (close_error it).1 =
  Some (Annotated "watcher iteration error"
          (if position_lost err then cappedPositionLostError else err)).
Proof.
  intros Hc Herr. unfold close_error. rewrite Hc.
  destruct err; try discriminate Herr; simpl; [|done].
  by destruct (_ || _).
Qed.

(** C9.  When a pass ends with an error of the iterator, the loop
    returns without flushing.  If the error is the position-lost
    condition, the loop returns the restart-the-agent error, that error
    is the cause the tomb's function returns, and [Wait] reports it; for
    any other error of the iterator the loop returns the annotated
    error, whose cause, the iterator's own error, is what [Wait]
    reports, and it is not the restart-the-agent error. *)
Theorem iteration_failure_terminates (fuel calls : nat) (iteratorFunc : nat -> Iterator)
    (w : Watcher) (script : list choice) (res : syncResult) (err : error) :
  needSync w = true ->
  sync w (iteratorFunc calls) = Done res ->
  closeErr (iteratorFunc calls) = Some err ->
  iterator_error err = true ->
  let returned := if position_lost err then ErrRestartAgent
                  else Traced (Annotated "watcher iteration error" err) in
  loop_for (S fuel) iteratorFunc calls w script = ([], Returned returned) /\
  Wait (Cause returned) = Some (if position_lost err then ErrRestartAgent else err) /\
  (position_lost err = false -> Cause returned ≠ ErrRestartAgent).
Proof.
  intros Hneed Hsync Hclose Herr returned. subst returned.
  apply sync_r_err in Hsync as Hr.
  rewrite (close_error_iterator _ err Hclose Herr) in Hr.
  split; [|split].
  - simpl. rewrite Hneed, Hsync, Hr. simpl.
    destruct (position_lost err); simpl; [done|].
    rewrite bool_decide_eq_false_2; [done|].
    by destruct err.
  - destruct (position_lost err); simpl; [done|]. by destruct err.
  - intros ->. by destruct err.
Qed.

Lemma iteration_failure_terminates_witness :
  newWatcher overflown_log (inr None) [Tick; Dying] = ([], Returned ErrRestartAgent) /\
  loop_for 3 overflown_log 0 (set_needSync emptyWatcher true) [Tick; Dying] =
    ([], Returned ErrRestartAgent) /\
  Wait (Cause ErrRestartAgent) = Some ErrRestartAgent.
Proof.
  split; [vm_compute; reflexivity|].
  destruct (iteration_failure_terminates 2 0 overflown_log
              (set_needSync emptyWatcher true) [Tick; Dying]
              (mkResult (mkWatcher ∅ false [] [] (EVal VNil))
                 (Some (Annotated "watcher iteration error" cappedPositionLostError))
                 [WarnLogOverflow])
              (QueryError 136 "CappedPositionLost: CollectionScan died"))
    as (Hloop & Hwait & _).
  - reflexivity.
  - vm_compute. reflexivity.
  - reflexivity.
  - reflexivity.
  - split; [exact Hloop | exact Hwait].
Defined.

(** ** The order of delivery *)

Lemma dim_refl e : dim e e.
Proof. by left. Qed.

Lemma dimmed_refl q : dimmed q q.
Proof. apply Forall_Forall2_diag, Forall_forall. intros; apply dim_refl. Qed.

Lemma dim_trans e1 e2 e3 : dim e1 e2 -> dim e2 e3 -> dim e1 e3.
Proof.
  intros [-> | ->] [-> | ->]; simpl; [by left|by right|by right|by right].
Qed.

Lemma dimmed_trans q1 q2 q3 : dimmed q1 q2 -> dimmed q2 q3 -> dimmed q1 q3.
Proof.
  intros H. revert q3. induction H as [|e1 e2 q1 q2 He Hq IH]; intros q3 H3.
  - inversion H3. constructor.
  - inversion H3 as [|? e3 ? q3' He3 Hq3]; subst. constructor.
    + by eapply dim_trans.
    + by apply IH.
Qed.

Lemma purge_dimmed key ch q : dimmed (purge key ch q) q.
Proof.
  unfold purge. induction q as [|e q IH]; simpl; constructor; [|done].
  destruct (_ && _); [by right|by left].
Qed.

(** [handle] never adds an event to a queue, and changes the queued
    events only by clearing channels. *)
Lemma handle_dimmed w r w' reply :
  handle w r = Done (w', reply) ->
  dimmed (syncEvents w') (syncEvents w) /\ dimmed (requestEvents w') (requestEvents w).
Proof.
  destruct r as [|key info|key ch|c ids ch]; simpl.
  - intros [= <- <-]. split; apply dimmed_refl.
  - destruct (existsb _ _); [done|]. intros [= <- <-]. split; apply dimmed_refl.
  - destruct (find_ch _ _); [|done]. intros [= <- <-]. simpl.
    split; apply purge_dimmed.
  - destruct (multi_conflict _ _ _ _); intros [= <- <-]; split; apply dimmed_refl.
Qed.

Lemma sends_dimmed q' q : dimmed q' q -> sends q' `sublist_of` sends q.
Proof.
  induction 1 as [|e' e q' q He Hq IH]; simpl; [done|].
  unfold sends in *. simpl. destruct He as [-> | ->]; simpl.
  - destruct (e_ch e); simpl; [by constructor|done].
  - destruct (e_ch e); simpl; [by constructor|done].
Qed.

Lemma sent_app tr1 tr2 : sent (tr1 ++ tr2) = sent tr1 ++ sent tr2.
Proof. apply List.filter_app. Qed.

Lemma sends_app q1 q2 : sends (q1 ++ q2) = sends q1 ++ sends q2.
Proof. apply omap_app. Qed.

Lemma at_index_dimmed q' q i : dimmed q' q -> dimmed (at_index q' i) (at_index q i).
Proof.
  intros H. unfold at_index.
  destruct (q' !! i) as [e'|] eqn:E'.
  - destruct (Forall2_lookup_l _ _ _ _ _ H E') as (e & -> & He). by constructor.
  - apply lookup_ge_None in E'. rewrite (Forall2_length _ _ _ H) in E'.
    apply lookup_ge_None in E'. rewrite E'. constructor.
Qed.

(** One position of a queue is delivered: at most the event now at
    that position is sent, and the queues only get dimmer. *)
Lemma deliver_spec (q : Watcher -> list event) (i : nat) (w : Watcher)
    (script : list choice) :
  q = syncEvents \/ q = requestEvents ->
  let r := deliver q i w script in
  sent (f_trace r) `sublist_of` sends (at_index (q w) i) /\
  dimmed (syncEvents (f_w r)) (syncEvents w) /\
  dimmed (requestEvents (f_w r)) (requestEvents w).
Proof.
  intros Hq. revert w. induction script as [|ch script IH]; intros w.
  - simpl. destruct (q w !! i) as [e|]; [destruct (e_ch e)|]; simpl;
      (split; [apply sublist_nil_l | split; apply dimmed_refl]).
  - simpl. unfold at_index.
    destruct (q w !! i) as [e|] eqn:Ei;
      [|simpl; split; [apply sublist_nil_l | split; apply dimmed_refl]].
    destruct (e_ch e) as [c|] eqn:Ec;
      [|simpl; split; [apply sublist_nil_l | split; apply dimmed_refl]].
    destruct ch as [| |r|]; simpl.
    + split; [apply sublist_nil_l | split; apply dimmed_refl].
    + specialize (IH w). simpl in IH. unfold at_index in IH. by rewrite Ei in IH.
    + destruct (handle w r) as [[w' reply]|p] eqn:Hh; simpl;
        [|split; [apply sublist_nil_l | split; apply dimmed_refl]].
      destruct (handle_dimmed _ _ _ _ Hh) as [Hs Hr].
      destruct (IH w') as (Hsub & Hs' & Hr').
      split; [|split; eapply dimmed_trans; eauto].
      assert (Hqd : dimmed (q w') (q w)) by (destruct Hq as [-> | ->]; done).
      pose proof (at_index_dimmed _ _ i Hqd) as Hat.
      unfold at_index in Hat at 2. rewrite Ei in Hat.
      apply sends_dimmed in Hat.
      etrans; [exact Hsub|]. exact Hat.
    + split; [|split; apply dimmed_refl].
      unfold sends. simpl. by rewrite Ec.
Qed.

Lemma and_then_trace r k :
  f_status r = FlushDone ->
  f_trace (and_then r k) = f_trace r ++ f_trace (k (f_w r) (f_rest r)) /\
  f_w (and_then r k) = f_w (k (f_w r) (f_rest r)) /\
  f_status (and_then r k) = f_status (k (f_w r) (f_rest r)) /\
  f_rest (and_then r k) = f_rest (k (f_w r) (f_rest r)).
Proof. intros H. unfold and_then. by rewrite H. Qed.

Lemma and_then_stop r k : f_status r ≠ FlushDone -> and_then r k = r.
Proof. intros H. unfold and_then. by destruct (f_status r). Qed.

Lemma reverse_take_S (q : list event) i :
  reverse (take (S i) q) = at_index q i ++ reverse (take i q).
Proof.
  unfold at_index. destruct (q !! i) as [e|] eqn:E.
  - by rewrite (take_S_r _ _ _ E), reverse_snoc.
  - apply lookup_ge_None in E. by rewrite !take_ge by lia.
Qed.

Lemma flush_sync_spec n w script :
  let r := flush_sync n w script in
  sent (f_trace r) `sublist_of` sends (reverse (take n (syncEvents w))) /\
  dimmed (syncEvents (f_w r)) (syncEvents w) /\
  dimmed (requestEvents (f_w r)) (requestEvents w).
Proof.
  revert w script. induction n as [|i IH]; intros w script; simpl.
  - split; [apply sublist_nil_l | split; apply dimmed_refl].
  - destruct (deliver_spec syncEvents i w script (or_introl eq_refl)) as (Hsub & Hs & Hr).
    destruct (decide (f_status (deliver syncEvents i w script) = FlushDone)) as [Hd|Hd].
    + destruct (and_then_trace _ (flush_sync i) Hd) as (-> & -> & _).
      destruct (IH (f_w (deliver syncEvents i w script))
                   (f_rest (deliver syncEvents i w script))) as (Hsub' & Hs' & Hr').
      split; [|split; eapply dimmed_trans; eauto].
      rewrite sent_app, reverse_take_S, sends_app.
      apply sublist_app; [done|]. etrans; [exact Hsub'|].
      apply sends_dimmed, Forall2_reverse, Forall2_take, Hs.
    + rewrite and_then_stop by done. split; [|done].
      etrans; [exact Hsub|]. rewrite reverse_take_S, sends_app. by apply sublist_inserts_r.
Qed.

Lemma drop_at_index (q : list event) i : drop i q = at_index q i ++ drop (S i) q.
Proof.
  unfold at_index. destruct (q !! i) as [e|] eqn:E.
  - by rewrite (drop_S _ _ _ E).
  - apply lookup_ge_None in E. by rewrite !drop_ge by lia.
Qed.

Lemma flush_requests_spec fuel i w script :
  let r := flush_requests fuel i w script in
  sent (f_trace r) `sublist_of` sends (drop i (requestEvents w)) /\
  dimmed (syncEvents (f_w r)) (syncEvents w) /\
  dimmed (requestEvents (f_w r)) (requestEvents w).
Proof.
  revert i w script. induction fuel as [|fuel IH]; intros i w script; simpl.
  - split; [apply sublist_nil_l | split; apply dimmed_refl].
  - destruct (i <? length (requestEvents w))%nat;
      [|simpl; split; [apply sublist_nil_l | split; apply dimmed_refl]].
    destruct (deliver_spec requestEvents i w script (or_intror eq_refl)) as (Hsub & Hs & Hr).
    destruct (decide (f_status (deliver requestEvents i w script) = FlushDone)) as [Hd|Hd].
    + destruct (and_then_trace _ (flush_requests fuel (S i)) Hd) as (-> & -> & _).
      destruct (IH (S i) (f_w (deliver requestEvents i w script))
                   (f_rest (deliver requestEvents i w script))) as (Hsub' & Hs' & Hr').
      split; [|split; eapply dimmed_trans; eauto].
      rewrite sent_app, drop_at_index, sends_app.
      apply sublist_app; [done|]. etrans; [exact Hsub'|].
      apply sends_dimmed, Forall2_drop, Hr.
    + rewrite and_then_stop by done. split; [|done].
      etrans; [exact Hsub|]. rewrite drop_at_index, sends_app. by apply sublist_inserts_r.
Qed.

(** Whatever arrives while it runs, [flush] sends a subsequence of: the
    sync queue from its last event to its first, then the request queue
    from its first event to its last. *)
Lemma flush_sent_sublist w script :
  sent (f_trace (flush w script)) `sublist_of`
  sends (reverse (syncEvents w)) ++ sends (requestEvents w).
Proof.
  unfold flush.
  destruct (flush_sync_spec (length (syncEvents w)) w script) as (Hsub & Hs & Hr).
  rewrite firstn_all in Hsub.
  set (r1 := flush_sync (length (syncEvents w)) w script) in *.
  destruct (decide (f_status r1 = FlushDone)) as [Hd|Hd];
    [|rewrite and_then_stop by done; by apply sublist_inserts_r].
  destruct (and_then_trace r1
    (fun w1 rest1 => and_then (flush_requests (length (requestEvents w1)) 0 w1 rest1)
       (fun w2 rest2 => mkFlushed FlushDone (set_requestEvents (set_syncEvents w2 []) [])
                          rest2 [])) Hd) as (-> & _).
  rewrite sent_app. apply sublist_app; [done|].
  destruct (flush_requests_spec (length (requestEvents (f_w r1))) 0 (f_w r1) (f_rest r1))
    as (Hsub2 & _).
  set (r2 := flush_requests _ 0 (f_w r1) (f_rest r1)) in *.
  assert (Hr2 : sent (f_trace r2) `sublist_of` sends (requestEvents w)).
  { etrans; [exact Hsub2|]. rewrite drop_0. by apply sends_dimmed. }
  destruct (decide (f_status r2 = FlushDone)) as [Hd2|Hd2];
    [|by rewrite and_then_stop by done].
  destruct (and_then_trace r2
    (fun w2 rest2 => mkFlushed FlushDone (set_requestEvents (set_syncEvents w2 []) [])
                       rest2 []) Hd2) as (-> & _).
  simpl. by rewrite app_nil_r.
Qed.

Lemma live_app q1 q2 : live (q1 ++ q2) = (live q1 + live q2)%nat.
Proof. unfold live. by rewrite List.filter_app, length_app. Qed.

Lemma deliver_received q i w n :
  (live (at_index (q w) i) <= n)%nat ->
  deliver q i w (replicate n Receive) =
  mkFlushed FlushDone w (replicate (n - live (at_index (q w) i)) Receive)
            (sends (at_index (q w) i)).
Proof.
  unfold at_index, live, sends. intros Hn.
  destruct n as [|n]; simpl; destruct (q w !! i) as [e|]; simpl in *; try done.
  - destruct (e_ch e); simpl in *; [lia|done].
  - destruct (e_ch e); simpl; [|done]. by rewrite Nat.sub_0_r.
Qed.

Lemma flush_sync_received k w n :
  (live (take k (syncEvents w)) <= n)%nat ->
  flush_sync k w (replicate n Receive) =
  mkFlushed FlushDone w (replicate (n - live (take k (syncEvents w))) Receive)
            (sends (reverse (take k (syncEvents w)))).
Proof.
  revert n. induction k as [|k IH]; intros n Hn; simpl.
  - rewrite take_0. simpl. by rewrite Nat.sub_0_r.
  - assert (Hlive : live (take (S k) (syncEvents w)) =
                    (live (take k (syncEvents w)) + live (at_index (syncEvents w) k))%nat).
    { unfold at_index. destruct (syncEvents w !! k) as [e|] eqn:E.
      - by rewrite (take_S_r _ _ _ E), live_app.
      - apply lookup_ge_None in E. rewrite !take_ge by lia. unfold live at 3. simpl. lia. }
    rewrite Hlive in *.
    rewrite deliver_received by lia. unfold and_then. simpl.
    rewrite IH by lia. simpl.
    rewrite reverse_take_S, sends_app. do 2 f_equal. lia.
Qed.

Lemma flush_requests_received fuel i w n :
  (length (requestEvents w) <= fuel + i)%nat ->
  (live (drop i (requestEvents w)) <= n)%nat ->
  flush_requests fuel i w (replicate n Receive) =
  mkFlushed FlushDone w (replicate (n - live (drop i (requestEvents w))) Receive)
            (sends (drop i (requestEvents w))).
Proof.
  revert i n. induction fuel as [|fuel IH]; intros i n Hlen Hn; simpl.
  - rewrite drop_ge by lia. simpl. by rewrite Nat.sub_0_r.
  - destruct (Nat.ltb_spec i (length (requestEvents w))) as [Hi|Hi].
    + rewrite (drop_at_index (requestEvents w) i), live_app in Hn.
      rewrite deliver_received by lia. unfold and_then. simpl.
      rewrite IH by lia. simpl.
      rewrite (drop_at_index (requestEvents w) i), sends_app, live_app.
      do 2 f_equal. lia.
    + rewrite drop_ge by lia. simpl. by rewrite Nat.sub_0_r.
Qed.

(** With every subscriber ready, [flush] sends the whole sync queue
    from its last event to its first, then the whole request queue from
    its first to its last, and empties both. *)
Lemma flush_received w n :
  (live (syncEvents w) + live (requestEvents w) <= n)%nat ->
  flush w (replicate n Receive) =
  mkFlushed FlushDone (cleared w)
    (replicate (n - (live (syncEvents w) + live (requestEvents w))) Receive)
    (sends (reverse (syncEvents w)) ++ sends (requestEvents w)).
Proof.
  intros Hn. unfold flush.
  rewrite flush_sync_received; rewrite firstn_all; [|lia].
  unfold and_then at 1. simpl.
  rewrite flush_requests_received; rewrite ?drop_0; [|lia|lia].
  unfold and_then. simpl. rewrite app_nil_r. do 2 f_equal. lia.
Qed.

(** C7.  [flush] goes through the sync queue from its last index to
    its first and only then through the request queue, first index
    first: whatever requests arrive meanwhile, the changes it sends are
    a subsequence of the sync queue reversed followed by the request
    queue, and all of it when every subscriber receives.  A pass appends
    its events in the order it meets the changes, newest log entry
    first, so subscribers get the changes of a pass oldest first. *)
Theorem flush_order (w : Watcher) (script : list choice) (n : nat) :
  sent (f_trace (flush w script)) `sublist_of`
    sends (reverse (syncEvents w)) ++ sends (requestEvents w) /\
  ((live (syncEvents w) + live (requestEvents w) <= n)%nat ->
   flush w (replicate n Receive) =
   mkFlushed FlushDone (cleared w)
     (replicate (n - (live (syncEvents w) + live (requestEvents w))) Receive)
     (sends (reverse (syncEvents w)) ++ sends (requestEvents w))) /\
  (forall it res, sync w it = Done res ->
     syncEvents (r_w res) = syncEvents w ++ flat_map (change_events w) (pass_changes w it)) /\
  newWatcher two_entries_log (inr None)
    [Request (WatchCollection "machines" (Some 7%nat)); Tick; Receive; Receive] =
  ([Handled (WatchCollection "machines" (Some 7%nat)) None;
    Sent 7%nat (mkChange "machines" (VString "m0") 4);
    Sent 7%nat (mkChange "machines" (VString "m1") 5)], Blocked).
Proof.
  split; [apply flush_sent_sublist|].
  split; [apply flush_received|].
  split; [intros it res H; by apply sync_spec in H as (? & _)|].
  vm_compute. reflexivity.
Qed.

Lemma flush_order_witness :
  flush sample_queues [Receive; Receive; Receive] =
  mkFlushed FlushDone (cleared sample_queues) []
    [Sent 2%nat (mkChange "machines" (VString "m0") 3);
     Sent 1%nat (mkChange "machines" (VString "m2") 9);
     Sent 1%nat (mkChange "units" (VString "u0") 1)].
Proof.
  destruct (flush_order sample_queues [] 3) as (_ & H & _).
  apply H. vm_compute. lia.
Defined.

(** ** Unwatch purges the queues *)

Lemma purge_no_match key ch q e c :
  e ∈ purge key (Some ch) q -> e_ch e = Some c -> key_match key (e_key e) = true ->
  c ≠ ch.
Proof.
  unfold purge. intros Hin Hc Hm. apply list_elem_of_fmap in Hin as (e0 & -> & _).
  destruct (key_match key (e_key e0)) eqn:Hk; simpl in *.
  - case_bool_decide as Hch; simpl in *; [done|]. congruence.
  - congruence.
Qed.

Lemma elem_of_sends ch c q :
  Sent ch c ∈ sends q -> exists e, e ∈ q /\ e_ch e = Some ch /\ change_of e = c.
Proof.
  unfold sends. rewrite list_elem_of_omap. intros (e & He & Hs).
  exists e. split; [done|]. destruct (e_ch e); simpl in Hs; [|done].
  by injection Hs as -> ->.
Qed.

Lemma elem_of_sent o tr : o ∈ tr -> is_sent o = true -> o ∈ sent tr.
Proof.
  intros Hin Hs. unfold sent. apply list_elem_of_In, List.filter_In.
  split; [by apply list_elem_of_In|done].
Qed.

(** C6.  Once an unwatch request for (key, channel) has been handled,
    nothing queued before it reaches the channel for a document the key
    matches: the queues hold no event for the pair any more, so neither
    the flush that follows nor the continuation of a flush the request
    interrupted (the delivery of any position of either queue, under any
    requests arriving meanwhile) sends one. *)
Theorem unwatch_purges_pending (w w' : Watcher) (key : watchKey) (ch : chan)
    (reply : option error) (script : list choice) (ch' : chan) (c : Change) :
  handle w (reqUnwatch key (Some ch)) = Done (w', reply) ->
  key_match key (mkKey (C c) (Id c)) = true ->
  (Sent ch' c ∈ f_trace (flush w' script) -> ch' ≠ ch) /\
  (forall n, Sent ch' c ∈ f_trace (flush_sync n w' script) -> ch' ≠ ch) /\
  (forall fuel i, Sent ch' c ∈ f_trace (flush_requests fuel i w' script) -> ch' ≠ ch).
Proof.
  intros Hh Hm.
  assert (Hq : forall e, e ∈ syncEvents w' \/ e ∈ requestEvents w' ->
             e_ch e = Some ch' -> change_of e = c -> ch' ≠ ch).
  { simpl in Hh. destruct (find_ch _ _); [|done]. injection Hh as <- <-. simpl.
    intros e He Hc <-. simpl in Hm. destruct (e_key e) as [kc kid] eqn:Hk. simpl in Hm.
    destruct He as [He|He]; eapply purge_no_match; eauto; by rewrite Hk. }
  assert (Hsub : forall tr q, sent tr `sublist_of` sends q ->
             (forall e, e ∈ q -> e ∈ syncEvents w' \/ e ∈ requestEvents w') ->
             Sent ch' c ∈ tr -> ch' ≠ ch).
  { intros tr q Hs Hin Ht.
    apply elem_of_sent in Ht; [|done].
    apply (fun H => elem_of_sublist _ _ _ H Hs), elem_of_sends in Ht as (e & He & Hc & Hch).
    apply (Hq e); auto. }
  split; [|split].
  - apply (Hsub _ (reverse (syncEvents w') ++ requestEvents w')).
    + rewrite sends_app. apply flush_sent_sublist.
    + intros e. rewrite elem_of_app, elem_of_reverse. tauto.
  - intros n. apply (Hsub _ (reverse (take n (syncEvents w')))).
    + apply flush_sync_spec.
    + intros e. rewrite elem_of_reverse, elem_of_take. intros (j & He & _). left.
      by eapply list_elem_of_lookup_2.
  - intros fuel i. apply (Hsub _ (drop i (requestEvents w'))).
    + apply flush_requests_spec.
    + intros e He. right. eapply elem_of_sublist; [exact He|]. apply sublist_drop.
Qed.

Lemma unwatch_purges_pending_witness :
  let m0 := mkKey "machines" (VString "m0") in
  let c := mkChange "machines" (VString "m0") 3 in
  f_trace (flush pending_m0 [Receive]) = [Sent 7%nat c] /\
  exists w', handle pending_m0 (reqUnwatch m0 (Some 7%nat)) = Done (w', None) /\
    Sent 7%nat c ∉ f_trace (flush w' [Receive]).
Proof.
  intros m0 c. split; [vm_compute; reflexivity|].
  destruct (handle pending_m0 (reqUnwatch m0 (Some 7%nat))) as [[w' reply]|p] eqn:Hh;
    [|vm_compute in Hh; discriminate Hh].
  exists w'. split.
  - vm_compute in Hh. injection Hh as _ <-. reflexivity.
  - intros Hin.
    destruct (unwatch_purges_pending pending_m0 w' m0 7%nat reply [Receive] 7%nat c Hh)
      as (H & _); [reflexivity|].
    by apply H in Hin.
Defined.

(** ** Delivery to a document watch *)

(** C1, as the specification states it, fails: a watch registered once
    by [Watch] on [m0] is sent 3, then -1 when the document is removed,
    then 5 when it is created again, with no registration in between. *)
Lemma event_after_deletion :
  let run := newWatcher recreation_log (inr None) recreation_script in
  Watch "machines" (VString "m0") (Some 7%nat) = Some (watch_m0 7%nat) /\
  run.1 = [Handled (watch_m0 7%nat) None;
           Sent 7%nat (mkChange "machines" (VString "m0") 3);
           Sent 7%nat (mkChange "machines" (VString "m0") (-1));
           Sent 7%nat (mkChange "machines" (VString "m0") 5)] /\
  revnos_sent (mkKey "machines" (VString "m0")) 7%nat run.1 = [3; -1; 5] /\
  ~ claimed_sequence (revnos_sent (mkKey "machines" (VString "m0")) 7%nat run.1).
Proof.
  split; [reflexivity|].
  split; [vm_compute; reflexivity|].
  split; [vm_compute; reflexivity|].
  assert (Hr : revnos_sent (mkKey "machines" (VString "m0")) 7%nat
                 (newWatcher recreation_log (inr None) recreation_script).1 = [3; -1; 5])
    by (vm_compute; reflexivity).
  rewrite Hr. intros (l1 & [<- | Happ] & Hsorted & Hpos).
  - apply Forall_cons in Hpos as [_ Hpos]. apply Forall_cons in Hpos as [Hneg _]. lia.
  - change [3; -1; 5] with ([3; -1] ++ [5]) in Happ.
    apply app_inj_tail in Happ as [_ Heq]. discriminate Heq.
Qed.

(** *** Requests *)

Lemma find_ch_Some ch l i :
  find_ch ch l = Some i -> exists x, l !! i = Some x /\ has_ch ch x = true.
Proof.
  revert i. induction l as [|a l IH]; intros i; simpl; [done|].
  destruct (has_ch ch a) eqn:E.
  - intros [= <-]. by exists a.
  - destruct (find_ch ch l) as [j|]; simpl; [|done].
    intros [= <-]. by apply IH.
Qed.

Lemma filter_nil_existsb {A} (P : A -> bool) l :
  List.filter P l = [] <-> existsb P l = false.
Proof.
  induction l as [|a l IH]; simpl; [done|].
  destruct (P a); simpl; [|done]. split; discriminate.
Qed.

Lemma find_ch_filter ch l i : find_ch ch l = Some i -> List.filter (has_ch ch) l ≠ [].
Proof.
  intros H Hnil. apply find_ch_Some in H as (x & Hx & Hc).
  apply filter_nil_existsb in Hnil.
  assert (existsb (has_ch ch) l = true); [|congruence].
  apply existsb_exists. exists x. split; [|done].
  apply list_elem_of_In. by eapply list_elem_of_lookup_2.
Qed.

Lemma swap_remove_last (l1 : list watchInfo) x :
  swap_remove (length l1) (l1 ++ [x]) = l1.
Proof.
  unfold swap_remove. rewrite last_snoc, length_app. simpl.
  replace (length l1 + 1 - 1)%nat with (length l1) by lia.
  rewrite insert_app_r_alt, Nat.sub_diag by lia. simpl. by rewrite take_app_length.
Qed.

Lemma swap_remove_mid (l1 : list watchInfo) x l2 z :
  swap_remove (length l1) (l1 ++ x :: l2 ++ [z]) = l1 ++ z :: l2.
Proof.
  unfold swap_remove.
  replace (l1 ++ x :: l2 ++ [z]) with ((l1 ++ x :: l2) ++ [z])
    by (by rewrite <- app_assoc).
  rewrite last_snoc, length_app. simpl.
  replace (length (l1 ++ x :: l2) + 1 - 1)%nat with (length (l1 ++ z :: l2))
    by (rewrite !length_app; simpl; lia).
  rewrite <- app_assoc. simpl.
  rewrite insert_app_r_alt, Nat.sub_diag by lia. simpl.
  replace (l1 ++ z :: l2 ++ [z]) with ((l1 ++ z :: l2) ++ [z])
    by (by rewrite <- app_assoc).
  by rewrite take_app_length.
Qed.

(** Removing an entry that does not satisfy [P] permutes the entries
    that do. *)
Lemma filter_swap_remove (P : watchInfo -> bool) l i x :
  l !! i = Some x -> P x = false ->
  List.filter P (swap_remove i l) ≡ₚ List.filter P l.
Proof.
  intros Hi HP.
  apply list_elem_of_split_length in Hi as (l1 & l2 & -> & ->).
  destruct l2 as [|y l2 _] using rev_ind.
  - rewrite swap_remove_last, List.filter_app. simpl. rewrite HP. by rewrite app_nil_r.
  - rewrite swap_remove_mid, !List.filter_app. simpl. rewrite HP, List.filter_app. simpl.
    apply Permutation_app_head. destruct (P y); [|by rewrite app_nil_r].
    apply Permutation_cons_append.
Qed.

Lemma watches_of_insert w key l k :
  watches_of (set_watches w (<[key := l]> (watches w))) k =
  if decide (k = key) then l else watches_of w k.
Proof.
  unfold watches_of. simpl. destruct (decide (k = key)) as [->|Hne].
  - by rewrite lookup_insert_eq.
  - by rewrite lookup_insert_ne.
Qed.

Lemma filter_has_ch_replicate_ne ch ch0 n z f :
  ch0 ≠ ch -> List.filter (has_ch ch) (replicate n (mkInfo ch0 z f)) = [].
Proof.
  intros Hne. induction n as [|n IH]; simpl; [done|].
  unfold has_ch at 1. simpl. by rewrite bool_decide_eq_false_2.
Qed.

Lemma has_ch_ne ch ch0 x : has_ch ch0 x = true -> ch0 ≠ ch -> has_ch ch x = false.
Proof.
  unfold has_ch. intros H Hne. apply bool_decide_eq_true in H.
  apply bool_decide_eq_false. congruence.
Qed.

Section DocumentWatch.
Variables (c : string) (id : ival) (ch : chan).
Hypothesis Hid : id ≠ VNil.
Local Abbreviation K := (mkKey c id).
Local Abbreviation Kc := (mkKey c VNil).

Lemma K_not_collection : K ≠ Kc.
Proof using Hid. intros [= ?]. done. Qed.

Lemma key_match_K key :
  key_match key K = true <-> key = K \/ key = Kc.
Proof using Hid.
  unfold key_match. destruct key as [kc kid]. simpl.
  case_bool_decide as Hc; simpl.
  - subst kc. case_bool_decide as Hn; simpl.
    + subst kid. split; [by right|done].
    + rewrite bool_decide_eq_true. split.
      * intros ->. by left.
      * intros [[= ->]|[= ->]]; done.
  - split; [done|]. intros [[= -> _]|[= -> _]]; done.
Qed.

Lemma filter_for_pair_purge_same key ch0 q :
  key_match key K && bool_decide (ch0 = Some ch) = false ->
  List.filter (for_pair K ch) (purge key ch0 q) = List.filter (for_pair K ch) q.
Proof.
  intros Hno. unfold purge. induction q as [|e q IH]; [done|].
  rewrite fmap_cons. cbn [List.filter]. rewrite IH. clear IH.
  destruct (key_match key (e_key e) && bool_decide (e_ch e = ch0)) eqn:Hhit; [|done].
  assert (H1 : for_pair K ch (mkEvent None (e_key e) (e_revno e)) = false) by done.
  assert (H2 : for_pair K ch e = false).
  { apply andb_true_iff in Hhit as [Hk Hc]. apply bool_decide_eq_true in Hc.
    unfold for_pair. apply andb_false_iff.
    destruct (decide (e_key e = K)) as [Hkey|Hkey];
      [left | right; by apply bool_decide_eq_false].
    rewrite Hkey in Hk. rewrite Hk in Hno. simpl in Hno.
    apply bool_decide_eq_false in Hno. apply bool_decide_eq_false. congruence. }
  by rewrite H1, H2.
Qed.

Lemma filter_for_pair_purge_hit q :
  List.filter (for_pair K ch) (purge K (Some ch) q) = [].
Proof using Hid.
  unfold purge. induction q as [|e q IH]; [done|].
  rewrite fmap_cons. cbn [List.filter]. rewrite IH. clear IH.
  destruct (key_match K (e_key e) && bool_decide (e_ch e = Some ch)) eqn:Hhit; [done|].
  assert (H2 : for_pair K ch e = false); [|by rewrite H2].
  unfold for_pair. apply andb_false_iff.
  destruct (decide (e_key e = K)) as [Hkey|Hkey];
    [left | right; by apply bool_decide_eq_false].
  rewrite Hkey, (proj2 (key_match_K K)) in Hhit by (by left).
  simpl in Hhit. exact Hhit.
Qed.

Lemma pending_purge_same key ch0 n w q' :
  key_match key K && bool_decide (ch0 = Some ch) = false ->
  syncEvents q' = purge key ch0 (syncEvents w) ->
  pending K ch n q' = pending K ch n w.
Proof.
  intros Hno Hq. unfold pending. rewrite Hq. unfold purge.
  rewrite <- fmap_take. by apply filter_for_pair_purge_same.
Qed.

Lemma pending_purge_hit n w q' :
  syncEvents q' = purge K (Some ch) (syncEvents w) ->
  pending K ch n q' = [].
Proof using Hid.
  intros Hq. unfold pending. rewrite Hq. unfold purge.
  rewrite <- fmap_take. apply filter_for_pair_purge_hit.
Qed.

(** The invariant looks at the entries of the pair only up to their
    order. *)
Lemma tracked_perm m w w' n :
  tracked K ch m w n ->
  requestEvents w' = [] ->
  entries_of Kc ch w' ≡ₚ entries_of Kc ch w ->
  entries_of K ch w' ≡ₚ entries_of K ch w ->
  pending K ch n w' = pending K ch n w ->
  tracked K ch m w' n.
Proof.
  intros (Hreq & Hcoll & Hpend & Hm) Hreq' Hc He Hp.
  split; [done|]. split.
  { simpl in *. rewrite Hcoll in Hc. by apply Permutation_nil_r in Hc. }
  split.
  { intros Hnil. rewrite Hp. apply Hpend. rewrite Hnil in He.
    symmetry in He. by apply Permutation_nil_r in He. }
  destruct m as [last|]; [|done].
  destruct Hm as (info & Hinfo & Hcases). exists info.
  rewrite Hinfo in He. apply Permutation_singleton_r in He.
  split; [done|]. by rewrite Hp.
Qed.

Lemma handle_tracked m w n r w' reply :
  tracked K ch m w n -> collection_free c ch r = true ->
  handle w r = Done (w', reply) ->
  tracked K ch (next_state K ch m (Handled r reply)) w' n.
Proof using Hid.
  intros Ht Hfree Hh. pose proof Ht as (Hreq & Hcoll & Hpend & Hm).
  destruct r as [|key info|key ch0|c0 ids ch0]; simpl in Hh.
  - (* reqSync *)
    injection Hh as <- <-. simpl. exact Ht.
  - (* reqWatch *)
    destruct (existsb _ _) eqn:Hex; [done|]. injection Hh as <- <-.
    assert (Hent : forall k, entries_of k ch
               (set_watches w (<[key := watches_of w key ++ [info]]> (watches w))) =
             entries_of k ch w ++
             (if decide (k = key) then if has_ch (Some ch) info then [info] else [] else [])).
    { intros k. unfold entries_of. rewrite watches_of_insert.
      destruct (decide (k = key)) as [->|]; [|by rewrite app_nil_r].
      rewrite List.filter_app. simpl. by destruct (has_ch (Some ch) info). }
    simpl in Hfree. simpl next_state.
    destruct (decide (key = K /\ i_ch info = Some ch)) as [[-> Hch]|Hno].
    + (* the pair gets registered *)
      rewrite (bool_decide_eq_true_2 (K = K)) by done.
      rewrite (bool_decide_eq_true_2 (i_ch info = Some ch)) by done. simpl.
      rewrite Hch in Hex. apply filter_nil_existsb in Hex.
      fold (entries_of K ch w) in Hex.
      split; [done|]. split.
      { rewrite Hent, decide_False by apply not_eq_sym, K_not_collection.
        by rewrite app_nil_r. }
      split; [intros _; by apply Hpend|].
      exists info. rewrite Hent, decide_True, Hex by done.
      unfold has_ch. rewrite (bool_decide_eq_true_2 (i_ch info = Some ch)) by done.
      split; [done|]. left. split; [by apply Hpend|by left].
    + assert (Hm' : bool_decide (key = K) && bool_decide (i_ch info = Some ch) = false).
      { apply andb_false_iff.
        destruct (decide (key = K)) as [HK|HK];
          [right | left; by apply bool_decide_eq_false].
        apply bool_decide_eq_false. intros Hc. by apply Hno. }
      rewrite Hm'.
      eapply tracked_perm; [exact Ht|done| | |done].
      * rewrite Hent. destruct (decide (Kc = key)) as [<-|]; [|by rewrite app_nil_r].
        rewrite (bool_decide_eq_true_2 (Kc = Kc)) in Hfree by done. simpl in Hfree.
        unfold has_ch. apply negb_true_iff in Hfree. rewrite Hfree. by rewrite app_nil_r.
      * rewrite Hent. destruct (decide (K = key)) as [<-|]; [|by rewrite app_nil_r].
        unfold has_ch. rewrite (bool_decide_eq_false_2 (i_ch info = Some ch)).
        { by rewrite app_nil_r. }
        intros Hc. by apply Hno.
  - (* reqUnwatch *)
    destruct (find_ch ch0 (watches_of w key)) as [i|] eqn:Hfind; [|done].
    injection Hh as <- <-. simpl next_state.
    apply find_ch_Some in Hfind as Hx. destruct Hx as (x & Hx & Hxc).
    set (w' := set_syncEvents _ _).
    assert (Hreq' : requestEvents w' = []) by (simpl; by rewrite Hreq).
    assert (Hsync' : syncEvents w' = purge key ch0 (syncEvents w)) by done.
    assert (Hent : forall k, ~ (k = key /\ ch0 = Some ch) ->
              entries_of k ch w' ≡ₚ entries_of k ch w).
    { intros k Hk. unfold entries_of, w', watches_of. simpl.
      fold (watches_of w key). destruct (decide (k = key)) as [->|Hne].
      - rewrite lookup_insert_eq. simpl. fold (watches_of w key).
        apply filter_swap_remove with x; [done|].
        apply has_ch_ne with ch0; [done|]. intros ->. by apply Hk.
      - by rewrite lookup_insert_ne. }
    destruct (decide (key = K /\ ch0 = Some ch)) as [[-> ->]|Hno].
    + rewrite !bool_decide_eq_true_2 by done. simpl.
      split; [done|]. split.
      { assert (Hp : entries_of Kc ch w' ≡ₚ entries_of Kc ch w).
        { apply Hent. intros [Heq _]. by apply K_not_collection. }
        simpl in Hcoll. rewrite Hcoll in Hp. by apply Permutation_nil_r in Hp. }
      split; [|done]. intros _. by apply pending_purge_hit with w.
    + assert (Hm' : (bool_decide (key = K) && bool_decide (ch0 = Some ch)) = false).
      { apply andb_false_iff. destruct (decide (key = K)) as [->|];
          [right|left]; apply bool_decide_eq_false; [|done].
        intros ->. by apply Hno. }
      rewrite Hm'.
      assert (HnoC : ~ (key = Kc /\ ch0 = Some ch)).
      { intros [-> ->]. apply find_ch_filter in Hfind. by apply Hfind. }
      eapply tracked_perm; [exact Ht|done| | |].
      * apply Hent. intros [<- ?]. by apply HnoC.
      * apply Hent. intros [<- ?]. by apply Hno.
      * apply pending_purge_same with key ch0; [|done].
        destruct (key_match key K) eqn:Hk; [|done]. simpl.
        apply bool_decide_eq_false. intros ->.
        apply key_match_K in Hk as [->| ->]; [by apply Hno | by apply HnoC].
  - (* reqWatchMulti *)
    simpl next_state.
    destruct (multi_conflict w c0 ids ch0) as [key|] eqn:Hconf.
    { injection Hh as <- <-. exact Ht. }
    injection Hh as <- <-.
    assert (Hent : forall k, entries_of k ch
               (set_watches w (multi_register (watches w) c0 ids ch0)) =
             entries_of k ch w ++
             List.filter (has_ch (Some ch))
               (replicate (if bool_decide (k_c k = c0) then occurrences (k_id k) ids
                           else 0%nat) (mkInfo ch0 (-2) None))).
    { intros k. unfold entries_of, watches_of. simpl.
      by rewrite multi_register_lookup, List.filter_app. }
    destruct (decide (ch0 = Some ch)) as [->|Hch].
    + simpl in Hfree. rewrite (bool_decide_eq_true_2 (Some ch = Some ch)) in Hfree by done.
      rewrite andb_true_r in Hfree.
      assert (HentC : entries_of Kc ch
                (set_watches w (multi_register (watches w) c0 ids (Some ch))) =
              entries_of Kc ch w).
      { rewrite Hent. simpl.
        destruct (decide (c = c0)) as [<-|Hc0];
          [|rewrite (bool_decide_eq_false_2 (c = c0)) by done; apply app_nil_r].
        rewrite (bool_decide_eq_true_2 (c = c)) by done.
        rewrite (bool_decide_eq_true_2 (c = c)) in Hfree by done. simpl in Hfree.
        apply negb_true_iff, bool_decide_eq_false in Hfree.
        destruct (occurrences VNil ids) eqn:Hocc; [apply app_nil_r|].
        exfalso. apply Hfree, occurrences_pos. lia. }
      destruct (decide (c0 = c /\ id ∈ ids)) as [[-> Hin]|Hout].
      * (* the pair gets registered by the multi request *)
        rewrite multi_conflict_none in Hconf. specialize (Hconf id Hin).
        apply filter_nil_existsb in Hconf. fold (entries_of K ch w) in Hconf.
        destruct m as [last|].
        { destruct Hm as (info & Hinfo & _). congruence. }
        split; [done|]. split; [simpl; rewrite HentC; exact Hcoll|]. split; [|done].
        intros _. by apply Hpend.
      * eapply tracked_perm; [exact Ht|done|by rewrite HentC| |done].
        rewrite Hent. simpl.
        destruct (decide (c = c0)) as [<-|Hc0];
          [|rewrite (bool_decide_eq_false_2 (c = c0)) by done; by rewrite app_nil_r].
        rewrite (bool_decide_eq_true_2 (c = c)) by done.
        destruct (occurrences id ids) eqn:Hocc; [by rewrite app_nil_r|].
        exfalso. apply Hout. split; [done|]. apply occurrences_pos. lia.
    + eapply tracked_perm; [exact Ht|done| | |done];
        by rewrite Hent, filter_has_ch_replicate_ne, app_nil_r.
Qed.


(** *** Delivery *)

Lemma in_order_app m tr1 tr2 :
  in_order K ch m (tr1 ++ tr2) =
  in_order K ch m tr1 && in_order K ch (state_after K ch m tr1) tr2.
Proof.
  revert m. induction tr1 as [|o tr1 IH]; intros m; simpl; [done|].
  by rewrite IH, andb_assoc.
Qed.

Lemma state_after_app m tr1 tr2 :
  state_after K ch m (tr1 ++ tr2) =
  state_after K ch (state_after K ch m tr1) tr2.
Proof. apply fold_left_app. Qed.

Lemma pending_S i w :
  pending K ch (S i) w =
  pending K ch i w ++ List.filter (for_pair K ch) (at_index (syncEvents w) i).
Proof.
  unfold pending, at_index. destruct (syncEvents w !! i) as [e|] eqn:E.
  - by rewrite (take_S_r _ _ _ E), List.filter_app.
  - apply lookup_ge_None in E. rewrite !take_ge by lia. by rewrite app_nil_r.
Qed.

Lemma concerns_for_pair e ch0 :
  e_ch e = Some ch0 -> concerns K ch ch0 (change_of e) = for_pair K ch e.
Proof.
  intros He. unfold concerns, for_pair, change_of. simpl. rewrite He.
  destruct (e_key e) as [kc kid]. simpl.
  destruct (decide (ch0 = ch)) as [->|Hne].
  - rewrite (bool_decide_eq_true_2 (ch = ch)) by done.
    by rewrite (bool_decide_eq_true_2 (Some ch = Some ch)) by done.
  - rewrite (bool_decide_eq_false_2 (ch0 = ch)) by done.
    rewrite (bool_decide_eq_false_2 (Some ch0 = Some ch)) by congruence. done.
Qed.

(** [flush] moves past an event that is not for the pair. *)
Lemma tracked_skip m w i :
  tracked K ch m w (S i) ->
  List.filter (for_pair K ch) (at_index (syncEvents w) i) = [] ->
  tracked K ch m w i.
Proof.
  intros Ht Hno. unfold tracked in *. rewrite pending_S, Hno, app_nil_r in Ht. exact Ht.
Qed.

(** [flush] sends the event at index [i]. *)
Lemma tracked_send m w i e ch0 :
  tracked K ch m w (S i) ->
  syncEvents w !! i = Some e -> e_ch e = Some ch0 ->
  allowed K ch m (Sent ch0 (change_of e)) = true /\
  tracked K ch (next_state K ch m (Sent ch0 (change_of e))) w i.
Proof.
  intros Ht Hi He. simpl. rewrite (concerns_for_pair e ch0 He).
  destruct (for_pair K ch e) eqn:Hfor.
  - destruct Ht as (Hreq & Hcoll & Hpend & Hm).
    rewrite pending_S in Hpend, Hm. unfold at_index in Hpend, Hm.
    rewrite Hi in Hpend, Hm. simpl in Hpend, Hm. rewrite Hfor in Hpend, Hm.
    destruct m as [last|].
    + destruct Hm as (info & Hinfo & [[Hnil _]|(e' & Hp & Hrev & Hstep)]).
      { by apply app_eq_nil in Hnil as [_ ?]. }
      apply app_singleton in Hp as [[Hp [= <-]]|[_ ?]]; [|done].
      split; [by destruct last|].
      split; [done|]. split; [done|]. split.
      { intros Hnil. congruence. }
      exists info. split; [done|]. left. split; [done|]. right. by rewrite Hrev.
    + split; [done|]. split; [done|]. split; [done|]. split; [|done].
      intros Hnil. apply Hpend in Hnil. by apply app_eq_nil in Hnil as [_ ?].
  - split; [by destruct m as [[?|]|]|].
    apply tracked_skip; [done|]. unfold at_index. rewrite Hi. simpl. by rewrite Hfor.
Qed.

Lemma script_ok_cons x script :
  script_ok c ch (x :: script) = true ->
  x ≠ Dying /\ script_ok c ch script = true /\
  (forall r, x = Request r -> collection_free c ch r = true).
Proof.
  unfold script_ok. simpl. intros H. apply andb_true_iff in H as [Hx Hs].
  split; [by intros ->|]. split; [done|]. by intros r ->.
Qed.

Lemma deliver_tracked i m w script :
  tracked K ch m w (S i) -> script_ok c ch script = true ->
  let r := deliver syncEvents i w script in
  in_order K ch m (f_trace r) = true /\
  f_status r ≠ FlushDying /\
  script_ok c ch (f_rest r) = true /\
  (f_status r = FlushDone ->
   tracked K ch (state_after K ch m (f_trace r)) (f_w r) i).
Proof using Hid.
  revert m w. induction script as [|x script IH]; intros m w Ht Hok.
  - simpl. destruct (syncEvents w !! i) as [e|] eqn:Hi; simpl.
    + destruct (e_ch e) eqn:He; simpl; [done|].
      split; [done|]. split; [done|]. split; [done|].
      intros _. apply tracked_skip; [done|].
      unfold at_index. rewrite Hi. simpl. unfold for_pair. by rewrite He.
    + split; [done|]. split; [done|]. split; [done|].
      intros _. apply tracked_skip; [done|].
      unfold at_index. by rewrite Hi.
  - apply script_ok_cons in Hok as Hx. destruct Hx as (Hdy & Hok' & Hreq).
    simpl. destruct (syncEvents w !! i) as [e|] eqn:Hi; simpl.
    + destruct (e_ch e) as [ch0|] eqn:He; simpl.
      * destruct x as [| |r|]; simpl.
        -- done.
        -- by apply IH.
        -- destruct (handle w r) as [[w' reply]|p] eqn:Hh; simpl; [|done].
           destruct (IH (next_state K ch m (Handled r reply)) w') as (Ho & Hd & Hs & Hf);
             [exact (handle_tracked m w (S i) r w' reply Ht (Hreq r eq_refl) Hh) | done |].
           split; [exact Ho|]. split; [done|]. split; [done|]. exact Hf.
        -- destruct (tracked_send m w i e ch0 Ht Hi He) as [Ha Hn].
           split.
           { transitivity (allowed K ch m (Sent ch0 (change_of e)) && true);
               [reflexivity | by rewrite Ha]. }
           split; [done|]. split; [done|]. intros _. exact Hn.
      * split; [done|]. split; [done|]. split; [done|].
        intros _. apply tracked_skip; [done|].
        unfold at_index. rewrite Hi. simpl. unfold for_pair. by rewrite He.
    + split; [done|]. split; [done|]. split; [done|].
      intros _. apply tracked_skip; [done|].
      unfold at_index. by rewrite Hi.
Qed.

Lemma flush_sync_tracked n m w script :
  tracked K ch m w n -> script_ok c ch script = true ->
  let r := flush_sync n w script in
  in_order K ch m (f_trace r) = true /\
  f_status r ≠ FlushDying /\
  script_ok c ch (f_rest r) = true /\
  (f_status r = FlushDone ->
   tracked K ch (state_after K ch m (f_trace r)) (f_w r) 0).
Proof using Hid.
  revert m w script. induction n as [|i IH]; intros m w script Ht Hok; simpl; [done|].
  destruct (deliver_tracked i m w script Ht Hok) as (Ho & Hd & Hs & Hf).
  destruct (decide (f_status (deliver syncEvents i w script) = FlushDone)) as [Hdone|Hstop].
  - destruct (and_then_trace _ (flush_sync i) Hdone) as (-> & -> & -> & ->).
    destruct (IH _ _ _ (Hf Hdone) Hs) as (Ho' & Hd' & Hs' & Hf').
    rewrite in_order_app, Ho, Ho', state_after_app. done.
  - rewrite and_then_stop by done. done.
Qed.

Lemma tracked_cleared m w :
  tracked K ch m w 0 -> tracked K ch m (cleared w) 0.
Proof. intros Ht. by destruct Ht as (Hreq & Hcoll & Hpend & Hm). Qed.

Lemma flush_tracked m w script :
  tracked K ch m w (length (syncEvents w)) -> script_ok c ch script = true ->
  let r := flush w script in
  in_order K ch m (f_trace r) = true /\
  f_status r ≠ FlushDying /\
  script_ok c ch (f_rest r) = true /\
  (f_status r = FlushDone ->
   tracked K ch (state_after K ch m (f_trace r)) (f_w r) 0 /\
   syncEvents (f_w r) = []).
Proof using Hid.
  intros Ht Hok. unfold flush.
  destruct (flush_sync_tracked _ m w script Ht Hok) as (Ho & Hd & Hs & Hf).
  set (r1 := flush_sync (length (syncEvents w)) w script) in *.
  destruct (decide (f_status r1 = FlushDone)) as [Hdone|Hstop];
    [|by rewrite and_then_stop by done].
  specialize (Hf Hdone).
  assert (Hreq : requestEvents (f_w r1) = []) by (by destruct Hf).
  unfold and_then. rewrite Hdone. simpl. rewrite Hreq. simpl.
  rewrite !app_nil_r.
  split; [done|]. split; [done|]. split; [done|].
  intros _. split; [|done]. by apply tracked_cleared.
Qed.


(** *** A pass *)

Lemma filter_for_pair_event_for key rv (l : list watchInfo) :
  List.filter (for_pair K ch) (event_for key rv <$> l) =
  if decide (key = K) then event_for key rv <$> List.filter (has_ch (Some ch)) l else [].
Proof.
  induction l as [|info l IH]; [by destruct (decide (key = K))|].
  rewrite fmap_cons. cbn [List.filter]. rewrite IH.
  change (for_pair K ch (event_for key rv info))
    with (has_ch (Some ch) info && bool_decide (key = K)).
  destruct (decide (key = K)) as [->|Hne].
  - rewrite (bool_decide_eq_true_2 (K = K)) by done. rewrite andb_true_r.
    by destruct (has_ch (Some ch) info).
  - rewrite (bool_decide_eq_false_2 (key = K)) by done. by rewrite andb_false_r.
Qed.

Lemma filter_for_pair_change_events w key rv :
  entries_of Kc ch w = [] ->
  List.filter (for_pair K ch) (change_events w (key, rv)) =
  if decide (key = K)
  then event_for K rv <$> List.filter (doc_notify rv) (entries_of K ch w)
  else [].
Proof.
  intros Hcoll. unfold change_events. simpl.
  rewrite List.filter_app, !filter_for_pair_event_for.
  destruct (decide (key = K)) as [->|]; [|done]. simpl.
  rewrite (filter_filter_comm (has_ch (Some ch)) (accepts id)).
  unfold entries_of in Hcoll. rewrite Hcoll. simpl.
  by rewrite (filter_filter_comm (has_ch (Some ch)) (doc_notify rv)).
Qed.

Lemma filter_for_pair_pass w (cs : list (watchKey * Z)) :
  entries_of Kc ch w = [] -> NoDup cs.*1 ->
  (K ∉ cs.*1 -> List.filter (for_pair K ch) (flat_map (change_events w) cs) = []) /\
  (forall rv, (K, rv) ∈ cs ->
     List.filter (for_pair K ch) (flat_map (change_events w) cs) =
     event_for K rv <$> List.filter (doc_notify rv) (entries_of K ch w)).
Proof.
  intros Hcoll. induction cs as [|[key rv0] cs IH]; intros Hnd.
  - split; [done|]. intros rv H. by apply elem_of_nil in H.
  - apply NoDup_cons in Hnd as [Hnotin Hnd]. destruct (IH Hnd) as [IH1 IH2].
    simpl. rewrite List.filter_app, filter_for_pair_change_events by done. split.
    + intros Hk. apply not_elem_of_cons in Hk as [Hne Hk].
      rewrite decide_False by done. by apply IH1.
    + intros rv Hin. apply elem_of_cons in Hin as [[= <- <-]|Hin].
      * rewrite decide_True by done. rewrite IH1 by done. by rewrite app_nil_r.
      * assert (key ≠ K).
        { intros ->. apply Hnotin. apply list_elem_of_fmap. by exists (K, rv). }
        rewrite decide_False by done. by apply IH2.
Qed.

Lemma has_ch_observe ch0 rv info : has_ch ch0 (observe_revno rv info) = has_ch ch0 info.
Proof. unfold observe_revno. by destruct (doc_notify rv info). Qed.

Lemma filter_has_ch_observe ch0 rv (l : list watchInfo) :
  List.filter (has_ch ch0) (observe_revno rv <$> l) =
  observe_revno rv <$> List.filter (has_ch ch0) l.
Proof.
  induction l as [|info l IH]; [done|].
  rewrite fmap_cons. cbn [List.filter]. rewrite IH, has_ch_observe.
  by destruct (has_ch ch0 info).
Qed.

Lemma subscribers_filter_nil ch0 l1 l2 :
  subscribers l1 = subscribers l2 ->
  List.filter (has_ch ch0) l2 = [] -> List.filter (has_ch ch0) l1 = [].
Proof.
  revert l2. induction l1 as [|a l1 IH]; intros [|b l2]; simpl; try done.
  intros [= Hc Hf Hl].
  assert (has_ch ch0 a = has_ch ch0 b) as -> by (unfold has_ch; by rewrite Hc).
  destruct (has_ch ch0 b); [done|]. by apply IH.
Qed.

Lemma normalize_ge revno : -1 <= normalize revno.
Proof. unfold normalize. destruct (Z.ltb_spec revno 0); lia. Qed.

Lemma changes_row_normalized cname di ri seen :
  Forall (fun x => -1 <= x.2) (changes_row cname di ri seen).2.
Proof.
  unfold changes_row. destruct (bool_decide _); [by constructor|].
  destruct ri; simpl; try by constructor.
  constructor; [apply normalize_ge | constructor].
Qed.

Lemma changes_rows_normalized cname d r n seen :
  Forall (fun x => -1 <= x.2) (changes_rows cname d r n seen).2.
Proof.
  revert seen. induction n as [|i IH]; intros seen; simpl; [by constructor|].
  destruct (d !! i) as [di|]; [|by constructor].
  destruct (r !! i) as [ri|]; [|by constructor].
  pose proof (changes_row_normalized cname di ri seen) as H1.
  destruct (changes_row cname di ri seen) as [seen1 cs1].
  pose proof (IH seen1) as H2.
  destruct (changes_rows cname d r i seen1) as [seen2 cs2].
  simpl in *. by apply Forall_app.
Qed.

Lemma changes_collections_normalized seen cs :
  Forall (fun x => -1 <= x.2) (changes_collections seen cs).2.
Proof.
  revert seen. induction cs as [|x cs IH]; intros seen; simpl; [by constructor|].
  assert (H1 : Forall (fun x => -1 <= x.2) (changes_collection seen x).2).
  { unfold changes_collection. destruct (decode_batch (Value x)) as [d r].
    destruct (_ || _); [by constructor | apply changes_rows_normalized]. }
  destruct (changes_collection seen x) as [seen1 cs1].
  pose proof (IH seen1) as H2.
  destruct (changes_collections seen1 cs) as [seen2 cs2].
  simpl in *. by apply Forall_app.
Qed.

Lemma pass_changes_normalized w it :
  Forall (fun x => -1 <= x.2) (pass_changes w it).
Proof.
  unfold pass_changes. generalize (∅ : gset watchKey).
  induction (docs it) as [|entry rest IH]; intros seen; simpl; [by constructor|].
  destruct entry as [|x cs]; [by constructor|].
  destruct (negb _); [by constructor|].
  destruct (iface_eq (Value x) (lastId w)) as [[|]|]; try by constructor.
  pose proof (changes_collections_normalized seen cs) as H1.
  destruct (changes_collections seen cs) as [seen1 cs1].
  simpl in *. apply Forall_app. split; [done|apply IH].
Qed.

Lemma doc_notify_step rv info :
  -1 <= rv -> doc_notify rv info = true -> step_ok (i_revno info) rv = true.
Proof.
  intros Hge H. apply doc_notify_spec in H. unfold step_ok.
  apply orb_true_iff. destruct H as [H|[H1 H2]].
  - left. by apply Z.ltb_lt.
  - right. apply andb_true_iff. split; [apply Z.eqb_eq; lia | by apply Z.leb_le].
Qed.

(** A pass from empty queues keeps the invariant, all of the new queue
    pending. *)
Lemma sync_tracked m w it res :
  tracked K ch m w 0 -> syncEvents w = [] ->
  sync w it = Done res ->
  tracked K ch m (r_w res) (length (syncEvents (r_w res))).
Proof using Hid.
  intros (Hreq & Hcoll & _ & Hm) Hempty Hsync.
  destruct (sync_spec w it res Hsync) as (He & Hr & _ & Hother & Hsame & Hsub).
  rewrite Hempty in He. simpl in He, Hcoll.
  pose proof (changes_entries_fresh (docs it) (lastId w) ∅) as [Hnd _].
  fold (pass_changes w it) in Hnd.
  destruct (filter_for_pair_pass w (pass_changes w it) Hcoll Hnd) as [Hp1 Hp2].
  assert (Hpend : pending K ch (length (syncEvents (r_w res))) (r_w res) =
                  List.filter (for_pair K ch) (flat_map (change_events w) (pass_changes w it))).
  { unfold pending. by rewrite firstn_all, He. }
  unfold tracked. rewrite Hpend.
  assert (HcollR : entries_of Kc ch (r_w res) = []).
  { unfold entries_of. by apply subscribers_filter_nil with (watches_of w Kc). }
  split; [by rewrite Hr|]. split; [exact HcollR|].
  destruct (decide (K ∈ (pass_changes w it).*1)) as [Hin|Hout].
  - apply list_elem_of_fmap in Hin as ([k rv] & Hk & Hin). simpl in Hk. subst k.
    assert (Hent : entries_of K ch (r_w res) = observe_revno rv <$> entries_of K ch w).
    { unfold entries_of. by rewrite (Hsame K rv Hin), filter_has_ch_observe. }
    rewrite Hent, (Hp2 rv Hin).
    assert (Hge : -1 <= rv).
    { pose proof (pass_changes_normalized w it) as Hn.
      rewrite Forall_forall in Hn. exact (Hn (K, rv) Hin). }
    split.
    { intros Hnil. apply fmap_nil_inv in Hnil. by rewrite Hnil. }
    destruct m as [last|]; [|done].
    destruct Hm as (info & Hinfo & [[_ Hlast]|(e & Hp & _)]); [|done].
    rewrite Hinfo. simpl. unfold observe_revno.
    destruct (doc_notify rv info) eqn:Hn.
    + eexists. split; [reflexivity|]. right. eexists. split; [reflexivity|].
      simpl. split; [done|]. destruct Hlast as [-> | ->]; [done|].
      by apply doc_notify_step.
    + exists info. split; [done|]. left. done.
  - assert (Hent : entries_of K ch (r_w res) = entries_of K ch w).
    { unfold entries_of, watches_of. by rewrite (Hother K Hout). }
    rewrite Hent, (Hp1 Hout). split; [done|].
    destruct m as [last|]; [|done].
    destruct Hm as (info & Hinfo & [[_ Hlast]|(e & Hp & _)]); [|done].
    exists info. split; [done|]. by left.
Qed.


(** *** The loop *)

Lemma handle_empty_queue w r w' reply :
  handle w r = Done (w', reply) -> syncEvents w = [] -> syncEvents w' = [].
Proof.
  intros Hh Hnil. apply handle_dimmed in Hh as [Hs _].
  rewrite Hnil in Hs. by inversion Hs.
Qed.

Lemma select_step_tracked next m fl :
  loop_ok c K ch next ->
  in_order K ch m (f_trace fl) = true ->
  f_status fl ≠ FlushDying ->
  script_ok c ch (f_rest fl) = true ->
  (f_status fl = FlushDone ->
   tracked K ch (state_after K ch m (f_trace fl)) (f_w fl) 0 /\
   syncEvents (f_w fl) = []) ->
  in_order K ch m (select_step next fl).1 = true.
Proof using Hid.
  intros Hnext Ho Hd Hs Hf. unfold select_step.
  destruct (f_status fl) eqn:Hst; try done.
  destruct (Hf eq_refl) as [Ht Hempty].
  destruct (f_rest fl) as [|x rest] eqn:Hrest; [done|].
  apply script_ok_cons in Hs as (Hdy & Hok & Hreq).
  destruct x as [| |r|]; [done| | |].
  - specialize (Hnext (state_after K ch m (f_trace fl))
                  (set_needSync (f_w fl) true) rest Ht Hempty Hok).
    destruct (next (set_needSync (f_w fl) true) rest) as [tr e]. simpl in *.
    by rewrite in_order_app, Ho, Hnext.
  - destruct (handle (f_w fl) r) as [[w' reply]|p] eqn:Hh; [|done].
    pose proof (handle_tracked _ _ _ _ _ _ Ht (Hreq r eq_refl) Hh) as Ht'.
    pose proof (handle_empty_queue _ _ _ _ Hh Hempty) as Hempty'.
    assert (Ht'' : tracked K ch
              (next_state K ch (state_after K ch m (f_trace fl)) (Handled r reply))
              w' (length (syncEvents w'))) by (by rewrite Hempty').
    destruct (flush_tracked _ w' rest Ht'' Hok) as (Ho' & Hd' & Hs' & Hf').
    assert (Hpre : in_order K ch m (f_trace fl ++ Handled r reply :: f_trace (flush w' rest))
                   = true).
    { rewrite in_order_app, Ho. simpl. exact Ho'. }
    destruct (f_status (flush w' rest)) eqn:Hst'; try done.
    destruct (Hf' eq_refl) as [Ht3 Hempty3].
    specialize (Hnext _ _ _ Ht3 Hempty3 Hs').
    destruct (next (f_w (flush w' rest)) (f_rest (flush w' rest))) as [tr e].
    simpl in *.
    replace (f_trace fl ++ Handled r reply :: f_trace (flush w' rest) ++ tr)
      with ((f_trace fl ++ Handled r reply :: f_trace (flush w' rest)) ++ tr)
      by (by rewrite <- app_assoc).
    rewrite in_order_app, Hpre. simpl.
    rewrite state_after_app. exact Hnext.
  - specialize (Hnext (state_after K ch m (f_trace fl)) (f_w fl) rest Ht Hempty Hok).
    destruct (next (f_w fl) rest) as [tr e]. simpl in *.
    by rewrite in_order_app, Ho, Hnext.
Qed.

Lemma loop_for_tracked fuel iteratorFunc calls :
  loop_ok c K ch (loop_for fuel iteratorFunc calls).
Proof using Hid.
  revert calls. induction fuel as [|fuel IH]; intros calls m w script Ht Hempty Hok;
    [done|].
  simpl. destruct (needSync w).
  - destruct (sync w (iteratorFunc calls)) as [res|p] eqn:Hsync; [|done].
    destruct (r_err res); [by destruct (bool_decide _)|].
    pose proof (sync_tracked m w _ res Ht Hempty Hsync) as Ht'.
    destruct (flush_tracked m (r_w res) script Ht' Hok) as (Ho & Hd & Hs & Hf).
    by apply select_step_tracked.
  - apply select_step_tracked; simpl; try done.
Qed.

End DocumentWatch.

(** *** The fuel of [loop] is never used up *)

Lemma deliver_rest q i w script :
  (length (f_rest (deliver q i w script)) <= length script)%nat.
Proof.
  revert w. induction script as [|x script IH]; intros w; simpl.
  - destruct (q w !! i) as [e|]; [destruct (e_ch e)|]; simpl; lia.
  - destruct (q w !! i) as [e|]; [destruct (e_ch e)|]; simpl; try lia.
    destruct x as [| |r|]; simpl; try lia.
    + specialize (IH w). lia.
    + destruct (handle w r) as [[w' reply]|p]; simpl; [|lia].
      specialize (IH w'). lia.
Qed.

Lemma and_then_rest r k n :
  (length (f_rest r) <= n)%nat ->
  (forall w script, (length (f_rest (k w script)) <= length script)%nat) ->
  (length (f_rest (and_then r k)) <= n)%nat.
Proof.
  intros Hr Hk. unfold and_then. destruct (f_status r); simpl; try done.
  specialize (Hk (f_w r) (f_rest r)). lia.
Qed.

Lemma flush_sync_rest n w script :
  (length (f_rest (flush_sync n w script)) <= length script)%nat.
Proof.
  revert w script. induction n as [|i IH]; intros w script; simpl; [lia|].
  apply and_then_rest; [apply deliver_rest | apply IH].
Qed.

Lemma flush_requests_rest fuel i w script :
  (length (f_rest (flush_requests fuel i w script)) <= length script)%nat.
Proof.
  revert i w script. induction fuel as [|fuel IH]; intros i w script; simpl; [lia|].
  destruct (i <? _)%nat; simpl; [|lia].
  apply and_then_rest; [apply deliver_rest | apply IH].
Qed.

Lemma flush_rest w script :
  (length (f_rest (flush w script)) <= length script)%nat.
Proof.
  unfold flush. apply and_then_rest; [apply flush_sync_rest|].
  intros w1 rest1. apply and_then_rest; [apply flush_requests_rest|].
  intros w2 rest2. simpl. lia.
Qed.

Lemma select_step_fuel next fl n :
  (forall w script, (length script < n)%nat -> (next w script).2 ≠ OutOfFuel) ->
  (length (f_rest fl) <= n)%nat ->
  (select_step next fl).2 ≠ OutOfFuel.
Proof.
  intros Hnext Hlen. unfold select_step.
  assert (Hcase : (match f_rest fl with
    | [] => (f_trace fl, Blocked)
    | Dying :: _ => (f_trace fl, Returned (Traced ErrDying))
    | Tick :: rest =>
        let '(tr, e) := next (set_needSync (f_w fl) true) rest in (f_trace fl ++ tr, e)
    | Request r :: rest =>
        match handle (f_w fl) r with
        | Panic p => (f_trace fl, Panicked p)
        | Done (w', reply) =>
            let fl' := flush w' rest in
            match f_status fl' with
            | FlushBlocked => (f_trace fl ++ Handled r reply :: f_trace fl', Blocked)
            | FlushPanic p => (f_trace fl ++ Handled r reply :: f_trace fl', Panicked p)
            | FlushDone | FlushDying =>
                let '(tr, e) := next (f_w fl') (f_rest fl') in
                (f_trace fl ++ Handled r reply :: f_trace fl' ++ tr, e)
            end
        end
    | Receive :: rest => let '(tr, e) := next (f_w fl) rest in (f_trace fl ++ tr, e)
    end).2 ≠ OutOfFuel).
  { destruct (f_rest fl) as [|x rest]; [done|]. simpl in Hlen.
    destruct x as [| |r|]; [done| | |].
    - pose proof (Hnext (set_needSync (f_w fl) true) rest ltac:(lia)) as H.
      by destruct (next (set_needSync (f_w fl) true) rest).
    - destruct (handle (f_w fl) r) as [[w' reply]|p]; [|done].
      pose proof (flush_rest w' rest) as Hr. simpl.
      pose proof (Hnext (f_w (flush w' rest)) (f_rest (flush w' rest)) ltac:(lia)) as H.
      destruct (f_status (flush w' rest)); try done;
        by destruct (next (f_w (flush w' rest)) (f_rest (flush w' rest))).
    - pose proof (Hnext (f_w fl) rest ltac:(lia)) as H.
      by destruct (next (f_w fl) rest). }
  by destruct (f_status fl).
Qed.

(** Every iteration of the loop consumes a choice of the script. *)
Lemma loop_fuel fuel iteratorFunc calls w script :
  (length script < fuel)%nat ->
  (loop_for fuel iteratorFunc calls w script).2 ≠ OutOfFuel.
Proof.
  revert calls w script. induction fuel as [|fuel IH]; intros calls w script Hlen; [lia|].
  simpl. destruct (needSync w).
  - destruct (sync w (iteratorFunc calls)) as [res|p]; [|done].
    destruct (r_err res); [by destruct (bool_decide _)|].
    apply select_step_fuel with fuel; [intros; by apply IH|].
    pose proof (flush_rest (r_w res) script). lia.
  - apply select_step_fuel with fuel; [intros; by apply IH|]. simpl. lia.
Qed.

Lemma newWatcher_fuel iteratorFunc latest script :
  (newWatcher iteratorFunc latest script).2 ≠ OutOfFuel.
Proof.
  unfold newWatcher, loop.
  destruct (initLastId _ latest) as [err|w]; [done|].
  pose proof (loop_fuel (S (length script)) iteratorFunc 0 w script ltac:(lia)) as H.
  destruct (loop_for _ _ _ _ _) as [tr []]; done.
Qed.

(** *** The amended claim *)

(** C1, amended.  Take a document key (collection [c], id not nil) and
    a channel [ch], a script during which the tomb is not dying and in
    which no request registers [ch] on the whole collection [c].  Then,
    in every run of the watcher, the changes of the document sent on
    [ch] while a registration of the pair by [Watch] is in force are in
    order: each carries a revno greater than the one sent before it
    under that registration, or carries -1 while the one before it was
    not negative.  (A -1 is thus never followed by another -1, but it may
    be followed by the revno of the document created again.)  The run
    never exhausts the fuel of the model. *)
Theorem document_watch_delivery (iteratorFunc : nat -> Iterator)
    (latest : error + option elem_value) (script : list choice)
    (c : string) (id : ival) (ch : chan) :
  id ≠ VNil ->
  script_ok c ch script = true ->
  in_order (mkKey c id) ch None (newWatcher iteratorFunc latest script).1 = true /\
  (newWatcher iteratorFunc latest script).2 ≠ OutOfFuel.
Proof.
  intros Hid Hok. split; [|apply newWatcher_fuel].
  unfold newWatcher, loop.
  destruct (initLastId (set_needSync emptyWatcher true) latest) as [err|w] eqn:Hinit; [done|].
  assert (Ht : tracked (mkKey c id) ch None w 0 /\ syncEvents w = []).
  { unfold initLastId in Hinit. destruct latest as [e|[v|]]; [done| |];
      injection Hinit as <-; done. }
  destruct Ht as [Ht Hempty].
  pose proof (loop_for_tracked c id ch Hid (S (length script)) iteratorFunc 0
                None w script Ht Hempty Hok) as H.
  destruct (loop_for _ _ _ _ _) as [tr []]; done.
Qed.

Lemma document_watch_delivery_witness :
  script_ok "machines" 7%nat recreation_script = true /\
  in_order (mkKey "machines" (VString "m0")) 7%nat None
    (newWatcher recreation_log (inr None) recreation_script).1 = true.
Proof.
  split; [reflexivity|].
  apply (document_watch_delivery recreation_log (inr None) recreation_script
           "machines" (VString "m0") 7%nat).
  - discriminate.
  - reflexivity.
Defined.

(** Why the tomb must not be dying: a flush that returns on the dying
    tomb leaves its queue in place, and if the loop then picks the timer
    the next pass appends to it; the newer change is sent first. *)
Lemma dying_flush_reorders :
  (newWatcher two_revnos_log (inr None)
     [Request (watch_m0 7%nat); Tick; Dying; Tick; Receive; Receive]).1 =
  [Handled (watch_m0 7%nat) None;
   Sent 7%nat (mkChange "machines" (VString "m0") 5);
   Sent 7%nat (mkChange "machines" (VString "m0") 3)].
Proof. vm_compute. reflexivity. Qed.

(** * Further properties of the registry *)



Lemma length_filter_swap_remove_hit (P : watchInfo -> bool) l i x :
  l !! i = Some x -> P x = true ->
  S (length (List.filter P (swap_remove i l))) = length (List.filter P l).
Proof.
  intros Hi HP.
  apply list_elem_of_split_length in Hi as (l1 & l2 & -> & ->).
  destruct l2 as [|y l2 _] using rev_ind.
  - rewrite swap_remove_last, List.filter_app, length_app. simpl. rewrite HP. simpl. lia.
  - rewrite swap_remove_mid, !List.filter_app. simpl. rewrite HP, List.filter_app. simpl.
    destruct (P y); simpl; rewrite ?length_app; simpl; rewrite ?length_app; simpl; lia.
Qed.

Lemma handle_unwatch_registrations w w' key ch reply :
  handle w (reqUnwatch key ch) = Done (w', reply) ->
  S (registrations w' key ch) = registrations w key ch /\
  (forall k c0, k ≠ key \/ c0 ≠ ch -> registrations w' k c0 = registrations w k c0).
Proof.
  simpl. destruct (find_ch ch (watches_of w key)) as [i|] eqn:Hf; [|done].
  intros [= <- <-]. apply find_ch_Some in Hf as (x & Hx & Hc). split.
  - unfold registrations at 1. unfold watches_of at 1. simpl. rewrite lookup_insert_eq. simpl.
    by apply length_filter_swap_remove_hit with x.
  - intros k c0 Hne. unfold registrations at 1. unfold watches_of at 1. simpl.
    destruct (decide (k = key)) as [->|Hk].
    + rewrite lookup_insert_eq. simpl.
      apply Permutation_length, filter_swap_remove with x; [done|].
      apply has_ch_ne with ch; [done|]. intros ->. by destruct Hne.
    + by rewrite lookup_insert_ne.
Qed.

(** X2.  A [reqUnwatch] that is handled removes exactly one entry of
    the channel under the key and no other entry: the number of entries
    of every other (key, channel) pair is as before.  So it keeps the
    registry invariant, and under the invariant the pair is no longer
    registered afterwards. *)
Theorem unwatch_removes_one (w w' : Watcher) (key : watchKey) (ch : option chan)
    (reply : option error) :
  handle w (reqUnwatch key ch) = Done (w', reply) ->
  S (registrations w' key ch) = registrations w key ch /\
  (forall k c0, k ≠ key \/ c0 ≠ ch -> registrations w' k c0 = registrations w k c0) /\
  (registry_inv w -> registry_inv w' /\ is_registered w' key ch = false).
Proof.
  intros Hh.
  destruct (handle_unwatch_registrations w w' key ch reply Hh) as [Hhit Hother].
  split; [exact Hhit|]. split; [exact Hother|].
  intros Hinv. split.
  - intros k c0. destruct (decide (k = key /\ c0 = ch)) as [[-> ->]|Hne].
    + specialize (Hinv key ch). lia.
    + rewrite Hother; [apply Hinv|]. destruct (decide (k = key)); [right|left]; naive_solver.
  - apply is_registered_registrations. specialize (Hinv key ch). lia.
Qed.

(** X3.  Registering a channel under a key and unregistering it again
    gives back the entries every key had, in the same order: the entry
    is appended last and the removal swaps the last entry into its
    place. *)
Theorem watch_unwatch_round_trip (w w1 : Watcher) (key : watchKey) (info : watchInfo)
    (reply : option error) :
  handle w (reqWatch key info) = Done (w1, reply) ->
  exists w2, handle w1 (reqUnwatch key (i_ch info)) = Done (w2, None) /\
    (forall k, watches_of w2 k = watches_of w k) /\
    needSync w2 = needSync w /\ lastId w2 = lastId w /\
    syncEvents w2 = purge key (i_ch info) (syncEvents w) /\
    requestEvents w2 = purge key (i_ch info) (requestEvents w).
Proof.
  simpl. destruct (existsb (has_ch (i_ch info)) (watches_of w key)) eqn:Hex; [done|].
  intros [= <- <-].
  assert (Hfind : find_ch (i_ch info) (watches_of w key ++ [info])
                  = Some (length (watches_of w key))).
  { revert Hex. induction (watches_of w key) as [|a l IH]; simpl.
    - intros _. unfold has_ch. by rewrite bool_decide_eq_true_2.
    - destruct (has_ch (i_ch info) a); simpl; [done|]. intros H. by rewrite (IH H). }
  rewrite watches_of_insert, decide_True by done.
  rewrite Hfind, swap_remove_last. eexists. split; [reflexivity|].
  split; [|done]. intros k. unfold watches_of. simpl.
  destruct (decide (k = key)) as [->|Hne].
  - by rewrite lookup_insert_eq.
  - by rewrite !lookup_insert_ne.
Qed.

(** X4.  Unregistering a collection-wide watch clears the channel of
    every queued event of that channel for any document of the
    collection, also of those queued for a per-document watch on the
    same channel; the per-document registrations themselves are not
    touched. *)
Theorem unwatch_collection_purges (w w' : Watcher) (c : string) (ch : chan)
    (reply : option error) :
  handle w (UnwatchCollection c (Some ch)) = Done (w', reply) ->
  (forall e, e ∈ syncEvents w' \/ e ∈ requestEvents w' ->
     k_c (e_key e) = c -> e_ch e ≠ Some ch) /\
  (forall k, k ≠ mkKey c VNil -> watches w' !! k = watches w !! k).
Proof.
  unfold UnwatchCollection. simpl.
  destruct (find_ch _ _) as [i|]; [|intros H; discriminate H].
  intros [= <- <-]. simpl. split.
  - assert (Hp : forall q e, e ∈ purge (mkKey c VNil) (Some ch) q ->
                 k_c (e_key e) = c -> e_ch e ≠ Some ch).
    { intros q e He Hc Hch. eapply purge_no_match; [exact He|exact Hch| |done].
      unfold key_match. simpl. by rewrite Hc, bool_decide_eq_true_2. }
    intros e [He|He] Hc; exact (Hp _ e He Hc).
  - intros k Hk. by rewrite lookup_insert_ne.
Qed.

Lemma filter_has_ch_multi ch ch0 n z f :
  length (List.filter (has_ch ch0) (replicate n (mkInfo ch z f))) =
  if bool_decide (ch = ch0) then n else 0%nat.
Proof.
  case_bool_decide as H.
  - subst. by rewrite filter_has_ch_replicate, length_replicate.
  - by rewrite filter_has_ch_replicate_ne.
Qed.

Lemma occurrences_NoDup id ids : NoDup ids -> (occurrences id ids <= 1)%nat.
Proof.
  unfold occurrences. induction 1 as [|x l Hx Hnd IH]; simpl; [lia|].
  case_bool_decide as Heq; simpl; [|done]. subst.
  assert (occurrences id l = 0%nat); [|unfold occurrences in *; lia].
  destruct (occurrences id l) eqn:E; [done|]. exfalso. apply Hx, occurrences_pos. lia.
Qed.

(** X5.  A [reqWatchMulti] whose ids are pairwise distinct keeps the
    registry invariant (at most one entry per key and channel), whether
    it succeeds or is refused. *)
Theorem WatchMulti_distinct_ids (w w' : Watcher) (c : string) (ids : list ival)
    (ch : option chan) (reply : option error) :
  NoDup ids -> registry_inv w ->
  handle w (reqWatchMulti c ids ch) = Done (w', reply) ->
  registry_inv w'.
Proof.
  intros Hnd Hinv. simpl.
  destruct (multi_conflict w c ids ch) as [key|] eqn:Hconf; intros [= <- <-]; [done|].
  rewrite multi_conflict_none in Hconf.
  intros k ch0. unfold registrations, watches_of. simpl.
  rewrite multi_register_lookup, List.filter_app, length_app, filter_has_ch_multi.
  fold (watches_of w k). fold (registrations w k ch0).
  specialize (Hinv k ch0).
  case_bool_decide as Hch; [|lia]. subst ch0.
  case_bool_decide as Hc; [|lia].
  pose proof (occurrences_NoDup (k_id k) ids Hnd) as Hocc.
  destruct (occurrences (k_id k) ids) eqn:E; [lia|].
  assert (Hin : k_id k ∈ ids) by (apply occurrences_pos; lia).
  apply Hconf, is_registered_registrations in Hin.
  destruct k as [kc kid]. simpl in *. subst kc. lia.
Qed.

Lemma unwatch_removes_one_witness :
  exists w', handle pending_m0 (reqUnwatch (mkKey "machines" (VString "m0")) (Some 7%nat))
             = Done (w', None) /\
    registrations w' (mkKey "machines" (VString "m0")) (Some 7%nat) = 0%nat.
Proof.
  destruct (handle pending_m0 (reqUnwatch (mkKey "machines" (VString "m0")) (Some 7%nat)))
    as [[w' reply]|p] eqn:Hh; [|vm_compute in Hh; discriminate Hh].
  destruct (unwatch_removes_one pending_m0 w' _ _ reply Hh) as (Hone & _).
  exists w'. split.
  - vm_compute in Hh. injection Hh as _ <-. reflexivity.
  - assert (Hr : registrations pending_m0 (mkKey "machines" (VString "m0")) (Some 7%nat)
                 = 1%nat) by reflexivity.
    rewrite Hr in Hone. by injection Hone.
Defined.

Lemma watch_unwatch_round_trip_witness :
  exists w1 w2,
    handle emptyWatcher (watch_m0 7%nat) = Done (w1, None) /\
    handle w1 (reqUnwatch (mkKey "machines" (VString "m0")) (Some 7%nat)) = Done (w2, None) /\
    forall k, watches_of w2 k = watches_of emptyWatcher k.
Proof.
  destruct (handle emptyWatcher (watch_m0 7%nat)) as [[w1 reply]|p] eqn:Hh;
    [|vm_compute in Hh; discriminate Hh].
  destruct (watch_unwatch_round_trip emptyWatcher w1 _ _ reply Hh)
    as (w2 & Hh2 & Hsame & _).
  exists w1, w2. split; [|split; [exact Hh2|exact Hsame]].
  vm_compute in Hh. injection Hh as _ <-. reflexivity.
Defined.

Lemma unwatch_collection_purges_witness :
  exists w', handle shared_channel_watcher (UnwatchCollection "machines" (Some 7%nat))
             = Done (w', None) /\
    is_registered w' (mkKey "machines" (VString "m0")) (Some 7%nat) = true /\
    sends (syncEvents w') = [] /\
    forall e, e ∈ syncEvents w' \/ e ∈ requestEvents w' ->
      k_c (e_key e) = "machines" -> e_ch e ≠ Some 7%nat.
Proof.
  destruct (handle shared_channel_watcher (UnwatchCollection "machines" (Some 7%nat)))
    as [[w' reply]|p] eqn:Hh; [|vm_compute in Hh; discriminate Hh].
  destruct (unwatch_collection_purges shared_channel_watcher w' _ _ reply Hh) as (Hq & _).
  exists w'. split; [|split; [|split; [|exact Hq]]];
    vm_compute in Hh; injection Hh as <- <-; reflexivity.
Defined.

Lemma WatchMulti_distinct_ids_witness :
  exists w', handle emptyWatcher
               (reqWatchMulti "machines" [VString "m0"; VString "m1"] (Some 1%nat))
             = Done (w', None) /\ registry_inv w'.
Proof.
  destruct (handle emptyWatcher
              (reqWatchMulti "machines" [VString "m0"; VString "m1"] (Some 1%nat)))
    as [[w' reply]|p] eqn:Hh; [|vm_compute in Hh; discriminate Hh].
  exists w'. split.
  - vm_compute in Hh. injection Hh as _ <-. reflexivity.
  - apply (WatchMulti_distinct_ids emptyWatcher w' "machines"
             [VString "m0"; VString "m1"] (Some 1%nat) reply); [| |exact Hh].
    + apply NoDup_cons. split; [|apply NoDup_singleton].
      intros H. apply list_elem_of_singleton in H. discriminate H.
    + intros key ch. vm_compute. lia.
Defined.

(** * Further properties of a pass *)

Lemma notify_lastId key revno w : lastId (notify key revno w) = lastId w.
Proof.
  unfold notify, watches_of. simpl. rewrite document_events_spec.
  by destruct (watches w !! key).
Qed.

Lemma notify_all_lastId cs w : lastId (notify_all cs w) = lastId w.
Proof.
  revert w. induction cs as [|x cs IH]; intros w; [done|].
  unfold notify_all in *. simpl. by rewrite IH, notify_lastId.
Qed.

Lemma sync_collections_lastId cs st :
  lastId (s_w (fold_left sync_collection cs st)) = lastId (s_w st).
Proof.
  destruct (sync_collections_changes cs st) as [-> _]. apply notify_all_lastId.
Qed.

Lemma sync_entries_lastId entries first lastId0 st st' :
  sync_entries entries first lastId0 st = Done st' ->
  lastId (s_w st') = if first then newest_id entries (lastId (s_w st)) else lastId (s_w st).
Proof.
  revert first st. induction entries as [|entry rest IH]; intros first st; simpl.
  - intros [= <-]. by destruct first.
  - destruct entry as [|id cs]; [done|].
    destruct (negb _); [done|].
    destruct (iface_eq (Value id) lastId0) as [[|]|]; [| |done].
    + intros [= <-]. by destruct first.
    + intros H. apply IH in H. rewrite H, sync_collections_lastId.
      by destruct first.
Qed.

(** X6.  A pass that returns leaves the cursor on the newest entry of
    the log, the first one the iterator yields, whether or not that
    entry is processed; when the iterator yields nothing the cursor
    stays where it was. *)
Theorem sync_moves_cursor (w : Watcher) (it : Iterator) (res : syncResult) :
  sync w it = Done res ->
  lastId (r_w res) = newest_id (docs it) (lastId w).
Proof.
  unfold sync. destruct (sync_entries _ _ _ _) as [st|] eqn:E; [|done].
  destruct (close_error it) as [err warn]. intros [= <-]. simpl.
  by apply sync_entries_lastId in E.
Qed.

Lemma sync_moves_cursor_witness :
  exists res, sync machines_watcher machines_log = Done res /\
    lastId (r_w res) = EVal (VInt64 1).
Proof.
  destruct (sync machines_watcher machines_log) as [res|p] eqn:Hs;
    [|vm_compute in Hs; discriminate Hs].
  exists res. split; [reflexivity|].
  exact (sync_moves_cursor machines_watcher machines_log res Hs).
Defined.

Lemma sync_entries_cursor pre id cs post first lastId0 st :
  String.eqb (Name id) "_id" = true ->
  iface_eq (Value id) lastId0 = Done true ->
  sync_entries (pre ++ (id :: cs) :: post) first lastId0 st =
  sync_entries (pre ++ [[id]]) first lastId0 st.
Proof.
  intros Hname Heq. revert first st.
  induction pre as [|entry pre IH]; intros first st; simpl.
  - by rewrite Hname, Heq.
  - destruct entry as [|id0 cs0]; [done|].
    destruct (negb _); [done|].
    destruct (iface_eq (Value id0) lastId0) as [[|]|]; [done| |done].
    apply IH.
Qed.

(** X7.  A pass stops at the cursor: when an entry of the log carries
    the id the cursor holds, neither the batches of that entry nor
    anything the iterator would yield after it is looked at.  The pass
    ends exactly as on the log cut after the id of that entry. *)
Theorem sync_stops_at_cursor (w : Watcher) (pre post : list bsonD) (id : DocElem)
    (cs : list DocElem) (err : option error) :
  String.eqb (Name id) "_id" = true ->
  iface_eq (Value id) (lastId w) = Done true ->
  sync w (mkIter (pre ++ (id :: cs) :: post) err) =
  sync w (mkIter (pre ++ [[id]]) err).
Proof.
  intros Hname Heq. unfold sync. simpl.
  by rewrite (sync_entries_cursor pre id cs post true (lastId w) _ Hname Heq).
Qed.

Lemma sync_stops_at_cursor_witness :
  let seen := mkElem "_id" (EVal (VInt64 1)) in
  let w := set_lastId machines_watcher (EVal (VInt64 1)) in
  sync w (mkIter [log_entry 2 "machines" [VString "m1"] [VInt64 5];
                  log_entry 1 "machines" [VString "m0"] [VInt64 4];
                  []] None) =
  sync w (mkIter [log_entry 2 "machines" [VString "m1"] [VInt64 5]; [seen]] None).
Proof.
  intros seen w.
  apply (sync_stops_at_cursor w [log_entry 2 "machines" [VString "m1"] [VInt64 5]] [[]]
           seen [mkElem "machines" (EDoc [("d", FArr [VString "m0"]); ("r", FArr [VInt64 4])])]
           None); reflexivity.
Defined.

Lemma sync_entries_at_cursor id cs rest v st :
  negb (String.eqb (Name id) "_id") = false -> Value id = EVal v ->
  sync_entries ((id :: cs) :: rest) true (EVal v) st =
  Done (mkSync (set_lastId (s_w st) (EVal v)) (s_seen st) (s_log st)).
Proof.
  intros Hname Hv. simpl. rewrite Hname, Hv. simpl.
  by rewrite bool_decide_eq_true_2.
Qed.

(** X8.  A pass over a log that has not grown since the last pass does
    nothing: if a pass returned and the newest entry has a scalar id,
    a second pass over the same iterator returns the watcher the first
    one left, with no event queued and no entry of the registry
    changed. *)
Theorem sync_twice (w : Watcher) (it : Iterator) (res : syncResult)
    (id : DocElem) (cs : list DocElem) (rest : list bsonD) (v : ival) :
  sync w it = Done res ->
  docs it = (id :: cs) :: rest ->
  Value id = EVal v ->
  exists res', sync (r_w res) it = Done res' /\ r_w res' = r_w res /\ r_err res' = r_err res.
Proof.
  intros Hsync Hdocs Hv.
  assert (Hcur : lastId (r_w res) = newest_id (docs it) (lastId w)).
  { revert Hsync. unfold sync.
    destruct (sync_entries _ _ _ _) as [st|] eqn:E; [|done].
    destruct (close_error it) as [err warn]. intros [= <-]. simpl.
    by apply sync_entries_lastId in E. }
  destruct (sync_spec w it res Hsync) as (_ & _ & Hneed & _).
  apply sync_r_err in Hsync as Herr.
  assert (Hname : negb (String.eqb (Name id) "_id") = false).
  { revert Hsync. unfold sync. rewrite Hdocs. simpl.
    destruct (negb (String.eqb (Name id) "_id")); [done|done]. }
  rewrite Hdocs in Hcur. simpl in Hcur. rewrite Hv in Hcur.
  unfold sync. rewrite Hdocs, Hcur.
  rewrite (sync_entries_at_cursor id cs rest v _ Hname Hv).
  destruct (close_error it) as [err warn] eqn:Hclose. eexists. split; [reflexivity|].
  simpl in *. split; [|by rewrite Herr].
  destruct (r_w res) as [ws ns se re li]. simpl in *. by subst.
Qed.

Lemma sync_twice_witness :
  exists res res', sync machines_watcher machines_log = Done res /\
    sync (r_w res) machines_log = Done res' /\ r_w res' = r_w res.
Proof.
  destruct (sync machines_watcher machines_log) as [res|p] eqn:Hs;
    [|vm_compute in Hs; discriminate Hs].
  destruct (sync_twice machines_watcher machines_log res
              (mkElem "_id" (EVal (VInt64 1)))
              [mkElem "machines" (EDoc [("d", FArr [VString "m0"; VString "m1"]);
                                        ("r", FArr [VInt64 1; VInt64 2])])]
              [] (VInt64 1) Hs eq_refl eq_refl) as (res' & Hs' & Hw & _).
  by exists res, res'.
Defined.




Lemma subscribers_registrations ch l1 l2 :
  subscribers l1 = subscribers l2 ->
  length (List.filter (has_ch ch) l1) = length (List.filter (has_ch ch) l2).
Proof.
  revert l2. induction l1 as [|a l1 IH]; intros [|b l2]; simpl; try done.
  intros [= Hc Hf Hl].
  assert (has_ch ch a = has_ch ch b) as -> by (unfold has_ch; by rewrite Hc).
  destruct (has_ch ch b); simpl; by rewrite (IH l2 Hl).
Qed.

Lemma notify_all_is_Some cs w k :
  is_Some (watches (notify_all cs w) !! k) <-> is_Some (watches w !! k).
Proof.
  revert w. induction cs as [|x cs IH]; intros w; [done|].
  unfold notify_all in *. simpl. rewrite IH, notify_watches.
  destruct (decide (k = x.1)); [|done]. by rewrite fmap_is_Some.
Qed.

(** X10.  A pass changes no registration: every key keeps its entries
    with their channels and filters in the same order (only revnos of
    per-document entries move), no key is added to or removed from the
    registry, the registry invariant is kept, and the request queue is
    not touched. *)
Theorem sync_keeps_registrations (w : Watcher) (it : Iterator) (res : syncResult) :
  sync w it = Done res ->
  (forall k, subscribers (watches_of (r_w res) k) = subscribers (watches_of w k)) /\
  (forall k ch, registrations (r_w res) k ch = registrations w k ch) /\
  (forall k, is_Some (watches (r_w res) !! k) <-> is_Some (watches w !! k)) /\
  (registry_inv w -> registry_inv (r_w res)) /\
  requestEvents (r_w res) = requestEvents w.
Proof.
  intros Hsync.
  destruct (sync_spec w it res Hsync) as (_ & Hreq & _ & _ & _ & Hsub).
  assert (Hreg : forall k ch, registrations (r_w res) k ch = registrations w k ch).
  { intros k ch. unfold registrations. by apply subscribers_registrations. }
  split; [exact Hsub|]. split; [exact Hreg|]. split.
  - intros k. apply sync_pass_changes in Hsync as [v ->]. simpl.
    apply notify_all_is_Some.
  - split; [|exact Hreq]. intros Hinv k ch. rewrite Hreg. apply Hinv.
Qed.

Lemma sync_keeps_registrations_witness :
  exists res, sync machines_watcher machines_log = Done res /\
    registrations (r_w res) (mkKey "machines" VNil) (Some 7%nat) = 1%nat.
Proof.
  destruct (sync machines_watcher machines_log) as [res|p] eqn:Hs;
    [|vm_compute in Hs; discriminate Hs].
  destruct (sync_keeps_registrations machines_watcher machines_log res Hs)
    as (_ & Hreg & _).
  exists res. split; [reflexivity|]. by rewrite Hreg.
Defined.

Lemma sync_rows_fold cname (d r : list ival) n st :
  (n <= length d)%nat -> (n <= length r)%nat ->
  sync_rows cname d r n st =
  fold_left (fun st x => sync_row cname x.1 x.2 st) (reverse (take n (zip d r))) st.
Proof.
  revert st. induction n as [|i IH]; intros st Hd Hr; simpl; [done|].
  destruct (lookup_lt_is_Some_2 d i) as [di Hdi]; [lia|].
  destruct (lookup_lt_is_Some_2 r i) as [ri Hri]; [lia|].
  rewrite Hdi, Hri.
  assert (Hz : zip d r !! i = Some (di, ri)).
  { rewrite lookup_zip_with, Hdi. simpl. by rewrite Hri. }
  rewrite (take_S_r _ _ _ Hz), reverse_snoc. simpl. apply IH; lia.
Qed.

(** X11.  In a batch that is not skipped the pass visits every row
    exactly once, from the last to the first: no index is out of range,
    and the result is that of folding the row step over the reversed
    list of (id, revno) pairs. *)
Theorem batch_walked_last_to_first (st : syncState) (c : DocElem) (d r : list ival) :
  decode_batch (Value c) = (d, r) ->
  d ≠ [] -> length d = length r ->
  sync_collection st c =
  fold_left (fun st x => sync_row (Name c) x.1 x.2 st) (reverse (zip d r)) st.
Proof.
  intros Hdec Hne Hlen. unfold sync_collection. rewrite Hdec.
  destruct d as [|d0 d]; [done|]. rewrite <- Hlen, Nat.eqb_refl. simpl orb. cbv iota.
  rewrite sync_rows_fold by lia. f_equal. f_equal.
  apply take_ge. rewrite length_zip_with. lia.
Qed.

Lemma batch_walked_last_to_first_witness :
  let c := mkElem "machines" (EDoc [("d", FArr [VString "m0"; VString "m1"]);
                                    ("r", FArr [VInt64 1; VInt64 2])]) in
  let st := mkSync machines_watcher ∅ [] in
  sync_collection st c =
  sync_row "machines" (VString "m0") (VInt64 1)
    (sync_row "machines" (VString "m1") (VInt64 2) st).
Proof.
  intros c st.
  apply (batch_walked_last_to_first st c [VString "m0"; VString "m1"] [VInt64 1; VInt64 2]);
    [reflexivity|discriminate|reflexivity].
Defined.

(** X12.  A row whose revno is not an int64 still uses up its document
    for the pass: the watcher is left as it was and a warning is
    logged, but the document is marked as seen, so that every other
    row for it met later in the same pass, in this or an older entry,
    is passed over, valid or not. *)
Theorem bad_revno_consumes_document (cname : string) (di ri : ival) (st : syncState) :
  (forall n, ri ≠ VInt64 n) ->
  mkKey cname di ∉ s_seen st ->
  let st' := sync_row cname di ri st in
  s_w st' = s_w st /\
  s_log st' = s_log st ++ [WarnRevnoType ri] /\
  (forall ri', sync_row cname di ri' st' = st') /\
  (forall ri' st'', s_seen st' ⊆ s_seen st'' -> sync_row cname di ri' st'' = st'').
Proof.
  intros Hbad Hns st'.
  assert (Hst : st' = mkSync (s_w st) ({[mkKey cname di]} ∪ s_seen st)
                        (s_log st ++ [WarnRevnoType ri])).
  { subst st'. unfold sync_row. rewrite bool_decide_eq_false_2 by done.
    destruct ri; try done. by destruct (Hbad n). }
  assert (Hlater : forall ri' st'', s_seen st' ⊆ s_seen st'' ->
            sync_row cname di ri' st'' = st'').
  { intros ri' st'' Hsub. unfold sync_row. rewrite bool_decide_eq_true_2; [done|].
    apply Hsub. rewrite Hst. simpl. set_solver. }
  rewrite Hst in *. simpl. split; [done|]. split; [done|]. split; [|exact Hlater].
  intros ri'. by apply Hlater.
Qed.

Lemma bad_revno_consumes_document_witness :
  let st := mkSync machines_watcher ∅ [] in
  let st' := sync_row "machines" (VString "m0") (VInt 4) st in
  s_w st' = machines_watcher /\
  sync_row "machines" (VString "m0") (VInt64 3) st' = st'.
Proof.
  intros st st'.
  destruct (bad_revno_consumes_document "machines" (VString "m0") (VInt 4) st)
    as (Hw & _ & Hlater & _).
  - intros n. discriminate.
  - set_solver.
  - split; [exact Hw | exact (Hlater (VInt64 3))].
Defined.

(** * Further properties of delivery *)

Lemma live_nil_lookup q i e : live q = 0%nat -> q !! i = Some e -> e_ch e = None.
Proof.
  unfold live. revert i. induction q as [|a q IH]; intros i; simpl; [done|].
  destruct (decide (e_ch a = None)) as [Ha|Ha].
  - rewrite bool_decide_eq_false_2 by (by intros ?). intros Hl.
    destruct i as [|i]; simpl; [by intros [= <-]|]. by apply IH.
  - rewrite bool_decide_eq_true_2 by done. simpl. lia.
Qed.

Lemma live_at_index q i :
  live (at_index q i) = match q !! i with
                        | Some e => match e_ch e with Some _ => 1%nat | None => 0%nat end
                        | None => 0%nat
                        end.
Proof.
  unfold at_index, live. destruct (q !! i) as [e|]; simpl; [|done].
  by destruct (e_ch e).
Qed.

Lemma live_take_S q i :
  live (take (S i) q) = (live (take i q) + live (at_index q i))%nat.
Proof.
  unfold at_index. destruct (q !! i) as [e|] eqn:E.
  - by rewrite (take_S_r _ _ _ E), live_app.
  - apply lookup_ge_None in E. rewrite !take_ge by lia. unfold live at 3. simpl. lia.
Qed.

Lemma deliver_dead q i w s e :
  q w !! i = Some e -> e_ch e = None -> deliver q i w s = mkFlushed FlushDone w s [].
Proof. intros Hi He. destruct s; simpl; by rewrite Hi, He. Qed.

Lemma deliver_out q i w s :
  q w !! i = None -> deliver q i w s = mkFlushed FlushDone w s [].
Proof. intros Hi. destruct s; simpl; by rewrite Hi. Qed.

Lemma flush_sync_stops s st s' n w :
  stops_delivery s st s' ->
  flush_sync n w s =
  if decide (live (take n (syncEvents w)) = 0%nat)
  then mkFlushed FlushDone w s [] else mkFlushed st w s' [].
Proof.
  intros [Hst Hstop]. induction n as [|i IH]; simpl; [done|].
  rewrite live_take_S, live_at_index.
  destruct (syncEvents w !! i) as [e|] eqn:Hi.
  - destruct (e_ch e) as [ch|] eqn:He.
    + rewrite (Hstop syncEvents i w e ch Hi He).
      rewrite and_then_stop by done. rewrite decide_False by lia. done.
    + rewrite (deliver_dead syncEvents i w s e Hi He). unfold and_then. simpl.
      rewrite IH. rewrite Nat.add_0_r. by destruct (decide _).
  - rewrite (deliver_out syncEvents i w s Hi). unfold and_then. simpl.
    rewrite IH. rewrite Nat.add_0_r. by destruct (decide _).
Qed.

Lemma live_drop_index q i :
  live (drop i q) = (live (at_index q i) + live (drop (S i) q))%nat.
Proof. by rewrite (drop_at_index q i) at 1; rewrite live_app. Qed.

Lemma flush_requests_stops s st s' fuel i w :
  stops_delivery s st s' ->
  (length (requestEvents w) <= fuel + i)%nat ->
  flush_requests fuel i w s =
  if decide (live (drop i (requestEvents w)) = 0%nat)
  then mkFlushed FlushDone w s [] else mkFlushed st w s' [].
Proof.
  intros [Hst Hstop]. revert i. induction fuel as [|fuel IH]; intros i Hlen; simpl.
  - rewrite drop_ge by lia. done.
  - destruct (Nat.ltb_spec i (length (requestEvents w))) as [Hi|Hi];
      [|by rewrite drop_ge by lia].
    rewrite live_drop_index, live_at_index.
    destruct (lookup_lt_is_Some_2 (requestEvents w) i Hi) as [e He]. rewrite He.
    destruct (e_ch e) as [ch|] eqn:Hc.
    + rewrite (Hstop requestEvents i w e ch He Hc).
      rewrite and_then_stop by done. by rewrite decide_False by lia.
    + rewrite (deliver_dead requestEvents i w s e He Hc). unfold and_then. simpl.
      rewrite IH by lia. simpl. by destruct (decide _).
Qed.

Lemma flush_stops s st s' w :
  stops_delivery s st s' ->
  flush w s =
  if decide (live (syncEvents w) + live (requestEvents w) = 0)%nat
  then mkFlushed FlushDone (cleared w) s [] else mkFlushed st w s' [].
Proof.
  intros Hstop. unfold flush.
  rewrite (flush_sync_stops s st s' _ w Hstop), firstn_all.
  destruct (decide (live (syncEvents w) = 0%nat)) as [Hs|Hs].
  - unfold and_then at 1. simpl.
    rewrite (flush_requests_stops s st s' _ 0 w Hstop) by lia. rewrite drop_0.
    destruct (decide (live (requestEvents w) = 0%nat)) as [Hr|Hr].
    + unfold and_then. simpl. by rewrite decide_True by lia.
    + rewrite and_then_stop by (simpl; apply Hstop). by rewrite decide_False by lia.
  - rewrite and_then_stop by (simpl; apply Hstop). by rewrite decide_False by lia.
Qed.

(** X13.  When no queued event has a channel left, [flush] does not
    reach a [select]: it takes nothing from the channels, not even the
    dying signal, sends nothing and empties both queues.  When some
    event has a channel, the dying tomb makes [flush] return at once,
    before any send, with both queues left as they were (not emptied);
    and with no subscriber receiving and nothing else arriving it stays
    blocked in its first send. *)
Theorem flush_first_select (w : Watcher) (script rest : list choice) :
  ((live (syncEvents w) + live (requestEvents w))%nat = 0%nat ->
   flush w script = mkFlushed FlushDone (cleared w) script []) /\
  ((live (syncEvents w) + live (requestEvents w))%nat ≠ 0%nat ->
   flush w (Dying :: rest) = mkFlushed FlushDying w rest [] /\
   flush w [] = mkFlushed FlushBlocked w [] []).
Proof.
  split.
  - intros Hnone. unfold flush.
    assert (Hs : forall n s, flush_sync n w s = mkFlushed FlushDone w s []).
    { intros n s. induction n as [|i IH]; simpl; [done|].
      destruct (syncEvents w !! i) as [e|] eqn:Hi.
      - rewrite (deliver_dead syncEvents i w s e Hi).
        + unfold and_then. simpl. by rewrite IH.
        + apply live_nil_lookup with (syncEvents w) i; [lia|done].
      - rewrite (deliver_out syncEvents i w s Hi). unfold and_then. simpl. by rewrite IH. }
    assert (Hr : forall fuel i s, flush_requests fuel i w s = mkFlushed FlushDone w s []).
    { intros fuel. induction fuel as [|fuel IH]; intros i s; simpl; [done|].
      destruct (i <? _)%nat; [|done].
      destruct (requestEvents w !! i) as [e|] eqn:Hi.
      - rewrite (deliver_dead requestEvents i w s e Hi).
        + unfold and_then. simpl. by rewrite IH.
        + apply live_nil_lookup with (requestEvents w) i; [lia|done].
      - rewrite (deliver_out requestEvents i w s Hi). unfold and_then. simpl.
        by rewrite IH. }
    rewrite Hs. unfold and_then at 1. simpl. rewrite Hr. unfold and_then. simpl. done.
  - intros Hsome. split.
    + rewrite (flush_stops (Dying :: rest) FlushDying rest w).
      * by rewrite decide_False.
      * split; [done|]. intros q i w0 e ch Hi He. simpl. by rewrite Hi, He.
    + rewrite (flush_stops [] FlushBlocked [] w).
      * by rewrite decide_False.
      * split; [done|]. intros q i w0 e ch Hi He. simpl. by rewrite Hi, He.
Qed.

Lemma flush_first_select_witness :
  flush (cleared sample_queues) [Dying] =
    mkFlushed FlushDone (cleared sample_queues) [Dying] [] /\
  flush sample_queues [Dying; Receive] = mkFlushed FlushDying sample_queues [Receive] [] /\
  flush sample_queues [] = mkFlushed FlushBlocked sample_queues [] [].
Proof.
  split.
  - destruct (flush_first_select (cleared sample_queues) [Dying] []) as [H _].
    apply H. reflexivity.
  - destruct (flush_first_select sample_queues [] [Receive]) as [_ H].
    apply H. vm_compute. discriminate.
Defined.

Lemma dimmed_length q' q : dimmed q' q -> length q' = length q.
Proof. apply Forall2_length. Qed.

Lemma deliver_lengths q i w script :
  q = syncEvents \/ q = requestEvents ->
  length (syncEvents (f_w (deliver q i w script))) = length (syncEvents w) /\
  length (requestEvents (f_w (deliver q i w script))) = length (requestEvents w).
Proof.
  intros Hq. destruct (deliver_spec q i w script Hq) as (_ & Hs & Hr).
  split; by apply dimmed_length.
Qed.

Lemma flush_requests_fuel fuel fuel' i w script :
  (length (requestEvents w) <= fuel + i)%nat ->
  (length (requestEvents w) <= fuel' + i)%nat ->
  flush_requests fuel i w script = flush_requests fuel' i w script.
Proof.
  revert fuel' i w script. induction fuel as [|fuel IH]; intros fuel' i w script H1 H2.
  - destruct fuel' as [|fuel']; simpl; [done|].
    destruct (Nat.ltb_spec i (length (requestEvents w))); [lia|done].
  - destruct fuel' as [|fuel']; simpl.
    + destruct (Nat.ltb_spec i (length (requestEvents w))); [lia|done].
    + destruct (Nat.ltb_spec i (length (requestEvents w))); [|done].
      unfold and_then. destruct (f_status _); try done.
      destruct (deliver_lengths requestEvents i w script) as [_ Hl]; [by right|].
      rewrite (IH fuel' (S i)); [done| |]; rewrite Hl; lia.
Qed.

(** X14.  No request lengthens a queue: [handle] changes the queues
    only by clearing channels, so both keep their length.  The second
    loop of [flush], which reads the length of the request queue again
    at every iteration, therefore runs over the queue as it stood when
    the loop was entered: any bound that covers the queue gives the
    same result. *)
Theorem queues_never_grow (w : Watcher) :
  (forall r w' reply, handle w r = Done (w', reply) ->
     length (syncEvents w') = length (syncEvents w) /\
     length (requestEvents w') = length (requestEvents w) /\
     (live (syncEvents w') <= live (syncEvents w))%nat /\
     (live (requestEvents w') <= live (requestEvents w))%nat) /\
  (forall fuel i script, (length (requestEvents w) <= fuel + i)%nat ->
     flush_requests fuel i w script =
     flush_requests (length (requestEvents w) - i) i w script).
Proof.
  split.
  - intros r w' reply Hh. apply handle_dimmed in Hh as [Hs Hr].
    assert (Hlive : forall q' q, dimmed q' q -> (live q' <= live q)%nat).
    { intros q' q Hd. unfold live. induction Hd as [|e' e q' q He Hq IH]; simpl; [done|].
      destruct He as [-> | ->]; simpl.
      - destruct (bool_decide _); simpl; lia.
      - destruct (bool_decide _); simpl; lia. }
    repeat split; try (by apply dimmed_length); by apply Hlive.
  - intros fuel i script Hlen. apply flush_requests_fuel; lia.
Qed.

(** * Further properties of the loop *)

Lemma deliver_suffix q i w script : f_rest (deliver q i w script) `suffix_of` script.
Proof.
  revert w. induction script as [|x script IH]; intros w; simpl.
  - destruct (q w !! i) as [e|]; [destruct (e_ch e)|]; simpl; done.
  - destruct (q w !! i) as [e|]; [destruct (e_ch e)|]; simpl; try done.
    destruct x as [| |r|]; simpl.
    + by apply suffix_cons_r.
    + by apply suffix_cons_r.
    + destruct (handle w r) as [[w' reply]|p]; simpl; by apply suffix_cons_r.
    + by apply suffix_cons_r.
Qed.

Lemma and_then_suffix r k s :
  f_rest r `suffix_of` s ->
  (forall w s', f_rest (k w s') `suffix_of` s') ->
  f_rest (and_then r k) `suffix_of` s.
Proof.
  intros Hr Hk. unfold and_then. destruct (f_status r); simpl; try done.
  trans (f_rest r); [apply Hk|done].
Qed.

Lemma flush_sync_suffix n w script : f_rest (flush_sync n w script) `suffix_of` script.
Proof.
  revert w script. induction n as [|i IH]; intros w script; simpl; [done|].
  apply and_then_suffix; [apply deliver_suffix|apply IH].
Qed.

Lemma flush_requests_suffix fuel i w script :
  f_rest (flush_requests fuel i w script) `suffix_of` script.
Proof.
  revert i w script. induction fuel as [|fuel IH]; intros i w script; simpl; [done|].
  destruct (_ <? _)%nat; simpl; [|done].
  apply and_then_suffix; [apply deliver_suffix|apply IH].
Qed.

Lemma flush_suffix w script : f_rest (flush w script) `suffix_of` script.
Proof.
  unfold flush. apply and_then_suffix; [apply flush_sync_suffix|].
  intros w1 s1. apply and_then_suffix; [apply flush_requests_suffix|].
  intros w2 s2. done.
Qed.

Lemma elem_of_suffix (x : choice) s' s : s' `suffix_of` s -> x ∈ s' -> x ∈ s.
Proof. intros [k ->] H. apply elem_of_app. by right. Qed.

Lemma select_step_returns next fl err :
  (select_step next fl).2 = Returned err ->
  (err = Traced ErrDying /\ Dying ∈ f_rest fl) \/
  exists w s, s `suffix_of` f_rest fl /\ (next w s).2 = Returned err.
Proof.
  unfold select_step.
  assert (Hcase :
    (match f_rest fl with
     | [] => (f_trace fl, Blocked)
     | Dying :: _ => (f_trace fl, Returned (Traced ErrDying))
     | Tick :: rest =>
         let '(tr, e) := next (set_needSync (f_w fl) true) rest in (f_trace fl ++ tr, e)
     | Request r :: rest =>
         match handle (f_w fl) r with
         | Panic p => (f_trace fl, Panicked p)
         | Done (w', reply) =>
             let fl' := flush w' rest in
             match f_status fl' with
             | FlushBlocked => (f_trace fl ++ Handled r reply :: f_trace fl', Blocked)
             | FlushPanic p => (f_trace fl ++ Handled r reply :: f_trace fl', Panicked p)
             | FlushDone | FlushDying =>
                 let '(tr, e) := next (f_w fl') (f_rest fl') in
                 (f_trace fl ++ Handled r reply :: f_trace fl' ++ tr, e)
             end
         end
     | Receive :: rest =>
         let '(tr, e) := next (f_w fl) rest in (f_trace fl ++ tr, e)
     end).2 = Returned err ->
    (err = Traced ErrDying /\ Dying ∈ f_rest fl) \/
    exists w s, s `suffix_of` f_rest fl /\ (next w s).2 = Returned err).
  { destruct (f_rest fl) as [|x rest]; [done|].
    destruct x as [| |r|]; simpl.
    - intros [= <-]. left. split; [done|]. by left.
    - destruct (next _ rest) as [tr e] eqn:E. simpl. intros ->.
      right. eexists _, rest. split; [by apply suffix_cons_r|]. by rewrite E.
    - destruct (handle (f_w fl) r) as [[w' reply]|p]; [|done].
      pose proof (flush_suffix w' rest) as Hsuf.
      destruct (f_status (flush w' rest)); try done;
        (destruct (next _ (f_rest (flush w' rest))) as [tr e] eqn:E; simpl; intros ->;
         right; eexists _, _; split; [by apply suffix_cons_r|by rewrite E]).
    - destruct (next _ rest) as [tr e] eqn:E. simpl. intros ->.
      right. eexists _, rest. split; [by apply suffix_cons_r|]. by rewrite E. }
  destruct (f_status fl); try done.
Qed.

Lemma loop_for_returns fuel iteratorFunc calls w script err :
  (loop_for fuel iteratorFunc calls w script).2 = Returned err ->
  (err = Traced ErrDying /\ Dying ∈ script) \/
  exists k e, closeErr (iteratorFunc k) = Some e /\
    (err = ErrRestartAgent \/ err = Traced (Annotated "watcher iteration error" e)).
Proof.
  revert calls w script. induction fuel as [|fuel IH]; intros calls w script; [done|].
  simpl. destruct (needSync w).
  - destruct (sync w (iteratorFunc calls)) as [res|p] eqn:Hsync; [|done].
    apply sync_r_err in Hsync. destruct (r_err res) as [err0|] eqn:Herr.
    + intros Hret. right. exists calls.
      unfold close_error in Hsync.
      destruct (closeErr (iteratorFunc calls)) as [e|]; [|done].
      exists e. split; [done|].
      destruct (bool_decide (Cause err0 = cappedPositionLostError)) eqn:Hc;
        simpl in Hret; injection Hret as <-; [by left|].
      right. destruct e; simpl in Hsync; try (by injection Hsync as ->).
      destruct (_ || _); simpl in Hsync; injection Hsync as ->; [|done].
      by vm_compute in Hc.
    + intros Hret. apply select_step_returns in Hret as [[-> Hd]|(w' & s & Hs & Hret)].
      * left. split; [done|]. eapply elem_of_suffix; [apply flush_suffix|done].
      * apply IH in Hret as [[-> Hd]|Hret]; [|by right].
        left. split; [done|].
        eapply elem_of_suffix; [apply flush_suffix|]. by eapply elem_of_suffix.
  - intros Hret. apply select_step_returns in Hret as [[-> Hd]|(w' & s & Hs & Hret)].
    + by left.
    + apply IH in Hret as [[-> Hd]|Hret]; [|by right].
      left. split; [done|]. by eapply elem_of_suffix.
Qed.

(** X15.  A watcher stops for one of three reasons only: reading the
    newest log entry failed at start-up, and the watcher dies with the
    cause of that error; the tomb was killed, and the loop took the
    dying signal at a [select]; or the iterator of some pass reported an
    error from [Close], and the watcher dies with the restart-the-agent
    error or with the cause of the iterator's error.  Nothing else,
    no request and no content of the log, makes the loop return. *)
Theorem watcher_stops_only (iteratorFunc : nat -> Iterator)
    (latest : error + option elem_value) (script : list choice) (err : error) :
  (newWatcher iteratorFunc latest script).2 = Returned err ->
  (exists e, latest = inl e /\ err = Cause e) \/
  (err = ErrDying /\ Dying ∈ script) \/
  (exists k e, closeErr (iteratorFunc k) = Some e /\
     (err = ErrRestartAgent \/ err = Cause e)).
Proof.
  unfold newWatcher, loop.
  destruct (initLastId (set_needSync emptyWatcher true) latest) as [e0|w'] eqn:Hinit.
  - intros [= <-]. left.
    destruct latest as [e|[id|]]; simpl in Hinit; try done.
    injection Hinit as <-. by exists e.
  - destruct (loop_for _ _ _ _ _) as [tr [err0| | |]] eqn:E; try done.
    simpl. intros [= <-].
    pose proof (loop_for_returns (S (length script)) iteratorFunc 0 w' script err0) as H.
    rewrite E in H. destruct (H eq_refl) as [[-> Hd]|(k & e & Hc & [-> | ->])].
    + right. by left.
    + right. right. exists k, e. split; [done|by left].
    + right. right. exists k, e. split; [done|by right].
Qed.

Lemma watcher_stops_only_witness :
  (exists e, @inr error (option elem_value) None = inl e /\ ErrRestartAgent = Cause e) \/
  (ErrRestartAgent = ErrDying /\ Dying ∈ [Tick; Dying]) \/
  (exists k e, closeErr (overflown_log k) = Some e /\
     (ErrRestartAgent = ErrRestartAgent \/ ErrRestartAgent = Cause e)).
Proof.
  apply (watcher_stops_only overflown_log (inr None) [Tick; Dying] ErrRestartAgent).
  vm_compute. reflexivity.
Defined.

Section LoopMonitor.

Variable M : Type.
Variable P : M -> Watcher -> Prop.
Variable step : M -> obs -> M.
Variable ok : M -> obs -> Prop.

Hypothesis Hhandle : forall m w r w' reply,
  P m w -> handle w r = Done (w', reply) ->
  ok m (Handled r reply) /\ P (step m (Handled r reply)) w'.
Hypothesis Hsync : forall m w it res, P m w -> sync w it = Done res -> P m (r_w res).
Hypothesis Hneed : forall m w b, P m w -> P m (set_needSync w b).
Hypothesis Hlast : forall m w v, P m w -> P m (set_lastId w v).
Hypothesis Hclear : forall m w, P m w -> P m (cleared w).
Hypothesis Hsend : forall m w e ch,
  P m w -> e ∈ syncEvents w ++ requestEvents w -> e_ch e = Some ch ->
  ok m (Sent ch (change_of e)) /\ P (step m (Sent ch (change_of e))) w.

Lemma accepted_app m t1 t2 :
  accepted step ok m (t1 ++ t2) <->
  accepted step ok m t1 /\ accepted step ok (fold_left step t1 m) t2.
Proof.
  revert m. induction t1 as [|o t1 IH]; intros m; simpl; [naive_solver|].
  rewrite IH. naive_solver.
Qed.

Lemma deliver_mon q i m w script :
  q = syncEvents \/ q = requestEvents ->
  P m w -> flushed_acc P step ok m (deliver q i w script).
Proof using Hhandle Hsend.
  intros Hq. revert m w. induction script as [|x script IH]; intros m w HP.
  - simpl. destruct (q w !! i) as [e|]; [destruct (e_ch e)|]; by split.
  - simpl. destruct (q w !! i) as [e|] eqn:Hi; [|by split].
    destruct (e_ch e) as [ch|] eqn:Hc; [|by split].
    destruct x as [| |r|].
    + by split.
    + by apply IH.
    + destruct (handle w r) as [[w' reply]|p] eqn:Hh; [|by split].
      destruct (Hhandle m w r w' reply HP Hh) as [Hok HP'].
      destruct (IH _ w' HP') as [Ht Hw]. split; simpl; [by split|done].
    + destruct (Hsend m w e ch HP) as [Hok HP']; [|done|by split].
      apply list_elem_of_lookup_2 in Hi.
      destruct Hq as [-> | ->]; apply elem_of_app; [by left|by right].
Qed.

Lemma and_then_mon r k m :
  flushed_acc P step ok m r ->
  (forall m' w s, P m' w -> flushed_acc P step ok m' (k w s)) ->
  flushed_acc P step ok m (and_then r k).
Proof.
  intros [Ht Hw] Hk. unfold and_then. destruct (f_status r); try by split.
  destruct (Hk _ (f_w r) (f_rest r) Hw) as [Ht' Hw'].
  split; simpl; [by apply accepted_app|by rewrite fold_left_app].
Qed.

Lemma flush_sync_mon n m w script :
  P m w -> flushed_acc P step ok m (flush_sync n w script).
Proof using Hhandle Hsend.
  revert m w script. induction n as [|i IH]; intros m w script HP; simpl; [by split|].
  apply and_then_mon; [by apply deliver_mon; [left|]|]. intros m' w' s. apply IH.
Qed.

Lemma flush_requests_mon fuel i m w script :
  P m w -> flushed_acc P step ok m (flush_requests fuel i w script).
Proof using Hhandle Hsend.
  revert i m w script. induction fuel as [|fuel IH]; intros i m w script HP; simpl;
    [by split|].
  destruct (_ <? _)%nat; [|by split].
  apply and_then_mon; [by apply deliver_mon; [right|]|]. intros m' w' s. apply IH.
Qed.

Lemma flush_mon m w script : P m w -> flushed_acc P step ok m (flush w script).
Proof using Hhandle Hsend Hclear.
  intros HP. unfold flush. apply and_then_mon; [by apply flush_sync_mon|].
  intros m1 w1 s1 HP1. apply and_then_mon; [by apply flush_requests_mon|].
  intros m2 w2 s2 HP2. split; simpl; [done|]. by apply Hclear.
Qed.

Lemma select_step_mon next fl m :
  flushed_acc P step ok m fl ->
  (forall m' w s, P m' w -> accepted step ok m' (next w s).1) ->
  accepted step ok m (select_step next fl).1.
Proof using Hhandle Hsend Hclear Hneed.
  intros [Ht Hw] Hnext. unfold select_step.
  assert (Hcase : accepted step ok m
    (match f_rest fl with
     | [] => (f_trace fl, Blocked)
     | Dying :: _ => (f_trace fl, Returned (Traced ErrDying))
     | Tick :: rest =>
         let '(tr, e) := next (set_needSync (f_w fl) true) rest in (f_trace fl ++ tr, e)
     | Request r :: rest =>
         match handle (f_w fl) r with
         | Panic p => (f_trace fl, Panicked p)
         | Done (w', reply) =>
             let fl' := flush w' rest in
             match f_status fl' with
             | FlushBlocked => (f_trace fl ++ Handled r reply :: f_trace fl', Blocked)
             | FlushPanic p => (f_trace fl ++ Handled r reply :: f_trace fl', Panicked p)
             | FlushDone | FlushDying =>
                 let '(tr, e) := next (f_w fl') (f_rest fl') in
                 (f_trace fl ++ Handled r reply :: f_trace fl' ++ tr, e)
             end
         end
     | Receive :: rest =>
         let '(tr, e) := next (f_w fl) rest in (f_trace fl ++ tr, e)
     end).1).
  { destruct (f_rest fl) as [|x rest]; [done|].
    destruct x as [| |r|]; simpl.
    - done.
    - pose proof (Hnext _ (set_needSync (f_w fl) true) rest (Hneed _ _ true Hw)) as Hn.
      destruct (next _ rest) as [tr e]. simpl in *. by apply accepted_app.
    - destruct (handle (f_w fl) r) as [[w' reply]|p] eqn:Hh; [|done].
      destruct (Hhandle _ _ r w' reply Hw Hh) as [Hok HP'].
      destruct (flush_mon _ w' rest HP') as [Ht' Hw'].
      pose proof (Hnext _ (f_w (flush w' rest)) (f_rest (flush w' rest)) Hw') as Hn.
      destruct (f_status (flush w' rest)); simpl;
        try (apply accepted_app; split; [done|]; by split);
        (destruct (next _ (f_rest (flush w' rest))) as [tr e]; simpl in *;
         apply accepted_app; split; [done|]; simpl; split; [done|];
         by apply accepted_app).
    - pose proof (Hnext _ (f_w fl) rest Hw) as Hn.
      destruct (next _ rest) as [tr e]. simpl in *. by apply accepted_app. }
  destruct (f_status fl); try done.
Qed.

Lemma loop_for_mon fuel iteratorFunc calls m w script :
  P m w -> accepted step ok m (loop_for fuel iteratorFunc calls w script).1.
Proof using Hhandle Hsend Hclear Hneed Hsync.
  revert calls m w script. induction fuel as [|fuel IH]; intros calls m w script HP;
    [done|].
  simpl. destruct (needSync w).
  - destruct (sync w (iteratorFunc calls)) as [res|p] eqn:Hs; [|done].
    destruct (r_err res); [by destruct (bool_decide _)|].
    apply select_step_mon.
    + apply flush_mon. by eapply Hsync.
    + intros m1 w1 s1. apply IH.
  - apply select_step_mon; [by split|]. intros m1 w1 s1. apply IH.
Qed.

Lemma newWatcher_mon iteratorFunc latest script m :
  P m emptyWatcher -> accepted step ok m (newWatcher iteratorFunc latest script).1.
Proof using Hhandle Hsend Hclear Hneed Hsync Hlast.
  intros HP. unfold newWatcher, loop.
  destruct (initLastId (set_needSync emptyWatcher true) latest) as [e0|w'] eqn:Hinit;
    [done|].
  assert (HP' : P m w').
  { destruct latest as [e|[id|]]; simpl in Hinit; try done;
      injection Hinit as <-; apply Hlast, Hneed, HP. }
  pose proof (loop_for_mon (S (length script)) iteratorFunc 0 m w' script HP') as H.
  by destruct (loop_for _ _ _ _ _) as [tr [| | |]].
Qed.

End LoopMonitor.

Lemma accepted_Forall (Q : obs -> Prop) tr :
  accepted (fun (m : unit) _ => m) (fun _ => Q) tt tr <-> Forall Q tr.
Proof.
  induction tr as [|o tr IH]; simpl; [by split; [constructor|]|].
  rewrite Forall_cons, IH. done.
Qed.

Lemma dimmed_live_elem q' q e ch :
  dimmed q' q -> e ∈ q' -> e_ch e = Some ch -> e ∈ q.
Proof.
  induction 1 as [|e' e0 q' q He Hq IH]; [done|].
  intros [->|Hin]%elem_of_cons Hc.
  - destruct He as [-> | ->]; [by left|done].
  - right. by apply IH.
Qed.

Lemma dimmed_revnos q' q :
  dimmed q' q -> Forall (fun e => -1 <= e_revno e) q -> Forall (fun e => -1 <= e_revno e) q'.
Proof.
  induction 1 as [|e' e0 q' q He Hq IH]; [done|].
  intros [H0 Hall]%Forall_cons. constructor; [|by apply IH].
  by destruct He as [-> | ->].
Qed.

Lemma change_events_elem w c e :
  e ∈ change_events w c ->
  exists info, e = event_for c.1 c.2 info /\
    (info ∈ watches_of w (mkKey (k_c c.1) VNil) \/ info ∈ watches_of w c.1).
Proof.
  unfold change_events. intros [H|H]%elem_of_app;
    apply list_elem_of_fmap in H as (info & -> & Hin);
    apply list_elem_of_In, List.filter_In in Hin as [Hin _];
    apply list_elem_of_In in Hin; exists info; (split; [done|]); [by left|by right].
Qed.

Lemma flat_map_elem {A B} (f : A -> list B) l y :
  y ∈ flat_map f l <-> exists x, x ∈ l /\ y ∈ f x.
Proof.
  rewrite list_elem_of_In, in_flat_map. split; intros (x & Hx & Hy); exists x;
    by rewrite ?list_elem_of_In in *.
Qed.

(** X16.  Every change a watcher ever sends carries a revision number
    of at least -1: whatever the log, the requests and the scheduling,
    the -2 that a new per-document entry starts with and the negative
    revnos of the log never reach a subscriber. *)
Theorem sent_revnos_are_real (iteratorFunc : nat -> Iterator)
    (latest : error + option elem_value) (script : list choice) :
  Forall real_revno (newWatcher iteratorFunc latest script).1.
Proof.
  apply accepted_Forall.
  apply newWatcher_mon with (P := fun _ => queued_revnos).
  - intros [] w r w' reply [Hs Hr] Hh. split; [done|].
    apply handle_dimmed in Hh as [Hds Hdr].
    split; by eapply dimmed_revnos.
  - intros [] w it res [Hs Hr] Hsync.
    destruct (sync_spec w it res Hsync) as (He & Hq & _).
    split; [|by rewrite Hq]. rewrite He. apply Forall_app. split; [done|].
    apply Forall_forall. intros e (c & Hc & Hin)%flat_map_elem.
    apply change_events_elem in Hin as (info & -> & _). simpl.
    pose proof (pass_changes_normalized w it) as Hn.
    rewrite Forall_forall in Hn. by apply Hn.
  - by intros [] w b [Hs Hr].
  - by intros [] w v [Hs Hr].
  - intros [] w _. split; constructor.
  - intros [] w e ch [Hs Hr] Hin _. split; [|done]. simpl.
    rewrite Forall_forall in Hs, Hr.
    apply elem_of_app in Hin as [Hin|Hin]; [by apply Hs|by apply Hr].
  - split; constructor.
Qed.

Lemma count_step_ext m m' o :
  (forall k c, m k c = m' k c) -> forall k c, count_step m o k c = count_step m' o k c.
Proof.
  intros H k c. destruct o as [ch0 c0|r reply]; simpl; [done|].
  destruct r as [|key info|key ch|col ids ch]; simpl; try done; try by rewrite H.
  destruct reply; [done|]. by rewrite H.
Qed.

(** The registry after a request is handled holds the registrations
    [count_step] says. *)
Lemma handle_counts w r w' reply :
  handle w r = Done (w', reply) ->
  forall k c, registrations w' k c = count_step (registrations w) (Handled r reply) k c.
Proof.
  intros Hh k c. destruct r as [|key info|key ch|col ids ch].
  - simpl in Hh. by injection Hh as <- <-.
  - simpl in Hh. destruct (existsb _ _); [done|]. injection Hh as <- <-. simpl.
    unfold registrations. rewrite watches_of_insert.
    destruct (decide (k = key)) as [->|Hk].
    + rewrite List.filter_app, length_app. simpl. unfold has_ch at 2.
      destruct (decide (i_ch info = c)) as [<-|Hc].
      * by rewrite !bool_decide_eq_true_2 by done.
      * rewrite (bool_decide_eq_false_2 (i_ch info = c)) by done.
        by rewrite bool_decide_eq_false_2 by naive_solver.
    + rewrite bool_decide_eq_false_2 by naive_solver. lia.
  - destruct (handle_unwatch_registrations w w' key ch reply Hh) as [Hhit Hother].
    simpl. destruct (decide (k = key /\ c = ch)) as [[-> ->]|Hne].
    + rewrite bool_decide_eq_true_2 by done. lia.
    + rewrite bool_decide_eq_false_2 by done. rewrite Hother; [lia|].
      destruct (decide (k = key)); [right|left]; naive_solver.
  - simpl in Hh. destruct (multi_conflict _ _ _ _); injection Hh as <- <-; [done|].
    simpl. destruct (decide (c = ch)) as [->|Hc].
    + rewrite multi_register_registrations.
      destruct (decide (k_c k = col)) as [Hk|Hk].
      * by rewrite !bool_decide_eq_true_2 by done.
      * by rewrite !bool_decide_eq_false_2 by naive_solver.
    + rewrite bool_decide_eq_false_2 by naive_solver.
      unfold registrations, watches_of. simpl.
      rewrite multi_register_lookup, filter_has_ch_app, length_app.
      rewrite filter_has_ch_replicate_ne by done. simpl. lia.
Qed.

Lemma key_match_refl k : key_match k k = true.
Proof.
  unfold key_match. rewrite bool_decide_eq_true_2 by done. simpl.
  destruct (bool_decide (k_id k = VNil)); [done|]. by rewrite bool_decide_eq_true_2.
Qed.

Lemma key_match_collection k : key_match (mkKey (k_c k) VNil) k = true.
Proof. unfold key_match. simpl. by rewrite !bool_decide_eq_true_2. Qed.

Lemma purge_live_elem key ch q e ch0 :
  e ∈ purge key ch q -> e_ch e = Some ch0 ->
  e ∈ q /\ (key_match key (e_key e) = false \/ Some ch0 ≠ ch).
Proof.
  unfold purge. intros Hin Hc. apply list_elem_of_fmap in Hin as (e0 & -> & Hin).
  destruct (key_match key (e_key e0)) eqn:Hk; simpl in *.
  - destruct (decide (e_ch e0 = ch)) as [He|He].
    + by rewrite bool_decide_eq_true_2 in Hc by done.
    + rewrite bool_decide_eq_false_2 in * by done. split; [done|]. right. congruence.
  - split; [done|]. by left.
Qed.

Lemma elem_registrations w k info :
  info ∈ watches_of w k -> (0 < registrations w k (i_ch info))%nat.
Proof.
  intros Hin. unfold registrations.
  assert (H : In info (List.filter (has_ch (i_ch info)) (watches_of w k))).
  { apply List.filter_In. split; [by apply list_elem_of_In|].
    unfold has_ch. by apply bool_decide_eq_true. }
  destruct (List.filter _ _); [done|]. simpl. lia.
Qed.

(** X17.  A watcher sends a change on a channel only while that channel
    is registered for the changed document or for the whole collection
    of that document.  The registrations in force are counted from the
    requests handled so far: a [reqWatch] adds one, a [reqWatchMulti]
    that is not refused adds one for every occurrence of an id, and a
    [reqUnwatch] takes one away.  This holds whatever the log holds and
    however the requests interleave with the passes and the sends. *)
Theorem sends_only_while_registered (iteratorFunc : nat -> Iterator)
    (latest : error + option elem_value) (script : list choice) :
  accepted count_step watched (fun _ _ => 0%nat)
           (newWatcher iteratorFunc latest script).1.
Proof.
  apply newWatcher_mon with (P := counted).
  - intros m w r w' reply [Hm Hq] Hh. split; [done|].
    pose proof (handle_counts w r w' reply Hh) as Hc.
    split.
    { intros k c. rewrite Hc. by apply count_step_ext. }
    destruct r as [|key info|key ch|col ids ch].
    + simpl in Hh. injection Hh as <- <-. exact Hq.
    + assert (Hge : forall k c, (registrations w k c <= registrations w' k c)%nat).
      { intros k c. rewrite Hc. simpl. lia. }
      simpl in Hh. destruct (existsb _ _); [done|]. injection Hh as <- <-.
      intros e ch0 Hin Hch. specialize (Hq e ch0 Hin Hch).
      pose proof (Hge (e_key e) (Some ch0)).
      pose proof (Hge (mkKey (k_c (e_key e)) VNil) (Some ch0)). simpl in *. lia.
    + destruct (handle_unwatch_registrations w w' key ch reply Hh) as [_ Hother].
      simpl in Hh. destruct (find_ch _ _); [|done]. injection Hh as <- <-.
      intros e ch0 Hin Hch. simpl in Hin.
      assert (He : e ∈ syncEvents w ++ requestEvents w /\
                   (key_match key (e_key e) = false \/ Some ch0 ≠ ch)).
      { apply elem_of_app in Hin as [Hin|Hin];
          apply purge_live_elem with (ch0 := ch0) in Hin as [Hin Hno]; try done;
          (split; [|done]); apply elem_of_app; [by left|by right]. }
      destruct He as [He Hno]. specialize (Hq e ch0 He Hch).
      rewrite !Hother; [exact Hq| |].
      * destruct Hno as [Hno|Hno]; [left|by right].
        intros <-. by rewrite key_match_collection in Hno.
      * destruct Hno as [Hno|Hno]; [left|by right].
        intros <-. by rewrite key_match_refl in Hno.
    + assert (Hge : forall k c, (registrations w k c <= registrations w' k c)%nat).
      { intros k c. rewrite Hc. simpl. destruct reply; lia. }
      simpl in Hh. destruct (multi_conflict _ _ _ _); injection Hh as <- <-; [exact Hq|].
      intros e ch0 Hin Hch. specialize (Hq e ch0 Hin Hch).
      pose proof (Hge (e_key e) (Some ch0)).
      pose proof (Hge (mkKey (k_c (e_key e)) VNil) (Some ch0)). simpl in *. lia.
  - intros m w it res [Hm Hq] Hsync.
    destruct (sync_spec w it res Hsync) as (He & Hr & _ & _ & _ & Hsub).
    assert (Hreg : forall k c, registrations (r_w res) k c = registrations w k c).
    { intros k c. unfold registrations. by apply subscribers_registrations. }
    split.
    { intros k c. by rewrite Hreg. }
    intros e ch. rewrite He, Hr, <- app_assoc, !Hreg.
    intros [Hin|[Hin|Hin]%elem_of_app]%elem_of_app Hc.
    + apply Hq; [|done]. apply elem_of_app. by left.
    + apply flat_map_elem in Hin as (c & _ & Hin).
      apply change_events_elem in Hin as (info & -> & [Hin|Hin]); simpl in *;
        apply elem_registrations in Hin; rewrite Hc in Hin; lia.
    + apply Hq; [|done]. apply elem_of_app. by right.
  - by intros m w b [Hm Hq].
  - by intros m w v [Hm Hq].
  - intros m w [Hm Hq]. split; [done|]. intros e ch Hin. by apply elem_of_nil in Hin.
  - intros m w e ch [Hm Hq] Hin Hc. split; [|done]. simpl.
    specialize (Hq e ch Hin Hc). rewrite !Hm. by destruct (e_key e).
  - split; [done|]. intros e ch Hin. by apply elem_of_nil in Hin.
Qed.

(** * Further properties of registrations and passes together *)

Lemma doc_notify_fresh revno ch f : doc_notify (normalize revno) (mkInfo ch (-2) f) = true.
Proof.
  unfold doc_notify, normalize. simpl.
  destruct (Z.ltb_spec revno 0); simpl; [done|].
  apply orb_true_iff. left. apply Z.ltb_lt. lia.
Qed.

(** X18.  The first change of a document seen after [Watch] registered
    a channel for it is always reported on that channel, whatever its
    revno: the entry starts at -2, below every normalised revno, so a
    removal (any negative revno, reported as -1) is reported too, also
    when the watch never saw the document present; the entry then
    records the revno reported. *)
Theorem first_change_is_reported (w w1 : Watcher) (c : string) (id : ival)
    (ch : option chan) (req : request) (reply : option error) (revno : Z) :
  Watch c id ch = Some req ->
  handle w req = Done (w1, reply) ->
  let w2 := notify (mkKey c id) (normalize revno) w1 in
  mkEvent ch (mkKey c id) (normalize revno) ∈ syncEvents w2 /\
  mkInfo ch (normalize revno) None ∈ watches_of w2 (mkKey c id).
Proof.
  unfold Watch. destruct (bool_decide (id = VNil)); [done|]. intros [= <-]. simpl.
  destruct (existsb _ _); [done|]. intros [= <- <-].
  rewrite notify_syncEvents, notify_watches_of, decide_True by done.
  split.
  - apply elem_of_app. right. apply elem_of_app. right.
    rewrite watches_of_insert, decide_True by done.
    apply list_elem_of_fmap. exists (mkInfo ch (-2) None). split; [done|].
    apply list_elem_of_In, List.filter_In. split; [|apply doc_notify_fresh].
    apply list_elem_of_In, elem_of_app. right. by left.
  - rewrite watches_of_insert, decide_True by done.
    rewrite fmap_app. apply elem_of_app. right. simpl.
    unfold observe_revno. rewrite doc_notify_fresh. by left.
Qed.

Lemma first_change_is_reported_witness :
  let w1 := set_watches emptyWatcher
              {[mkKey "machines" (VString "m0") := [mkInfo (Some 7%nat) (-2) None]]} in
  let w2 := notify (mkKey "machines" (VString "m0")) (normalize (-5)) w1 in
  mkEvent (Some 7%nat) (mkKey "machines" (VString "m0")) (normalize (-5)) ∈ syncEvents w2 /\
  mkInfo (Some 7%nat) (normalize (-5)) None ∈ watches_of w2 (mkKey "machines" (VString "m0")).
Proof.
  apply (first_change_is_reported emptyWatcher _ "machines" (VString "m0") (Some 7%nat)
           (reqWatch (mkKey "machines" (VString "m0")) (mkInfo (Some 7%nat) (-2) None))
           None (-5)).
  - reflexivity.
  - vm_compute. reflexivity.
Defined.

Lemma filter_all {A} (f : A -> bool) l :
  Forall (fun x => f x = true) l -> List.filter f l = l.
Proof.
  induction 1 as [|x l Hx Hl IH]; simpl; [done|]. by rewrite Hx, IH.
Qed.

(** X19.  A log row whose document id is nil has the key of the
    collection itself, so the pass treats the collection-wide entries
    twice: once as watches of the collection and once as watches of
    the document.  Every entry without a filter whose stored revno is
    below the row's revno gets the same change twice, and its stored
    revno, which plays no part for other rows, becomes that revno. *)
Theorem nil_id_row_notifies_twice (cname : string) (revno : Z) (st : syncState) :
  mkKey cname VNil ∉ s_seen st ->
  Forall (fun info => i_filter info = None /\ i_revno info < normalize revno)
         (watches_of (s_w st) (mkKey cname VNil)) ->
  let st' := sync_row cname VNil (VInt64 revno) st in
  let evs := event_for (mkKey cname VNil) (normalize revno)
               <$> watches_of (s_w st) (mkKey cname VNil) in
  syncEvents (s_w st') = syncEvents (s_w st) ++ evs ++ evs /\
  watches_of (s_w st') (mkKey cname VNil) =
    (fun info => mkInfo (i_ch info) (normalize revno) None)
      <$> watches_of (s_w st) (mkKey cname VNil).
Proof.
  intros Hseen Hall. unfold sync_row.
  rewrite bool_decide_eq_false_2 by done. simpl.
  rewrite notify_syncEvents, notify_watches_of, decide_True by done.
  rewrite collection_events_spec. simpl.
  rewrite !filter_all.
  - split; [done|]. apply list_fmap_ext. intros i info Hi.
    apply list_elem_of_lookup_2 in Hi. rewrite Forall_forall in Hall.
    destruct (Hall info Hi) as [Hf Hr]. unfold observe_revno, doc_notify.
    rewrite (proj2 (Z.ltb_lt _ _) Hr). simpl. by rewrite Hf.
  - eapply Forall_impl; [exact Hall|]. intros info [_ Hr]. unfold doc_notify.
    by rewrite (proj2 (Z.ltb_lt _ _) Hr).
  - eapply Forall_impl; [exact Hall|]. intros info [Hf _]. unfold accepts. by rewrite Hf.
Qed.

Lemma nil_id_row_notifies_twice_witness :
  let st := mkSync (set_watches emptyWatcher
                      {[mkKey "machines" VNil := [mkInfo (Some 7%nat) 0 None]]}) ∅ [] in
  let st' := sync_row "machines" VNil (VInt64 4) st in
  let evs := event_for (mkKey "machines" VNil) (normalize 4)
               <$> watches_of (s_w st) (mkKey "machines" VNil) in
  syncEvents (s_w st') = syncEvents (s_w st) ++ evs ++ evs /\
  watches_of (s_w st') (mkKey "machines" VNil) =
    (fun info => mkInfo (i_ch info) (normalize 4) None)
      <$> watches_of (s_w st) (mkKey "machines" VNil).
Proof.
  apply (nil_id_row_notifies_twice "machines" 4
           (mkSync (set_watches emptyWatcher
                      {[mkKey "machines" VNil := [mkInfo (Some 7%nat) 0 None]]}) ∅ [])).
  - set_solver.
  - vm_compute. constructor; [|constructor]. split; reflexivity.
Defined.

Lemma occurrences_absent id ids : id ∉ ids -> occurrences id ids = 0%nat.
Proof.
  unfold occurrences. induction ids as [|x ids IH]; simpl; [done|].
  intros Hn. apply not_elem_of_cons in Hn as [Hne Hn].
  rewrite bool_decide_eq_false_2 by done. by apply IH.
Qed.

(** X20.  Through the public API the two kinds of watch stay apart.
    [Watch], [WatchMulti] and [Unwatch] refuse a nil id before sending
    anything, so a request they send never changes the entries of a
    collection-wide key; [WatchCollectionWithFilter] (and with it
    [WatchCollection]) and [UnwatchCollection] always use the nil id,
    so a request they send never changes the entries of a document. *)
Theorem api_keeps_kinds_apart (w w' : Watcher) (r : request) (reply : option error) :
  handle w r = Done (w', reply) ->
  (document_request r ->
   forall c, watches_of w' (mkKey c VNil) = watches_of w (mkKey c VNil)) /\
  (collection_request r ->
   forall k, k_id k ≠ VNil -> watches_of w' k = watches_of w k).
Proof.
  intros Hh. split.
  - intros [(c0 & id & ch & Hr)|[(c0 & ids & ch & Hr)|(c0 & id & ch & Hr)]] c.
    + unfold Watch in Hr. destruct (decide (id = VNil)) as [->|Hne].
      { by rewrite bool_decide_eq_true_2 in Hr. }
      rewrite bool_decide_eq_false_2 in Hr by done. injection Hr as <-.
      simpl in Hh. destruct (existsb _ _); [done|]. injection Hh as <- <-.
      rewrite watches_of_insert, decide_False; [done|]. by intros [= _ <-].
    + unfold WatchMulti in Hr.
      destruct (existsb _ ids) eqn:Hex; [done|]. injection Hr as <-.
      simpl in Hh. destruct (multi_conflict _ _ _ _); injection Hh as <- <-; [done|].
      unfold watches_of. simpl. rewrite multi_register_lookup. simpl.
      rewrite occurrences_absent.
      * destruct (bool_decide _); simpl; by rewrite app_nil_r.
      * intros Hin. apply not_true_iff_false in Hex. apply Hex.
        apply existsb_exists. exists VNil. split; [by apply list_elem_of_In|].
        by apply bool_decide_eq_true.
    + unfold Unwatch in Hr. destruct (decide (id = VNil)) as [->|Hne].
      { by rewrite bool_decide_eq_true_2 in Hr. }
      rewrite bool_decide_eq_false_2 in Hr by done. injection Hr as <-.
      simpl in Hh. destruct (find_ch _ _); [|done]. injection Hh as <- <-.
      unfold watches_of. simpl. rewrite lookup_insert_ne; [done|]. by intros [= _ ->].
  - intros [(c0 & ch & f & <-)|(c0 & ch & <-)] k Hk.
    + simpl in Hh. destruct (existsb _ _); [done|]. injection Hh as <- <-.
      rewrite watches_of_insert, decide_False; [done|]. intros ->. by apply Hk.
    + simpl in Hh. destruct (find_ch _ _); [|done]. injection Hh as <- <-.
      unfold watches_of. simpl. rewrite lookup_insert_ne; [done|]. intros <-. by apply Hk.
Qed.

Lemma api_keeps_kinds_apart_witness :
  (document_request (reqWatch (mkKey "machines" (VString "m0")) (mkInfo (Some 7%nat) (-2) None)) ->
   forall c, watches_of (set_watches emptyWatcher
                           (<[mkKey "machines" (VString "m0") :=
                                [mkInfo (Some 7%nat) (-2) None]]> ∅)) (mkKey c VNil) =
             watches_of emptyWatcher (mkKey c VNil)) /\
  (collection_request (reqWatch (mkKey "machines" (VString "m0")) (mkInfo (Some 7%nat) (-2) None)) ->
   forall k, k_id k ≠ VNil ->
     watches_of (set_watches emptyWatcher
                   (<[mkKey "machines" (VString "m0") :=
                        [mkInfo (Some 7%nat) (-2) None]]> ∅)) k =
     watches_of emptyWatcher k).
Proof.
  apply (api_keeps_kinds_apart emptyWatcher _
           (reqWatch (mkKey "machines" (VString "m0")) (mkInfo (Some 7%nat) (-2) None)) None).
  reflexivity.
Defined.

Lemma flush_empty w script :
  syncEvents w = [] -> requestEvents w = [] ->
  flush w script = mkFlushed FlushDone (cleared w) script [].
Proof. intros Hs Hr. unfold flush. rewrite Hs. simpl. unfold and_then. simpl. by rewrite Hr. Qed.

(** X21.  [StartSync] does what the timer does.  With nothing queued
    and no pass due, a loop that takes a [reqSync] off the request
    channel goes on exactly as a loop whose timer fired: the next
    iteration runs a pass before it waits again.  The only difference
    an observer sees is the request being handled. *)
Theorem StartSync_acts_as_tick (fuel : nat) (iteratorFunc : nat -> Iterator) (calls : nat)
    (w : Watcher) (rest : list choice) :
  needSync w = false -> syncEvents w = [] -> requestEvents w = [] ->
  loop_for (S fuel) iteratorFunc calls w (Request StartSync :: rest) =
  (Handled StartSync None :: (loop_for (S fuel) iteratorFunc calls w (Tick :: rest)).1,
   (loop_for (S fuel) iteratorFunc calls w (Tick :: rest)).2).
Proof.
  intros Hn Hs Hr. simpl. rewrite Hn. unfold select_step. simpl.
  rewrite flush_empty by done. simpl.
  assert (Hw : cleared (set_needSync w true) = set_needSync w true).
  { destruct w. simpl in *. by subst. }
  rewrite Hw. by destruct (loop_for fuel iteratorFunc calls _ rest).
Qed.

Lemma StartSync_acts_as_tick_witness :
  loop_for 3 two_entries_log 0 emptyWatcher [Request StartSync; Dying] =
  (Handled StartSync None :: (loop_for 3 two_entries_log 0 emptyWatcher [Tick; Dying]).1,
   (loop_for 3 two_entries_log 0 emptyWatcher [Tick; Dying]).2).
Proof.
  apply (StartSync_acts_as_tick 2 two_entries_log 0 emptyWatcher [Dying]); reflexivity.
Defined.

(** X22.  Changes nobody watches are dropped for good.  When no
    document changed in the log, nor its collection, has an entry in
    the registry (as in the first pass of a new watcher, which runs
    before any request is handled), the pass queues nothing and
    leaves every entry as it was, yet the cursor moves to the newest
    log entry, where later passes stop. *)
Theorem unwatched_changes_are_dropped (w : Watcher) (it : Iterator) (res : syncResult) :
  sync w it = Done res ->
  (forall k rv, (k, rv) ∈ pass_changes w it ->
     watches_of w k = [] /\ watches_of w (mkKey (k_c k) VNil) = []) ->
  syncEvents (r_w res) = syncEvents w /\
  (forall k, watches_of (r_w res) k = watches_of w k) /\
  lastId (r_w res) = newest_id (docs it) (lastId w).
Proof.
  intros Hs Hun.
  pose proof (sync_spec w it res Hs) as (He & _ & _ & Ho & Hsame & _).
  split; [|split].
  - rewrite He.
    assert (Hnil : flat_map (change_events w) (pass_changes w it) = []).
    { revert Hun. generalize (pass_changes w it) as cs.
      induction cs as [|[k rv] cs IH]; intros H; simpl; [done|].
      rewrite IH by (intros k' rv' Hin; apply (H k' rv'); by right).
      unfold change_events. simpl.
      destruct (H k rv) as [-> ->]; [by left|done]. }
    by rewrite Hnil, app_nil_r.
  - intros k. destruct (decide (k ∈ (pass_changes w it).*1)) as [Hin|Hn].
    + apply list_elem_of_fmap in Hin as ([k' rv] & -> & Hin). simpl.
      rewrite (Hsame _ _ Hin). by destruct (Hun _ _ Hin) as [-> _].
    + unfold watches_of. by rewrite Ho.
  - unfold sync in Hs. destruct (sync_entries _ _ _ _) as [st|] eqn:E; [|done].
    destruct (close_error it) as [err warn]. injection Hs as <-. simpl.
    by apply sync_entries_lastId in E.
Qed.

Lemma unwatched_changes_are_dropped_witness :
  exists res, sync emptyWatcher machines_log = Done res /\
    syncEvents (r_w res) = [] /\
    (forall k, watches_of (r_w res) k = []) /\
    lastId (r_w res) = newest_id (docs machines_log) (EVal VNil).
Proof.
  destruct (sync emptyWatcher machines_log) as [res|p] eqn:Hs;
    [|vm_compute in Hs; discriminate Hs].
  exists res. split; [reflexivity|].
  apply (unwatched_changes_are_dropped emptyWatcher machines_log res Hs).
  intros k rv _. split; reflexivity.
Defined.
